(** * Feature engineering and defender separation of the NFL tracking pipeline

    A shallow embedding of
    - [scripts/add_defender_tracking.py] (the nearest-defender separation
      finder), and
    - [experiments/exp_002_safeties_vs_cornerbacks/scripts/engineer_features.py]
      (angular difference, kinematic "at throw" values, closing rate and its
      rolling mean, play-level aggregation).

    Numbers.  The float64 columns of the data frames are idealised as exact
    numbers: real numbers ([R]) in the separation finder, which takes square
    roots, and rationals ([Q]) in the feature engineering, which only adds,
    subtracts, divides and compares.  A missing value (pandas' NaN) is [None].
    Identifier columns (game_id, play_id, nfl_id, frame_id) are integers.

    Exceptions.  The pandas and Python operations that can raise (positional
    access into an empty selection, [max] of an empty list, [idxmin] of an
    empty column) are partial here too: they return in the monad [Exc], so
    that "raises no exception" is a statement about the embedded code.

    Layout.  Part I holds the definitions (the embedded code, then the
    notions the statements are phrased with, then sample tables); Part II
    holds the lemmas and the theorems. *)

From Stdlib Require Import String.
From Stdlib Require Import List ZArith Bool Lia.
From Stdlib Require Import Sorting.Sorted Sorting.Permutation.
From Stdlib Require Import QArith Qabs Lqa.
From Stdlib Require Import Reals Lra.
From Stdlib Require Import Rgeom.
Import ListNotations.

(** * Part I: definitions *)

(** ** Python exceptions as an error monad *)

Inductive PyExc : Type := IndexError | ValueError.

Inductive Exc (A : Type) : Type :=
| Ok (a : A)
| Raise (e : PyExc).

Arguments Ok {A} a.
Arguments Raise {A} e.

Definition bind {A B : Type} (c : Exc A) (k : A -> Exc B) : Exc B :=
  match c with
  | Ok a => k a
  | Raise e => Raise e
  end.

Declare Scope exc_scope.
Delimit Scope exc_scope with exc.
Notation "x <- c ;; k" := (bind c (fun x => k))
  (at level 61, c at next level, right associativity) : exc_scope.

(** ** List operations standing for pandas and Python primitives *)

Section Primitives.
Context {A : Type}.

(** [sel.iloc[0]]: IndexError on an empty selection. *)
Definition iloc0 (sel : list A) : Exc A :=
  match sel with
  | [] => Raise IndexError
  | a :: _ => Ok a
  end.

(** [sel.iloc[-1]]. *)
Definition iloc_last (sel : list A) : Exc A :=
  match sel with
  | [] => Raise IndexError
  | a :: t => Ok (last t a)
  end.

(** [sort_values], ascending for the order [ltb]: an insertion sort, in
    which rows that compare equal keep their order in the table.  (pandas'
    default sort does not promise that; it only matters for a table with
    two rows of one player on one frame.) *)
Fixpoint insert_by (ltb : A -> A -> bool) (a : A) (l : list A) : list A :=
  match l with
  | [] => [a]
  | b :: t => if ltb b a then b :: insert_by ltb a t else a :: l
  end.

Definition sort_values (ltb : A -> A -> bool) (l : list A) : list A :=
  fold_right (insert_by ltb) [] l.

(** The running maximum that Python's [max(iterable, key=...)] keeps: the
    item is replaced only by one with a strictly greater key, so the first
    of several maximal items wins. *)
Fixpoint max_from (key : A -> R) (best : A) (l : list A) : A :=
  match l with
  | [] => best
  | a :: t => if Rlt_dec (key best) (key a) then max_from key a t
              else max_from key best t
  end.

Definition py_max (key : A -> R) (l : list A) : Exc A :=
  match l with
  | [] => Raise ValueError
  | a :: t => Ok (max_from key a t)
  end.

(** [col.idxmin()] followed by [.loc]: the first row whose value is least. *)
Fixpoint min_from (key : A -> R) (best : A) (l : list A) : A :=
  match l with
  | [] => best
  | a :: t => if Rlt_dec (key a) (key best) then min_from key a t
              else min_from key best t
  end.

Definition idxmin (key : A -> R) (l : list A) : Exc A :=
  match l with
  | [] => Raise ValueError
  | a :: t => Ok (min_from key a t)
  end.

(** [(col <= c).sum()]. *)
Definition count_le (key : A -> R) (c : R) (l : list A) : nat :=
  List.length (filter (fun a => if Rle_dec (key a) c then true else false) l).

End Primitives.

(** [Series.unique()]: the distinct values in order of first appearance. *)
Fixpoint unique (l : list Z) : list Z :=
  match l with
  | [] => []
  | a :: t => a :: filter (fun b => negb (b =? a)%Z) (unique t)
  end.

(** [Series.max()] and [Series.min()] of a non-empty integer column. *)
Definition series_max (a : Z) (l : list Z) : Z := fold_left Z.max l a.
Definition series_min (a : Z) (l : list Z) : Z := fold_left Z.min l a.

(** ** First and last rows for an order *)

Section ByOrder.
Context {A : Type}.

(** The earliest row among those least for [ltb], and the latest row among
    those greatest for it: "first by frame_id" and "last by frame_id". *)
Fixpoint first_by (ltb : A -> A -> bool) (l : list A) : option A :=
  match l with
  | [] => None
  | a :: t =>
      match first_by ltb t with
      | None => Some a
      | Some b => if ltb b a then Some b else Some a
      end
  end.

Fixpoint last_by (ltb : A -> A -> bool) (l : list A) : option A :=
  match l with
  | [] => None
  | a :: t =>
      match last_by ltb t with
      | None => Some a
      | Some b => if ltb b a then Some a else Some b
      end
  end.

Definition last_error (l : list A) : option A :=
  match l with
  | [] => None
  | a :: t => Some (last t a)
  end.

(** [a] is not after [b]. *)
Definition not_after (ltb : A -> A -> bool) (a b : A) : Prop :=
  ltb b a = false.

End ByOrder.

(** * The separation finder: [scripts/add_defender_tracking.py] *)

Module Separation.

Local Open Scope R_scope.
Local Open Scope string_scope.
Local Open Scope exc_scope.

(** A row of the tracking table.  The coordinates are proper numbers: the
    only missing values the finder meets are the ones it makes itself. *)
Record Frame : Type := mkFrame {
  game_id : Z;
  play_id : Z;
  nfl_id : Z;
  frame_id : Z;
  x : R;
  y : R;
  player_side : string;
  player_position : string;
  player_name : string
}.

(** A row of the supplementary table; the route label may be missing. *)
Record SuppRow : Type := mkSupp {
  supp_game_id : Z;
  supp_play_id : Z;
  route_of_targeted_receiver : option string
}.

(** An entry of [player_displacements]. *)
Record Candidate : Type := mkCandidate {
  cand_nfl_id : Z;
  displacement : R;
  cand_position : string;
  cand_name : string
}.

(** A row of the result. *)
Record SeparationRecord : Type := mkRecord {
  res_game_id : Z;
  res_play_id : Z;
  route : string;
  receiver_nfl_id : Z;
  receiver_name : string;
  receiver_position : string;
  receiver_x : R;
  receiver_y : R;
  nearest_defender_id : Z;
  nearest_defender_name : string;
  nearest_defender_position : string;
  separation_at_throw : R;
  coverage_cushion : option R;
  separation_change : option R;
  defenders_within_3yd : nat;
  defenders_within_5yd : nat;
  throw_frame_id : Z
}.

(** [np.sqrt((x2 - x1)**2 + (y2 - y1)**2)]. *)
Definition distance (x1 y1 x2 y2 : R) : R :=
  sqrt ((x2 - x1) ^ 2 + (y2 - y1) ^ 2).

(** [position in ['WR', 'TE', 'RB', 'FB']]. *)
Definition receiver_positions : list string := ["WR"; "TE"; "RB"; "FB"].

Definition is_receiver_position (position : string) : bool :=
  existsb (String.eqb position) receiver_positions.

Definition is_side (side : string) (f : Frame) : bool :=
  String.eqb (player_side f) side.

Definition has_id (id : Z) (f : Frame) : bool := (nfl_id f =? id)%Z.

Definition at_frame (fid : Z) (f : Frame) : bool := (frame_id f =? fid)%Z.

Definition frame_ltb (f f' : Frame) : bool := (frame_id f <? frame_id f')%Z.

(** [targeted_plays]: the rows whose route is neither missing nor empty,
    projected to (game_id, play_id, route) (lines 82-85). *)
Definition targeted_plays (supp_df : list SuppRow) : list (Z * Z * string) :=
  flat_map
    (fun s =>
       match route_of_targeted_receiver s with
       | Some r => if String.eqb r "" then []
                   else [(supp_game_id s, supp_play_id s, r)]
       | None => []
       end)
    supp_df.

(** [play_data] (lines 95-98). *)
Definition play_rows (tracking_df : list Frame) (g pl : Z) : list Frame :=
  filter (fun f => (game_id f =? g)%Z && (play_id f =? pl)%Z) tracking_df.

(** [offensive_players] (line 113). *)
Definition offensive_players (play_data : list Frame) : list Frame :=
  filter (is_side "Offense") play_data.

(** The body of the loop over [offensive_players['nfl_id'].unique()]
    (lines 121-137): [None] where the source hits [continue] or does not
    append. *)
Definition displacement_of (offense : list Frame) (id : Z)
  : Exc (option Candidate) :=
  let player_frames := sort_values frame_ltb (filter (has_id id) offense) in
  if (List.length player_frames <? 2)%nat then Ok None
  else
    first <- iloc0 player_frames ;;
    final <- iloc_last player_frames ;;
    let d := distance (x first) (y first) (x final) (y final) in
    let position := player_position first in
    if is_receiver_position position
    then Ok (Some (mkCandidate id d position (player_name first)))
    else Ok None.

Fixpoint displacements_loop (offense : list Frame) (ids : list Z)
    (player_displacements : list Candidate) : Exc (list Candidate) :=
  match ids with
  | [] => Ok player_displacements
  | id :: rest =>
      c <- displacement_of offense id ;;
      displacements_loop offense rest
        (match c with
         | Some c => player_displacements ++ [c]
         | None => player_displacements
         end)
  end.

(** The choice of the presumed target (lines 111-144): [Ok None] where the
    source hits [continue]. *)
Definition select_target (play_data : list Frame) : Exc (option Candidate) :=
  let offense := offensive_players play_data in
  if (List.length offense =? 0)%nat then Ok None
  else
    player_displacements <-
      displacements_loop offense (unique (map nfl_id offense)) [] ;;
    if (List.length player_displacements =? 0)%nat then Ok None
    else
      target_player <- py_max displacement player_displacements ;;
      Ok (Some target_player).

(** The receiver's position at the snap (lines 155-161); [None] stands for
    the pair of [np.nan]. *)
Definition receiver_snap_xy (snap_frame : list Frame) (target_nfl_id : Z)
  : Exc (option (R * R)) :=
  let receiver_snap := filter (has_id target_nfl_id) snap_frame in
  if (List.length receiver_snap =? 0)%nat then Ok None
  else r <- iloc0 receiver_snap ;; Ok (Some (x r, y r)).

(** [coverage_cushion] (lines 186-200); [None] is [np.nan]. *)
Definition cushion (snap_frame : list Frame) (receiver_snap : option (R * R))
  : option R :=
  match receiver_snap with
  | None => None
  | Some (sx, sy) =>
      match filter (is_side "Defense") snap_frame with
      | [] => None
      | d :: ds =>
          let dist f := distance sx sy (x f) (y f) in
          Some (fold_left Rmin (map dist ds) (dist d))
      end
  end.

(** The body of the loop over the targeted plays (lines 94-220).
    [Ok None] is a [continue]; [Ok (Some r)] is [results.append(r)]. *)
Definition process_play (tracking_df : list Frame) (p : Z * Z * string)
  : Exc (option SeparationRecord) :=
  let '(g, pl, rt) := p in
  let play_data := play_rows tracking_df g pl in
  match play_data with
  | [] => Ok None
  | f0 :: fs =>
    let throw_id := series_max (frame_id f0) (map frame_id fs) in
    let throw_frame := filter (at_frame throw_id) play_data in
    let snap_id := series_min (frame_id f0) (map frame_id fs) in
    let snap_frame := filter (at_frame snap_id) play_data in
    target <- select_target play_data ;;
    match target with
    | None => Ok None
    | Some target_player =>
      let target_nfl_id := cand_nfl_id target_player in
      let receiver_throw := filter (has_id target_nfl_id) throw_frame in
      if (List.length receiver_throw =? 0)%nat then Ok None
      else
        receiver_throw <- iloc0 receiver_throw ;;
        let rx := x receiver_throw in
        let ry := y receiver_throw in
        receiver_snap <- receiver_snap_xy snap_frame target_nfl_id ;;
        let defenders_throw := filter (is_side "Defense") throw_frame in
        if (List.length defenders_throw =? 0)%nat then Ok None
        else
          let distance_to_receiver f := distance rx ry (x f) (y f) in
          nearest <- idxmin distance_to_receiver defenders_throw ;;
          let sep := distance_to_receiver nearest in
          let cush := cushion snap_frame receiver_snap in
          Ok (Some
                (mkRecord g pl rt target_nfl_id
                   (cand_name target_player) (cand_position target_player)
                   rx ry
                   (nfl_id nearest) (player_name nearest)
                   (player_position nearest)
                   sep
                   cush
                   (option_map (fun c => sep - c) cush)
                   (count_le distance_to_receiver 3 defenders_throw)
                   (count_le distance_to_receiver 5 defenders_throw)
                   throw_id))
    end
  end.

(** The loop over the targeted plays (lines 88-90, 202-220): an exception in
    one play ends the run. *)
Fixpoint plays_loop (tracking_df : list Frame) (plays : list (Z * Z * string))
    (results : list SeparationRecord) : Exc (list SeparationRecord) :=
  match plays with
  | [] => Ok results
  | p :: rest =>
      r <- process_play tracking_df p ;;
      plays_loop tracking_df rest
        (match r with
         | Some r => results ++ [r]
         | None => results
         end)
  end.

Definition find_nearest_defender (tracking_df : list Frame)
    (supp_df : list SuppRow) : Exc (list SeparationRecord) :=
  plays_loop tracking_df (targeted_plays supp_df) [].

End Separation.

(** ** Notions the statements about the separation finder are phrased with *)

Module SeparationSpec.
Import Separation.
Local Open Scope R_scope.
Local Open Scope string_scope.

(** The rows of one player among the offensive rows of a play. *)
Definition frames_of (offense : list Frame) (id : Z) : list Frame :=
  filter (has_id id) offense.

(** The straight-line displacement between a player's first-by-frame_id and
    last-by-frame_id positions; [None] for a player without a row. *)
Definition straight_line_displacement (frames : list Frame) : option R :=
  match first_by frame_ltb frames, last_by frame_ltb frames with
  | Some a, Some b => Some (distance (x a) (y a) (x b) (y b))
  | _, _ => None
  end.

(** An offensive player whose position, read on the first-by-frame_id row,
    is in the allow-list. *)
Definition eligible (offense : list Frame) (id : Z) : Prop :=
  exists f, first_by frame_ltb (frames_of offense id) = Some f /\
            is_receiver_position (player_position f) = true.

(** What one pass of the displacement loop appends, as a total function. *)
Definition candidate (offense : list Frame) (id : Z) : option Candidate :=
  let frames := frames_of offense id in
  if (List.length frames <? 2)%nat then None
  else
    match first_by frame_ltb frames, last_by frame_ltb frames with
    | Some a, Some b =>
        if is_receiver_position (player_position a)
        then Some (mkCandidate id (distance (x a) (y a) (x b) (y b))
                     (player_position a) (player_name a))
        else None
    | _, _ => None
    end.

Definition candidates (offense : list Frame) : list Candidate :=
  flat_map (fun id => match candidate offense id with
                      | Some c => [c]
                      | None => []
                      end)
    (unique (map nfl_id offense)).

(** The rows of a play at its greatest and at its least frame_id. *)
Definition throw_rows (play_data : list Frame) : list Frame :=
  match play_data with
  | [] => []
  | f0 :: fs =>
      filter (at_frame (series_max (frame_id f0) (map frame_id fs))) play_data
  end.

Definition snap_rows (play_data : list Frame) : list Frame :=
  match play_data with
  | [] => []
  | f0 :: fs =>
      filter (at_frame (series_min (frame_id f0) (map frame_id fs))) play_data
  end.

(** [k] is the greatest frame_id of the play. *)
Definition is_max_frame_id (k : Z) (play_data : list Frame) : Prop :=
  (exists f, In f play_data /\ frame_id f = k) /\
  (forall f, In f play_data -> (frame_id f <= k)%Z).

(** The defensive-side rows of a play at frame [k]. *)
Definition defenders_at (k : Z) (play_data : list Frame) : list Frame :=
  filter (fun f => at_frame k f && is_side "Defense" f) play_data.

(** The record appended for a play whose target is [t], whose receiver row at
    the throw is [rcv] and whose defenders at the throw are [d :: ds]. *)
Definition record_of (g pl : Z) (rt : string) (play_data : list Frame)
    (t : Candidate) (rcv d : Frame) (ds : list Frame) : SeparationRecord :=
  let dist f := distance (x rcv) (y rcv) (x f) (y f) in
  let nearest := min_from dist d ds in
  let cush :=
    cushion (snap_rows play_data)
      (match filter (has_id (cand_nfl_id t)) (snap_rows play_data) with
       | [] => None
       | s :: _ => Some (x s, y s)
       end) in
  mkRecord g pl rt (cand_nfl_id t) (cand_name t) (cand_position t)
    (x rcv) (y rcv)
    (nfl_id nearest) (player_name nearest) (player_position nearest)
    (dist nearest) cush (option_map (fun c => dist nearest - c) cush)
    (count_le dist 3 (d :: ds)) (count_le dist 5 (d :: ds))
    (match play_data with
     | [] => 0%Z
     | f0 :: fs => series_max (frame_id f0) (map frame_id fs)
     end).

(** What one targeted play contributes to the result. *)
Definition emitted (tracking_df : list Frame) (p : Z * Z * string)
  : list SeparationRecord :=
  match process_play tracking_df p with
  | Ok (Some r) => [r]
  | _ => []
  end.

Definition key_of (r : SeparationRecord) : Z * Z :=
  (res_game_id r, res_play_id r).

Definition play_key (p : Z * Z * string) : Z * Z := fst p.

(** The five ways a targeted play is passed over. *)
Inductive skipped (tracking_df : list Frame) (g pl : Z) : Prop :=
| no_frames :
    play_rows tracking_df g pl = [] -> skipped tracking_df g pl
| no_offensive_player :
    (forall f, In f (play_rows tracking_df g pl) ->
               player_side f <> "Offense") ->
    skipped tracking_df g pl
| no_eligible_player :
    (forall id,
        ~ eligible (offensive_players (play_rows tracking_df g pl)) id) ->
    skipped tracking_df g pl
| no_receiver_at_throw : forall t,
    select_target (play_rows tracking_df g pl) = Ok (Some t) ->
    (forall f, In f (throw_rows (play_rows tracking_df g pl)) ->
               nfl_id f <> cand_nfl_id t) ->
    skipped tracking_df g pl
| no_defender_at_throw :
    (forall f, In f (throw_rows (play_rows tracking_df g pl)) ->
               player_side f <> "Defense") ->
    skipped tracking_df g pl.

(** *** Sample tables

    The play of the specification's test: a WR who moves 5 yards, an RB who
    moves 2, and one defender 3 yards from the WR at the throw (6 yards at
    the snap). *)
Definition demo_tracking : list Frame :=
  [ mkFrame 1 1 10 1 0 0 "Offense" "WR" "Ward";
    mkFrame 1 1 10 2 3 4 "Offense" "WR" "Ward";
    mkFrame 1 1 20 1 0 10 "Offense" "RB" "Reed";
    mkFrame 1 1 20 2 2 10 "Offense" "RB" "Reed";
    mkFrame 1 1 30 1 0 6 "Defense" "CB" "Cole";
    mkFrame 1 1 30 2 3 7 "Defense" "CB" "Cole" ].

Definition demo_target : Candidate := mkCandidate 10 5 "WR" "Ward".

Definition demo_record : SeparationRecord :=
  mkRecord 1 1 "GO" 10 "Ward" "WR" 3 4 30 "Cole" "CB" 3
    (Some 6) (Some (3 - 6)) 1 1 2.

(** The same supplementary row twice. *)
Definition demo_supp_twice : list SuppRow :=
  [ mkSupp 1 1 (Some "GO"); mkSupp 1 1 (Some "GO") ].

(** The WR joins the play after the snap: he is on frames 2 and 3 only. *)
Definition late_tracking : list Frame :=
  [ mkFrame 1 1 30 1 0 6 "Defense" "CB" "Cole";
    mkFrame 1 1 10 2 0 0 "Offense" "WR" "Ward";
    mkFrame 1 1 30 2 1 6 "Defense" "CB" "Cole";
    mkFrame 1 1 10 3 3 4 "Offense" "WR" "Ward";
    mkFrame 1 1 30 3 3 7 "Defense" "CB" "Cole" ].

(** The only eligible player is on a single frame, the throw frame, where a
    defender stands too. *)
Definition single_frame_tracking : list Frame :=
  [ mkFrame 1 1 30 1 0 6 "Defense" "CB" "Cole";
    mkFrame 1 1 10 2 3 4 "Offense" "WR" "Ward";
    mkFrame 1 1 30 2 3 7 "Defense" "CB" "Cole" ].

End SeparationSpec.

(** * Feature engineering: [scripts/engineer_features.py] *)

Module Features.

Local Open Scope Q_scope.
Local Open Scope string_scope.

(** A float64 entry of a column: a rational, or missing (NaN). *)
Definition cell : Type := option Q.

(** Arithmetic on entries: a missing operand gives a missing result. *)
Definition sub_cell (c c' : cell) : cell :=
  match c, c' with
  | Some v, Some v' => Some (v - v')
  | _, _ => None
  end.

Definition neg_cell (c : cell) : cell := option_map Qopp c.

Definition abs_cell (c : cell) : cell := option_map Qabs c.

(** [c > v]: false on a missing entry. *)
Definition gt_cell (c : cell) (v : Q) : bool :=
  match c with
  | Some w => if Qlt_le_dec v w then true else false
  | None => false
  end.

(** ** [calculate_angular_difference] (lines 50-58), on two columns *)

Definition calculate_angular_difference (angle1 angle2 : list cell)
  : list cell :=
  (* diff = np.abs(angle1 - angle2) *)
  let diff := map (fun p => abs_cell (sub_cell (fst p) (snd p)))
                (combine angle1 angle2) in
  (* diff = np.where(diff > 180, 360 - diff, diff) *)
  map (fun d => if gt_cell d 180 then sub_cell (Some 360) d else d) diff.

(** ** Grouping by (game_id, play_id, nfl_id) *)

Definition Key : Type := (Z * Z * Z)%type.

Definition key_eqb (k k' : Key) : bool :=
  let '(g, p, n) := k in
  let '(g', p', n') := k' in
  (g =? g')%Z && (p =? p')%Z && (n =? n')%Z.

(** The entries of a column that belong to the group [k], in table order. *)
Definition group_of {A : Type} (k : Key) (keys : list Key) (col : list A)
  : list A :=
  map snd (filter (fun p => key_eqb (fst p) k) (combine keys col)).

Definition count_key (k : Key) (seen : list Key) : nat :=
  List.length (filter (key_eqb k) seen).

(** [grouped[col].transform(f)]: [f] is applied to the column of each group
    and every row receives the entry at its own rank within its group, so
    the result is aligned with the table.  [seen] holds the keys of the rows
    already passed. *)
Fixpoint transform_from {A B : Type} (f : list A -> list B) (dflt : B)
    (keys : list Key) (col : list A) (seen rest : list Key) : list B :=
  match rest with
  | [] => []
  | k :: rest' =>
      nth (count_key k seen) (f (group_of k keys col)) dflt
      :: transform_from f dflt keys col (k :: seen) rest'
  end.

Definition transform {A B : Type} (f : list A -> list B) (dflt : B)
    (keys : list Key) (col : list A) : list B :=
  transform_from f dflt keys col [] keys.

(** ** Per-group operations *)

(** [transform('max')] on an integer column. *)
Definition group_max (g : list Z) : list Z :=
  match g with
  | [] => []
  | v :: t => map (fun _ => series_max v t) g
  end.

(** [x.fillna(method='bfill')]: a missing entry takes the next entry that is
    not missing, and stays missing when there is none. *)
Fixpoint bfill (l : list cell) : list cell :=
  match l with
  | [] => []
  | c :: t =>
      let t' := bfill t in
      match c with
      | Some _ => c :: t'
      | None => hd None t' :: t'
      end
  end.

(** [.diff()]: the first entry is missing. *)
Fixpoint diff_from (prev : cell) (l : list cell) : list cell :=
  match l with
  | [] => []
  | c :: t => sub_cell c prev :: diff_from c t
  end.

Definition diff (l : list cell) : list cell :=
  match l with
  | [] => []
  | c :: t => None :: diff_from c t
  end.

(** [x.rolling(window, min_periods).mean()], as pandas computes it: one pass
    that keeps the number [nobs] and the sum [sum_x] of the entries of the
    current window that are not missing; at row [i] the entry that leaves
    the window (row [i - window]) is removed and the entry of row [i] is
    added.  The mean is missing unless [nobs] reaches [min_periods]. *)
Record RollState : Type := mkRoll { nobs : nat; sum_x : Q }.

Definition add_mean (st : RollState) (c : cell) : RollState :=
  match c with
  | Some v => mkRoll (S (nobs st)) (sum_x st + v)
  | None => st
  end.

Definition remove_mean (st : RollState) (c : cell) : RollState :=
  match c with
  | Some v => mkRoll (pred (nobs st)) (sum_x st - v)
  | None => st
  end.

Definition calc_mean (min_periods : nat) (st : RollState) : cell :=
  if (min_periods <=? nobs st)%nat && (0 <? nobs st)%nat
  then Some (sum_x st / inject_Z (Z.of_nat (nobs st)))
  else None.

Fixpoint roll_from (window min_periods : nat) (xs : list cell) (i : nat)
    (st : RollState) (rest : list cell) : list cell :=
  match rest with
  | [] => []
  | c :: rest' =>
      let st := if (window <=? i)%nat
                then remove_mean st (nth (i - window) xs None)
                else st in
      let st := add_mean st c in
      calc_mean min_periods st :: roll_from window min_periods xs (S i) st rest'
  end.

Definition rolling_mean (window min_periods : nat) (xs : list cell)
  : list cell :=
  roll_from window min_periods xs 0 (mkRoll 0 0) xs.

(** ** The frame-level table *)

(** The columns of the merged tracking table that the kinematic and the
    temporal features read. *)
Record Row : Type := mkRow {
  game_id : Z;
  play_id : Z;
  nfl_id : Z;
  frame_id : Z;
  s : cell;
  a : cell;
  dist_to_ball_landing : cell
}.

Definition key_of_row (r : Row) : Key := (game_id r, play_id r, nfl_id r).

(** ** [engineer_kinematic_features], lines 150-166

    with [calculate_at_throw_moment] set.  [grouped] is built from [df]
    before [df] receives the new columns and reads them afterwards: the
    group-by sees the frame it was built from, as mutated. *)

Record Kinematic : Type := mkKinematic {
  speed_at_throw : list cell;
  accel_at_throw : list cell
}.

(** [np.where(df['frame_id'] == last_frame, df[col], np.nan)]. *)
Definition where_last_frame (col : Row -> cell) (df : list Row)
    (last_frame : list Z) : list cell :=
  map (fun p => if (frame_id (fst p) =? snd p)%Z then col (fst p) else None)
    (combine df last_frame).

Definition engineer_kinematic_features (df : list Row) : Kinematic :=
  let keys := map key_of_row df in
  let last_frame := transform group_max 0%Z keys (map frame_id df) in
  mkKinematic
    (transform bfill None keys (where_last_frame s df last_frame))
    (transform bfill None keys (where_last_frame a df last_frame)).

(** ** [engineer_temporal_features], lines 246-265 *)

Record Temporal : Type := mkTemporal {
  sorted_df : list Row;
  dist_change : list cell;
  closing_rate : list cell;
  closing_rate_smooth : list cell
}.

(** The order of [sort_values(['game_id', 'play_id', 'nfl_id', 'frame_id'])]. *)
Definition row_ltb (r r' : Row) : bool :=
  match (game_id r ?= game_id r')%Z with
  | Lt => true
  | Gt => false
  | Eq =>
      match (play_id r ?= play_id r')%Z with
      | Lt => true
      | Gt => false
      | Eq =>
          match (nfl_id r ?= nfl_id r')%Z with
          | Lt => true
          | Gt => false
          | Eq => (frame_id r <? frame_id r')%Z
          end
      end
  end.

(** [min_frames] is [min_frames_for_reaction]; pandas rejects a window
    smaller than [min_periods = 1], so it is positive on every run that
    reaches the rolling mean. *)
Definition engineer_temporal_features (df : list Row) (min_frames : nat)
  : Temporal :=
  let df := sort_values row_ltb df in
  let keys := map key_of_row df in
  let dist_change :=
    transform diff None keys (map dist_to_ball_landing df) in
  let closing_rate := map neg_cell dist_change in
  let closing_rate_smooth :=
    transform (rolling_mean min_frames 1) None keys closing_rate in
  mkTemporal df dist_change closing_rate closing_rate_smooth.

(** ** [create_play_level_dataset], lines 359-399 *)

(** An entry of the engineered table: a number or a text, or missing. *)
Inductive value : Type :=
| Num (q : Q)
| Text (t : string).

Definition entry : Type := option value.

(** A row of the engineered frame-level table: the three key columns, and
    the entry of every other column by its name. *)
Record FrameRow : Type := mkFrameRow {
  row_key : Key;
  row_entry : string -> entry
}.

Record FrameTable : Type := mkFrameTable {
  columns : list string;
  rows : list FrameRow
}.

(** [df[c]] on one row. *)
Definition column (c : string) (r : FrameRow) : entry :=
  let '(g, p, n) := row_key r in
  if String.eqb c "game_id" then Some (Num (inject_Z g))
  else if String.eqb c "play_id" then Some (Num (inject_Z p))
  else if String.eqb c "nfl_id" then Some (Num (inject_Z n))
  else row_entry r c.

Definition id_cols : list string :=
  ["game_id"; "play_id"; "nfl_id"; "player_name"; "player_position";
   "position_group"; "player_height"; "player_weight"; "player_birth_date"].

Definition context_cols : list string :=
  ["week"; "pass_result"; "pass_length"; "pass_location_type";
   "team_coverage_type"; "team_coverage_man_zone";
   "down"; "yards_to_go"; "quarter";
   "ball_land_x"; "ball_land_y"; "absolute_yardline_number"].

Definition feature_cols : list string :=
  ["initial_dist_to_ball"; "min_dist_to_ball";
   "avg_speed"; "max_speed"; "min_speed"; "std_speed";
   "speed_at_throw"; "accel_at_throw";
   "avg_accel"; "max_accel"; "std_accel";
   "avg_dir_alignment"; "avg_orient_alignment"; "avg_body_control";
   "pct_good_dir_alignment";
   "avg_closing_rate"; "reaction_frame_min";
   "post_throw_distance"; "final_proximity_to_ball";
   "convergence_distance"; "num_post_frames"].

Definition is_in (cols : list string) (c : string) : bool :=
  existsb (String.eqb c) cols.

(** The keys of [agg_dict], in order (lines 383-391). *)
Definition agg_columns (df_columns : list string) : list string :=
  let available_feature_cols := filter (is_in df_columns) feature_cols in
  let available_context_cols := filter (is_in df_columns) context_cols in
  filter (is_in df_columns)
    (id_cols ++ available_context_cols ++ available_feature_cols).

(** The order in which [groupby] lists its groups. *)
Definition key_compare (k k' : Key) : comparison :=
  let '(g, p, n) := k in
  let '(g', p', n') := k' in
  match (g ?= g')%Z with
  | Eq => match (p ?= p')%Z with
          | Eq => (n ?= n')%Z
          | c => c
          end
  | c => c
  end.

(** ['first'], as pandas' group-by computes it: one pass over the rows in
    table order; each group keeps, per column, the first entry met that is
    not missing.  The groups are held in ascending key order. *)
Definition first_valid_merge (out new : entry) : entry :=
  match out with
  | Some _ => out
  | None => new
  end.

Fixpoint merge_rows (out new : list entry) : list entry :=
  match out, new with
  | o :: out', v :: new' => first_valid_merge o v :: merge_rows out' new'
  | _, _ => []
  end.

Fixpoint upsert (k : Key) (vals : list entry)
    (groups : list (Key * list entry)) : list (Key * list entry) :=
  match groups with
  | [] => [(k, vals)]
  | (k', out) :: rest =>
      match key_compare k k' with
      | Eq => (k', merge_rows out vals) :: rest
      | Lt => (k, vals) :: groups
      | Gt => (k', out) :: upsert k vals rest
      end
  end.

Definition group_first (cols : list string) (table : list FrameRow)
  : list (Key * list entry) :=
  fold_left
    (fun groups r => upsert (row_key r) (map (fun c => column c r) cols) groups)
    table [].

(** [df.groupby([...]).agg(agg_dict).reset_index(drop=True)]: one list of
    entries per group, aligned with [agg_columns]. *)
Definition create_play_level_dataset (df : FrameTable) : list (list entry) :=
  map snd (group_first (agg_columns (columns df)) (rows df)).

End Features.

(** ** Notions the statements about the features are phrased with *)

Module FeaturesSpec.
Import Features.
Local Open Scope Q_scope.
Local Open Scope string_scope.

(** Two entries agree: both missing, or equal as rationals. *)
Definition cell_eq (c c' : cell) : Prop :=
  match c, c' with
  | Some v, Some v' => v == v'
  | None, None => True
  | _, _ => False
  end.

(** The rows of the group [k], in table order. *)
Definition rows_of (k : Key) (df : list Row) : list Row :=
  filter (fun r => key_eqb (key_of_row r) k) df.

(** The trailing window that ends at row [i] and holds [window] rows, cut at
    the start of the group: rows [i + 1 - window] to [i]. *)
Definition trailing_window (window i : nat) (xs : list cell) : list cell :=
  skipn (S i - window) (firstn (S i) xs).

(** The entries that are not missing. *)
Fixpoint valid (l : list cell) : list Q :=
  match l with
  | [] => []
  | Some v :: t => v :: valid t
  | None :: t => valid t
  end.

Definition Qsum (l : list Q) : Q := fold_right Qplus 0 l.

Definition mean_of (l : list Q) : cell :=
  match l with
  | [] => None
  | _ => Some (Qsum l / inject_Z (Z.of_nat (List.length l)))
  end.

(** The mean of the entries that are not missing; missing when all are. *)
Definition nan_mean (l : list cell) : cell := mean_of (valid l).

(** The arithmetic mean of all the entries, of which a missing one makes the
    mean missing ("any arithmetic on a NaN input yields NaN"). *)
Definition arithmetic_mean (l : list cell) : cell :=
  if forallb (fun c => match c with Some _ => true | None => false end) l
  then mean_of (valid l)
  else None.

(** The greatest frame_id of a group. *)
Definition max_frame (g : list Row) : Z :=
  match g with
  | [] => 0%Z
  | r :: t => series_max (frame_id r) (map frame_id t)
  end.

(** The column [out] carries, on every row of the group [g], the value that
    [col] has on the rows of [g] at the group's greatest frame_id. *)
Definition replicates_value_at_max_frame (col : Row -> cell) (g : list Row)
    (out : list cell) : Prop :=
  List.length out = List.length g /\
  forall r,
    In r g ->
    (forall r', In r' g -> (frame_id r' <= frame_id r)%Z) ->
    forall i, (i < List.length g)%nat -> nth i out None = col r.

(** The last row of the group, in table order, is its only row at the
    greatest frame_id. *)
Definition throw_row_last (g : list Row) : Prop :=
  exists g' l, g = (g' ++ [l])%list /\
               forall r, In r g' -> (frame_id r < frame_id l)%Z.

(** The frame ids of a group read in table order never go down. *)
Definition nondecreasing_frames (g : list Row) : Prop :=
  StronglySorted (fun r r' => (frame_id r <= frame_id r')%Z) g.

(** The rolling state [st] holds the count and the sum of the entries of
    the window [win] that are not missing. *)
Definition tracks (st : RollState) (win : list cell) : Prop :=
  nobs st = List.length (valid win) /\ sum_x st == Qsum (valid win).

(** The frame ids of a group read in table order go up, strictly. *)
Definition ascending_frames (g : list Row) : Prop :=
  StronglySorted (fun r r' => (frame_id r < frame_id r')%Z) g.

(** A group of two frames stored in descending frame order, and one stored
    in ascending order. *)
Definition unsorted_group : list Row :=
  [ mkRow 1 1 7 2 (Some 7) (Some 2) (Some 4);
    mkRow 1 1 7 1 (Some 3) (Some 1) (Some 5) ].

Definition sorted_group : list Row :=
  [ mkRow 1 1 7 1 (Some 3) (Some 1) (Some 5);
    mkRow 1 1 7 2 (Some 7) (Some 2) (Some 4);
    mkRow 1 1 7 3 (Some 8) (Some 0) (Some 3) ].

(** *** The play-level aggregation *)

Definition Key_eq_dec (k k' : Key) : {k = k'} + {k <> k'}.
Proof. repeat decide equality. Defined.

(** The distinct (game_id, play_id, nfl_id) triples of a table. *)
Definition distinct_keys (table : list FrameRow) : list Key :=
  nodup Key_eq_dec (map row_key table).

(** The rows of the table in the group [k], in table order. *)
Definition frame_rows_of (k : Key) (table : list FrameRow) : list FrameRow :=
  filter (fun r => key_eqb (row_key r) k) table.

(** The entry of the first row. *)
Definition first_value (l : list entry) : entry := hd None l.

(** The first entry that is not missing. *)
Fixpoint first_valid (l : list entry) : entry :=
  match l with
  | [] => None
  | Some v :: _ => Some v
  | None :: t => first_valid t
  end.

Definition key_lt (k k' : Key) : Prop := key_compare k k' = Lt.

Definition lookup (k : Key) (groups : list (Key * list entry))
  : option (list entry) :=
  option_map snd (find (fun g => key_eqb (fst g) k) groups).

(** The groups are held in ascending key order. *)
Definition ascending_keys (groups : list (Key * list entry)) : Prop :=
  StronglySorted (fun x y => key_lt (fst x) (fst y)) groups.

(** What the pass has gathered for the group [k]: nothing when the table
    has no row of the group. *)
Definition summary (cols : list string) (table : list FrameRow) (k : Key)
  : option (list entry) :=
  match frame_rows_of k table with
  | [] => None
  | g => Some (map (fun c => first_valid (map (column c) g)) cols)
  end.

(** A player's two frames, whose speed at throw is missing on the first. *)
Definition gap_table : FrameTable :=
  mkFrameTable ["game_id"; "play_id"; "nfl_id"; "speed_at_throw"]
    [ mkFrameRow (1, 1, 7)%Z (fun _ => None);
      mkFrameRow (1, 1, 7)%Z (fun _ => Some (Num 7)) ].

End FeaturesSpec.

(** ** Further notions for the separation finder *)

(** [l] is [l'] with some elements left out, the others in their order. *)
Inductive Subseq {A : Type} : list A -> list A -> Prop :=
| Subseq_nil : Subseq [] []
| Subseq_skip : forall a l l', Subseq l l' -> Subseq l (a :: l')
| Subseq_keep : forall a l l', Subseq l l' -> Subseq (a :: l) (a :: l').

Module SeparationNotions.
Import Separation SeparationSpec.
Local Open Scope R_scope.
Local Open Scope string_scope.

(** [k] is the least frame_id of the play. *)
Definition is_min_frame_id (k : Z) (play_data : list Frame) : Prop :=
  (exists f, In f play_data /\ frame_id f = k) /\
  (forall f, In f play_data -> (k <= frame_id f)%Z).

(** The row of the supplementary table a record was made for. *)
Definition play_of (r : SeparationRecord) : Z * Z * string :=
  (res_game_id r, res_play_id r, route r).



End SeparationNotions.

(** ** The other columns of the feature engineering *)

Module FeaturesMore.
Import Features FeaturesSpec.
Local Open Scope Q_scope.
Local Open Scope string_scope.

(** *** Reductions of a group, and their broadcast

    [transform('mean')], [transform('max')], [transform('min')] and
    [transform('first')] reduce the column of a group to one entry, leaving
    missing entries out, and write it on every row of the group. *)

Definition broadcast {A B : Type} (agg : list A -> B) (g : list A) : list B :=
  map (fun _ => agg g) g.

Definition qmin (v w : Q) : Q := if Qlt_le_dec w v then w else v.
Definition qmax (v w : Q) : Q := if Qlt_le_dec v w then w else v.

Definition mean_skipna (l : list cell) : cell :=
  match valid l with
  | [] => None
  | vs => Some (Qsum vs / inject_Z (Z.of_nat (List.length vs)))
  end.

Definition min_skipna (l : list cell) : cell :=
  match valid l with
  | [] => None
  | v :: vs => Some (fold_left qmin vs v)
  end.

Definition max_skipna (l : list cell) : cell :=
  match valid l with
  | [] => None
  | v :: vs => Some (fold_left qmax vs v)
  end.

Definition first_skipna (l : list cell) : cell :=
  match valid l with
  | [] => None
  | v :: _ => Some v
  end.

(** *** [engineer_temporal_features], lines 254-282

    The columns that follow [closing_rate] and [closing_rate_smooth], read
    on the result [t] of the lines above. *)

Definition keys_of (t : Temporal) : list Key := map key_of_row (sorted_df t).

(** [grouped['closing_rate'].transform('mean')]. *)
Definition avg_closing_rate (t : Temporal) : list cell :=
  transform (broadcast mean_skipna) None (keys_of t) (closing_rate t).

(** [(df['closing_rate_smooth'] > threshold).astype(int)], as a flag. *)
Definition reacting (threshold : Q) (t : Temporal) : list bool :=
  map (fun c => gt_cell c threshold) (closing_rate_smooth t).

(** [np.where(df['reacting'] == 1, df['frame_id'], np.nan)]. *)
Definition reaction_frame (threshold : Q) (t : Temporal) : list (option Z) :=
  map (fun p : bool * Row =>
         if fst p then Some (frame_id (snd p)) else None)
    (combine (reacting threshold t) (sorted_df t)).

(** [x.min()] on a column of frame ids with missing entries. *)
Fixpoint min_frame_skipna (l : list (option Z)) : option Z :=
  match l with
  | [] => None
  | None :: t => min_frame_skipna t
  | Some f :: t =>
      match min_frame_skipna t with
      | None => Some f
      | Some f' => Some (Z.min f f')
      end
  end.

(** [grouped['reaction_frame'].transform(lambda x: x.min())]. *)
Definition reaction_frame_min (threshold : Q) (t : Temporal)
  : list (option Z) :=
  transform (broadcast min_frame_skipna) None (keys_of t)
    (reaction_frame threshold t).

(** [grouped['dist_to_ball_landing'].transform('first')] and
    [.transform('min')]. *)
Definition initial_dist_to_ball (t : Temporal) : list cell :=
  transform (broadcast first_skipna) None (keys_of t)
    (map dist_to_ball_landing (sorted_df t)).

Definition min_dist_to_ball (t : Temporal) : list cell :=
  transform (broadcast min_skipna) None (keys_of t)
    (map dist_to_ball_landing (sorted_df t)).

(** *** [engineer_kinematic_features], lines 128-148

    The columns written for the metrics 'mean', 'max' and 'min' of the
    configuration; each exists when its metric is listed.  There is no
    'min' branch for the acceleration. *)

Definition avg_speed (df : list Row) : list cell :=
  transform (broadcast mean_skipna) None (map key_of_row df) (map s df).

Definition max_speed (df : list Row) : list cell :=
  transform (broadcast max_skipna) None (map key_of_row df) (map s df).

Definition min_speed (df : list Row) : list cell :=
  transform (broadcast min_skipna) None (map key_of_row df) (map s df).

Definition avg_accel (df : list Row) : list cell :=
  transform (broadcast mean_skipna) None (map key_of_row df) (map a df).

Definition max_accel (df : list Row) : list cell :=
  transform (broadcast max_skipna) None (map key_of_row df) (map a df).

(** *** [engineer_directional_features], lines 194-218

    [angle_to_ball] is the column that [calculate_angle_to_target] returns;
    it is an input here, with the columns [dir] and [o] and the group keys
    of the rows. *)

(** [c < v]: false on a missing entry. *)
Definition lt_cell (c : cell) (v : Q) : bool :=
  match c with
  | Some w => if Qlt_le_dec w v then true else false
  | None => false
  end.

(** ['mean'] on a column of integers, which has no missing entry. *)
Definition mean_int (l : list Z) : cell :=
  match l with
  | [] => None
  | _ => Some (inject_Z (fold_right Z.add 0%Z l)
               / inject_Z (Z.of_nat (List.length l)))
  end.

Record Directional : Type := mkDirectional {
  dir_alignment : list cell;
  orient_alignment : list cell;
  body_control : list cell;
  avg_dir_alignment : list cell;
  avg_orient_alignment : list cell;
  avg_body_control : list cell;
  good_dir_alignment : list Z;
  pct_good_dir_alignment : list cell
}.

Definition engineer_directional_features (keys : list Key)
    (dir o angle_to_ball : list cell) (alignment_threshold : Q)
  : Directional :=
  let dir_alignment := calculate_angular_difference dir angle_to_ball in
  let orient_alignment := calculate_angular_difference o angle_to_ball in
  let body_control := calculate_angular_difference dir o in
  let good_dir_alignment :=
    map (fun c => if lt_cell c alignment_threshold then 1%Z else 0%Z)
      dir_alignment in
  mkDirectional dir_alignment orient_alignment body_control
    (transform (broadcast mean_skipna) None keys dir_alignment)
    (transform (broadcast mean_skipna) None keys orient_alignment)
    (transform (broadcast mean_skipna) None keys body_control)
    good_dir_alignment
    (transform (broadcast mean_int) None keys good_dir_alignment).

(** *** [engineer_spatial_features], lines 88-96

    on one row; [field_width] and [hash_width] are read from the
    configuration.  [dist_to_ball_landing] (line 82) is a square root and
    stays an input column of [Row]. *)

Definition le_cell (c : cell) (v : Q) : bool :=
  match c with
  | Some w => if Qlt_le_dec v w then false else true
  | None => false
  end.

Record Spatial : Type := mkSpatial {
  dist_from_los : cell;
  dist_from_center : cell;
  near_hash : Z;
  near_sideline : Z
}.

Definition engineer_spatial_features (x y absolute_yardline_number : cell)
    (field_width hash_width : Q) : Spatial :=
  let dist_from_center := abs_cell (sub_cell y (Some (field_width / 2))) in
  mkSpatial
    (abs_cell (sub_cell x absolute_yardline_number))
    dist_from_center
    (if le_cell dist_from_center (hash_width / 2) then 1%Z else 0%Z)
    (if lt_cell y 10 || gt_cell y (field_width - 10) then 1%Z else 0%Z).

(** *** Notions for the statements *)

(** The column [col] of a group, kept on the rows at the group's greatest
    frame_id and missing on the others. *)
Definition at_max_frame (col : Row -> cell) (g : list Row) : list cell :=
  map (fun r => if (frame_id r =? max_frame g)%Z then col r else None) g.

(** The number of entries of a column that are below [v]. *)
Definition count_below (v : Q) (l : list cell) : nat :=
  List.length (filter (fun c => lt_cell c v) l).

(** The frame of the first row, in table order, whose smoothed closing rate
    is above the threshold. *)
Definition first_reacting (threshold : Q) (g : list Row) (smooth : list cell)
  : option Z :=
  option_map (fun p : Row * cell => frame_id (fst p))
    (find (fun p => gt_cell (snd p) threshold) (combine g smooth)).

(** Entry by entry, two columns agree. *)
Definition column_eq (c c' : list cell) : Prop := Forall2 cell_eq c c'.

(** Two players' frames, stored player by player and stored frame by
    frame. *)
Definition by_player_table : FrameTable :=
  mkFrameTable ["game_id"; "play_id"; "nfl_id"; "max_speed"]
    [ mkFrameRow (1, 1, 8)%Z (fun _ => None);
      mkFrameRow (1, 1, 8)%Z (fun _ => Some (Num 6));
      mkFrameRow (1, 1, 7)%Z (fun _ => Some (Num 9));
      mkFrameRow (1, 1, 7)%Z (fun _ => Some (Num 9)) ].

Definition by_frame_table : FrameTable :=
  mkFrameTable ["game_id"; "play_id"; "nfl_id"; "max_speed"]
    [ mkFrameRow (1, 1, 8)%Z (fun _ => None);
      mkFrameRow (1, 1, 7)%Z (fun _ => Some (Num 9));
      mkFrameRow (1, 1, 8)%Z (fun _ => Some (Num 6));
      mkFrameRow (1, 1, 7)%Z (fun _ => Some (Num 9)) ].

End FeaturesMore.

(** ** [engineer_post_throw_features], lines 289-336 *)

Module PostThrow.
Local Open Scope R_scope.
Local Open Scope string_scope.

(** A float64 entry over the reals, for the columns that go through a
    square root: a number, or missing (NaN). *)
Definition rcell : Type := option R.

(** [calculate_distance] (lines 31-33), on one row; arithmetic on a missing
    entry gives a missing entry. *)
Definition calculate_distance (x1 y1 x2 y2 : rcell) : rcell :=
  match x1, y1, x2, y2 with
  | Some x1, Some y1, Some x2, Some y2 =>
      Some (sqrt ((x2 - x1) ^ 2 + (y2 - y1) ^ 2))
  | _, _, _, _ => None
  end.

Definition sub_rcell (c c' : rcell) : rcell :=
  match c, c' with
  | Some v, Some v' => Some (v - v')
  | _, _ => None
  end.

(** The entries of a row by column name; a column the table does not have
    is not read. *)
Definition PostRow : Type := string -> rcell.

Record PostFeatures : Type := mkPostFeatures {
  post_throw_distance : rcell;
  final_proximity_to_ball : rcell;
  initial_post_proximity_to_ball : rcell;
  convergence_distance : rcell
}.

(** The result: the table as it was (the [else] branch, which only logs a
    warning), the table with the four columns added, or the [KeyError] of
    [df[c]] for a column [c] the table does not have. *)
Inductive PostResult : Type :=
| Unchanged
| Added (features : list PostFeatures)
| KeyError (c : string).

Definition has_column (df_columns : list string) (c : string) : bool :=
  existsb (String.eqb c) df_columns.

(** The columns read by lines 312-327, in the order in which they are
    read. *)
Definition columns_read : list string :=
  ["x_post_first"; "y_post_first"; "x_post_last"; "y_post_last";
   "ball_land_x"; "ball_land_y"].

Definition post_features_of_row (r : PostRow) : PostFeatures :=
  let post_throw_distance :=
    calculate_distance (r "x_post_first") (r "y_post_first")
      (r "x_post_last") (r "y_post_last") in
  let final_proximity_to_ball :=
    calculate_distance (r "x_post_last") (r "y_post_last")
      (r "ball_land_x") (r "ball_land_y") in
  let initial_post_proximity_to_ball :=
    calculate_distance (r "x_post_first") (r "y_post_first")
      (r "ball_land_x") (r "ball_land_y") in
  mkPostFeatures post_throw_distance final_proximity_to_ball
    initial_post_proximity_to_ball
    (sub_rcell initial_post_proximity_to_ball final_proximity_to_ball).

Definition engineer_post_throw_features (df_columns : list string)
    (df : list PostRow) : PostResult :=
  if has_column df_columns "x_post_first"
     && has_column df_columns "x_post_last"
  then
    match find (fun c => negb (has_column df_columns c)) columns_read with
    | Some c => KeyError c
    | None => Added (map post_features_of_row df)
    end
  else Unchanged.

(** A defender who runs from (0, 0) to (3, 4) while the ball lands at
    (3, 8). *)
Definition post_row : PostRow :=
  fun c =>
    if String.eqb c "x_post_first" then Some 0
    else if String.eqb c "y_post_first" then Some 0
    else if String.eqb c "x_post_last" then Some 3
    else if String.eqb c "y_post_last" then Some 4
    else if String.eqb c "ball_land_x" then Some 3
    else if String.eqb c "ball_land_y" then Some 8
    else None.

End PostThrow.

(** * Part II: lemmas and theorems *)

(** ** Facts about the primitives *)

Section PrimitiveFacts.
Context {A : Type}.

Lemma max_from_In (key : A -> R) (l : list A) :
  forall best, In (max_from key best l) (best :: l).
Proof.
  induction l as [|a t IH]; intros best; simpl.
  - now left.
  - destruct (Rlt_dec (key best) (key a)).
    + right. apply IH.
    + destruct (IH best) as [H|H]; [now left | now right; right].
Qed.

Lemma max_from_ge_best (key : A -> R) (l : list A) :
  forall best, (key best <= key (max_from key best l))%R.
Proof.
  induction l as [|a t IH]; intros best; simpl.
  - lra.
  - destruct (Rlt_dec (key best) (key a)) as [Hlt|Hge].
    + specialize (IH a). lra.
    + apply IH.
Qed.

Lemma max_from_ge (key : A -> R) (l : list A) :
  forall best a, In a (best :: l) -> (key a <= key (max_from key best l))%R.
Proof.
  induction l as [|b t IH]; intros best a Hin.
  - destruct Hin as [<-|[]]. simpl. lra.
  - simpl. destruct Hin as [<-|[<-|Hin]].
    + destruct (Rlt_dec (key best) (key b)) as [Hlt|Hge].
      * pose proof (max_from_ge_best key t b). lra.
      * apply max_from_ge_best.
    + destruct (Rlt_dec (key best) (key b)) as [Hlt|Hge].
      * apply max_from_ge_best.
      * pose proof (max_from_ge_best key t best). lra.
    + destruct (Rlt_dec (key best) (key b)); apply IH; now right.
Qed.

Lemma min_from_In (key : A -> R) (l : list A) :
  forall best, In (min_from key best l) (best :: l).
Proof.
  induction l as [|a t IH]; intros best; simpl.
  - now left.
  - destruct (Rlt_dec (key a) (key best)).
    + right. apply IH.
    + destruct (IH best) as [H|H]; [now left | now right; right].
Qed.

Lemma min_from_le_best (key : A -> R) (l : list A) :
  forall best, (key (min_from key best l) <= key best)%R.
Proof.
  induction l as [|a t IH]; intros best; simpl.
  - lra.
  - destruct (Rlt_dec (key a) (key best)) as [Hlt|Hge].
    + specialize (IH a). lra.
    + apply IH.
Qed.

Lemma min_from_le (key : A -> R) (l : list A) :
  forall best a, In a (best :: l) -> (key (min_from key best l) <= key a)%R.
Proof.
  induction l as [|b t IH]; intros best a Hin.
  - destruct Hin as [<-|[]]. simpl. lra.
  - simpl. destruct Hin as [<-|[<-|Hin]].
    + destruct (Rlt_dec (key b) (key best)) as [Hlt|Hge].
      * pose proof (min_from_le_best key t b). lra.
      * apply min_from_le_best.
    + destruct (Rlt_dec (key b) (key best)) as [Hlt|Hge].
      * apply min_from_le_best.
      * pose proof (min_from_le_best key t best). lra.
    + destruct (Rlt_dec (key b) (key best)); apply IH; now right.
Qed.

End PrimitiveFacts.

Lemma unique_In (l : list Z) (a : Z) : In a (unique l) <-> In a l.
Proof.
  induction l as [|b t IH]; simpl; [tauto|].
  rewrite filter_In, IH, negb_true_iff, Z.eqb_neq.
  destruct (Z.eq_dec b a) as [->|Hne]; [tauto|].
  split; [tauto|]. intros [H|H]; [tauto|]. right. split; congruence.
Qed.

Lemma series_max_ge (l : list Z) :
  forall a, (a <= series_max a l)%Z /\
            (forall b, In b l -> (b <= series_max a l)%Z).
Proof.
  unfold series_max. induction l as [|c t IH]; intros a; simpl.
  - split; [lia | tauto].
  - destruct (IH (Z.max a c)) as [H1 H2]. split; [lia|].
    intros b [<-|Hb]; [lia | now apply H2].
Qed.

Lemma series_max_In (l : list Z) : forall a, In (series_max a l) (a :: l).
Proof.
  unfold series_max. induction l as [|c t IH]; intros a; simpl.
  - now left.
  - destruct (IH (Z.max a c)) as [H|H].
    + rewrite <- H. destruct (Z.max_spec a c) as [[_ ->]|[_ ->]]; tauto.
    + tauto.
Qed.

Lemma series_min_le (l : list Z) :
  forall a, (series_min a l <= a)%Z /\
            (forall b, In b l -> (series_min a l <= b)%Z).
Proof.
  unfold series_min. induction l as [|c t IH]; intros a; simpl.
  - split; [lia | tauto].
  - destruct (IH (Z.min a c)) as [H1 H2]. split; [lia|].
    intros b [<-|Hb]; [lia | now apply H2].
Qed.

(** ** The insertion sort *)

Section SortFacts.
Context {A : Type}.
Variable ltb : A -> A -> bool.

Hypothesis ltb_asym : forall a b, ltb a b = true -> ltb b a = false.
Hypothesis not_after_trans :
  forall a b c, not_after ltb a b -> not_after ltb b c -> not_after ltb a c.

Lemma insert_by_perm (a : A) (l : list A) :
  Permutation (insert_by ltb a l) (a :: l).
Proof.
  induction l as [|b t IH]; simpl; [reflexivity|].
  destruct (ltb b a); [|reflexivity].
  rewrite IH. apply perm_swap.
Qed.

Lemma sort_values_perm (l : list A) : Permutation (sort_values ltb l) l.
Proof.
  induction l as [|a t IH]; simpl; [reflexivity|].
  rewrite insert_by_perm. now constructor.
Qed.

Lemma sort_values_length (l : list A) :
  List.length (sort_values ltb l) = List.length l.
Proof. apply Permutation_length, sort_values_perm. Qed.

Lemma insert_by_sorted (a : A) (l : list A) :
  StronglySorted (not_after ltb) l ->
  StronglySorted (not_after ltb) (insert_by ltb a l).
Proof.
  induction 1 as [|b t Hs IH Hall]; simpl.
  - repeat constructor.
  - destruct (ltb b a) eqn:E.
    + constructor; [exact IH|].
      apply Forall_forall. intros c Hc.
      apply (Permutation_in _ (insert_by_perm a t)) in Hc.
      destruct Hc as [<-|Hc].
      * now apply ltb_asym.
      * rewrite Forall_forall in Hall. now apply Hall.
    + constructor; [now constructor|].
      constructor; [exact E|].
      apply Forall_forall. intros c Hc. rewrite Forall_forall in Hall.
      apply not_after_trans with b; [exact E | now apply Hall].
Qed.

Lemma sort_values_sorted (l : list A) :
  StronglySorted (not_after ltb) (sort_values ltb l).
Proof.
  induction l as [|a t IH]; simpl; [constructor|].
  now apply insert_by_sorted.
Qed.

Lemma hd_insert_by (a : A) (l : list A) :
  hd_error (insert_by ltb a l) =
  match hd_error l with
  | None => Some a
  | Some b => if ltb b a then Some b else Some a
  end.
Proof. destruct l as [|b t]; simpl; [reflexivity|]. now destruct (ltb b a). Qed.

Lemma hd_sort_values (l : list A) :
  hd_error (sort_values ltb l) = first_by ltb l.
Proof.
  induction l as [|a t IH]; simpl; [reflexivity|].
  now rewrite hd_insert_by, IH.
Qed.

Lemma last_error_cons (a : A) (l : list A) :
  last_error (a :: l) =
  match last_error l with
  | None => Some a
  | Some b => Some b
  end.
Proof.
  destruct l as [|b t]; [reflexivity|].
  unfold last_error. f_equal.
  revert b. induction t as [|c t IH]; intros b; [reflexivity|].
  change (last (b :: c :: t) a) with (last (c :: t) a).
  change (last (c :: t) b) with (match t with [] => c | _ => last t b end).
  rewrite IH. destruct t as [|e t']; [reflexivity|].
  clear IH. revert e. induction t' as [|e' t' IH]; intros e; [reflexivity|].
  change (last (e :: e' :: t') c) with (last (e' :: t') c).
  change (last (e :: e' :: t') b) with (last (e' :: t') b).
  apply IH.
Qed.

Lemma last_error_In (l : list A) (b : A) : last_error l = Some b -> In b l.
Proof.
  induction l as [|a t IH]; [discriminate|].
  rewrite last_error_cons. destruct (last_error t) as [c|] eqn:E.
  - intros [= <-]. right. now apply IH.
  - intros [= <-]. now left.
Qed.

Lemma last_insert_by (a : A) (l : list A) :
  StronglySorted (not_after ltb) l ->
  last_error (insert_by ltb a l) =
  match last_error l with
  | None => Some a
  | Some b => if ltb b a then Some a else Some b
  end.
Proof.
  induction 1 as [|c t Hs IH Hall].
  - reflexivity.
  - cbn [insert_by]. destruct (ltb c a) eqn:E.
    + rewrite !last_error_cons, IH.
      destruct (last_error t) as [b|]; [|now rewrite E].
      now destruct (ltb b a).
    + rewrite (last_error_cons a).
      destruct (last_error (c :: t)) as [b|] eqn:El; [|reflexivity].
      assert (Hb : not_after ltb a b).
      { apply last_error_In in El. destruct El as [<-|Hin]; [exact E|].
        rewrite Forall_forall in Hall.
        apply not_after_trans with c; [exact E | now apply Hall]. }
      unfold not_after in Hb. now rewrite Hb.
Qed.

Lemma last_sort_values (l : list A) :
  last_error (sort_values ltb l) = last_by ltb l.
Proof.
  induction l as [|a t IH]; simpl; [reflexivity|].
  rewrite last_insert_by by apply sort_values_sorted. now rewrite IH.
Qed.

Lemma first_by_None (l : list A) : first_by ltb l = None -> l = [].
Proof.
  destruct l as [|a t]; [reflexivity|]. simpl.
  destruct (first_by ltb t); [destruct (ltb a0 a)|]; discriminate.
Qed.

Lemma last_by_None (l : list A) : last_by ltb l = None -> l = [].
Proof.
  destruct l as [|a t]; [reflexivity|]. simpl.
  destruct (last_by ltb t); [destruct (ltb a0 a)|]; discriminate.
Qed.

Lemma first_by_In (l : list A) (f : A) : first_by ltb l = Some f -> In f l.
Proof.
  revert f. induction l as [|a t IH]; intros f; simpl; [discriminate|].
  destruct (first_by ltb t) as [b|].
  - destruct (ltb b a); intros [= <-]; [right; now apply IH | now left].
  - intros [= <-]. now left.
Qed.

Lemma not_after_refl (a : A) : not_after ltb a a.
Proof.
  unfold not_after. destruct (ltb a a) eqn:E; [|reflexivity].
  now rewrite (ltb_asym _ _ E) in E.
Qed.

Lemma first_by_least (l : list A) (f : A) :
  first_by ltb l = Some f -> forall b, In b l -> not_after ltb f b.
Proof.
  revert f. induction l as [|a t IH]; intros f; simpl; [discriminate|].
  destruct (first_by ltb t) as [c|] eqn:E.
  - destruct (ltb c a) eqn:Eca; intros [= <-] b [Hab|Hb]; subst.
    + now apply ltb_asym.
    + now apply IH.
    + apply not_after_refl.
    + apply not_after_trans with c; [exact Eca | now apply IH].
  - intros [= <-] b [Hab|Hb]; subst.
    + apply not_after_refl.
    + apply first_by_None in E. subst. contradiction.
Qed.

Lemma last_by_In (l : list A) (f : A) : last_by ltb l = Some f -> In f l.
Proof.
  revert f. induction l as [|a t IH]; intros f; simpl; [discriminate|].
  destruct (last_by ltb t) as [b|].
  - destruct (ltb b a); intros [= <-]; [now left | right; now apply IH].
  - intros [= <-]. now left.
Qed.

Lemma last_by_greatest (l : list A) (f : A) :
  last_by ltb l = Some f -> forall b, In b l -> not_after ltb b f.
Proof.
  revert f. induction l as [|a t IH]; intros f; simpl; [discriminate|].
  destruct (last_by ltb t) as [c|] eqn:E.
  - destruct (ltb c a) eqn:Eca; intros [= <-] b [Hab|Hb]; subst.
    + apply not_after_refl.
    + apply not_after_trans with c; [now apply IH | now apply ltb_asym].
    + exact Eca.
    + now apply IH.
  - intros [= <-] b [Hab|Hb]; subst.
    + apply not_after_refl.
    + apply last_by_None in E. subst. contradiction.
Qed.

End SortFacts.

(** ** The separation finder *)

Module SeparationTheory.
Import Separation SeparationSpec.
Local Open Scope R_scope.
Local Open Scope string_scope.
Local Open Scope exc_scope.

Lemma frame_ltb_asym (a b : Frame) :
  frame_ltb a b = true -> frame_ltb b a = false.
Proof. unfold frame_ltb. rewrite Z.ltb_lt, Z.ltb_ge. lia. Qed.

Lemma frame_not_after_trans (a b c : Frame) :
  not_after frame_ltb a b -> not_after frame_ltb b c ->
  not_after frame_ltb a c.
Proof. unfold not_after, frame_ltb. rewrite !Z.ltb_ge. lia. Qed.

Lemma frame_not_after (a b : Frame) :
  not_after frame_ltb a b <-> (frame_id a <= frame_id b)%Z.
Proof. unfold not_after, frame_ltb. now rewrite Z.ltb_ge. Qed.

Lemma distance_nonneg (x1 y1 x2 y2 : R) : 0 <= distance x1 y1 x2 y2.
Proof. apply sqrt_pos. Qed.

Lemma distance_same (a b : R) : distance a b a b = 0.
Proof.
  unfold distance.
  replace ((a - a) ^ 2 + (b - b) ^ 2) with 0 by ring. apply sqrt_0.
Qed.

(** A list with exactly one element is its own first and last. *)
Lemma length_lt_2 {A : Type} (l : list A) :
  (List.length l <? 2)%nat = true -> l = [] \/ exists a, l = [a].
Proof.
  rewrite Nat.ltb_lt. destruct l as [|a [|b t]]; simpl; intros H.
  - now left.
  - right. now exists a.
  - lia.
Qed.

(** *** The displacement loop *)

Lemma displacement_of_candidate (offense : list Frame) (id : Z) :
  displacement_of offense id = Ok (candidate offense id).
Proof.
  unfold displacement_of, candidate, frames_of.
  rewrite sort_values_length.
  destruct (List.length (filter (has_id id) offense) <? 2)%nat eqn:Elen;
    [reflexivity|].
  rewrite <- (hd_sort_values frame_ltb), <- (last_sort_values frame_ltb)
    by (apply frame_ltb_asym || apply frame_not_after_trans).
  pose proof (sort_values_length frame_ltb (filter (has_id id) offense)) as Hl.
  destruct (sort_values frame_ltb (filter (has_id id) offense)) as [|a t].
  - simpl in Hl. rewrite <- Hl in Elen. discriminate.
  - cbn [iloc0 iloc_last hd_error last_error bind].
    now destruct (is_receiver_position (player_position a)).
Qed.

Lemma displacements_loop_spec (offense : list Frame) (ids : list Z) :
  forall acc,
    displacements_loop offense ids acc =
    Ok (acc ++ flat_map (fun id => match candidate offense id with
                                   | Some c => [c]
                                   | None => []
                                   end) ids)%list.
Proof.
  induction ids as [|id rest IH]; intros acc; simpl.
  - now rewrite app_nil_r.
  - rewrite displacement_of_candidate. cbn [bind]. rewrite IH.
    destruct (candidate offense id); [now rewrite <- app_assoc | reflexivity].
Qed.

Lemma select_target_spec (play_data : list Frame) :
  select_target play_data =
  Ok (match candidates (offensive_players play_data) with
      | [] => None
      | c :: cs => Some (max_from displacement c cs)
      end).
Proof.
  unfold select_target, candidates.
  destruct (offensive_players play_data) as [|f fs] eqn:Eoff; [reflexivity|].
  cbn [List.length Nat.eqb]. rewrite displacements_loop_spec.
  cbn [bind app].
  destruct (flat_map _ _) as [|c cs]; reflexivity.
Qed.

Lemma candidate_inv (offense : list Frame) (id : Z) (c : Candidate) :
  candidate offense id = Some c ->
  cand_nfl_id c = id /\
  (2 <= List.length (frames_of offense id))%nat /\
  eligible offense id /\
  straight_line_displacement (frames_of offense id) = Some (displacement c).
Proof.
  unfold candidate, eligible, straight_line_displacement.
  destruct (List.length (frames_of offense id) <? 2)%nat eqn:Elen;
    [discriminate|].
  apply Nat.ltb_ge in Elen.
  destruct (first_by frame_ltb (frames_of offense id)) as [a|]; [|discriminate].
  destruct (last_by frame_ltb (frames_of offense id)) as [b|]; [|discriminate].
  destruct (is_receiver_position (player_position a)) eqn:Epos; [|discriminate].
  intros [= <-]. simpl. repeat split; try assumption. now exists a.
Qed.

Lemma candidates_In (offense : list Frame) (c : Candidate) :
  In c (candidates offense) <->
  exists id, In id (map nfl_id offense) /\ candidate offense id = Some c.
Proof.
  unfold candidates. rewrite in_flat_map. split.
  - intros (id & Hid & Hc). exists id. rewrite unique_In in Hid.
    split; [exact Hid|]. destruct (candidate offense id); [|contradiction].
    destruct Hc as [->|[]]. reflexivity.
  - intros (id & Hid & Hc). exists id. rewrite unique_In.
    split; [exact Hid|]. rewrite Hc. now left.
Qed.

Lemma frames_of_nonempty_id (offense : list Frame) (id : Z) (f : Frame) :
  In f (frames_of offense id) -> In id (map nfl_id offense).
Proof.
  unfold frames_of. rewrite filter_In. unfold has_id. rewrite Z.eqb_eq.
  intros [Hin <-]. now apply in_map.
Qed.

(** A player on one row has displacement 0; a player on two or more rows
    and eligible is a candidate with the displacement of the statement. *)
Lemma eligible_displacement (offense : list Frame) (id : Z) (d : R) :
  eligible offense id ->
  straight_line_displacement (frames_of offense id) = Some d ->
  d = 0 \/ exists c, In c (candidates offense) /\ displacement c = d.
Proof.
  intros (f & Hf & Hpos) Hd.
  destruct (List.length (frames_of offense id) <? 2)%nat eqn:Elen.
  - left. destruct (length_lt_2 _ Elen) as [Hnil|[a Ha]].
    + rewrite Hnil in Hf. discriminate.
    + unfold straight_line_displacement in Hd. rewrite Ha in Hd.
      simpl in Hd. injection Hd as <-. apply distance_same.
  - right. unfold straight_line_displacement in Hd. rewrite Hf in Hd.
    destruct (last_by frame_ltb (frames_of offense id)) as [b|] eqn:Eb;
      [|discriminate].
    injection Hd as <-.
    exists (mkCandidate id (distance (x f) (y f) (x b) (y b))
              (player_position f) (player_name f)).
    split; [|reflexivity].
    apply candidates_In. exists id. split.
    + apply frames_of_nonempty_id with f.
      eapply first_by_In. exact Hf.
    + unfold candidate. now rewrite Elen, Hf, Eb, Hpos.
Qed.

Lemma select_target_inv (play_data : list Frame) (t : Candidate) :
  select_target play_data = Ok (Some t) ->
  In t (candidates (offensive_players play_data)) /\
  forall c, In c (candidates (offensive_players play_data)) ->
            displacement c <= displacement t.
Proof.
  rewrite select_target_spec.
  destruct (candidates (offensive_players play_data)) as [|c cs];
    [discriminate|].
  intros [= <-]. split.
  - apply max_from_In.
  - intros c' Hc'. now apply max_from_ge.
Qed.

(** *** One play *)

Lemma receiver_snap_xy_spec (snap_frame : list Frame) (id : Z) :
  receiver_snap_xy snap_frame id =
  Ok (match filter (has_id id) snap_frame with
      | [] => None
      | s :: _ => Some (x s, y s)
      end).
Proof.
  unfold receiver_snap_xy.
  destruct (filter (has_id id) snap_frame); reflexivity.
Qed.

(** The play that is appended, and only that one. *)
Lemma process_play_emits (tracking_df : list Frame) (g pl : Z) (rt : string)
    (t : Candidate) (rcv d : Frame) (rest ds : list Frame) :
  let play_data := play_rows tracking_df g pl in
  select_target play_data = Ok (Some t) ->
  filter (has_id (cand_nfl_id t)) (throw_rows play_data) = rcv :: rest ->
  filter (is_side "Defense") (throw_rows play_data) = d :: ds ->
  process_play tracking_df (g, pl, rt) =
  Ok (Some (record_of g pl rt play_data t rcv d ds)).
Proof.
  intros play_data Ht Hr Hd. unfold process_play. fold play_data.
  destruct play_data as [|f0 fs] eqn:Epd; [discriminate Hr|].
  rewrite Ht. cbn [bind]. cbn [throw_rows] in Hr, Hd.
  rewrite Hr. cbn [List.length Nat.eqb iloc0 bind].
  rewrite receiver_snap_xy_spec. cbn [bind].
  rewrite Hd. cbn [List.length Nat.eqb idxmin bind]. reflexivity.
Qed.

Lemma process_play_inv (tracking_df : list Frame) (g pl : Z) (rt : string)
    (r : SeparationRecord) :
  process_play tracking_df (g, pl, rt) = Ok (Some r) ->
  let play_data := play_rows tracking_df g pl in
  exists t rcv rest d ds,
    select_target play_data = Ok (Some t) /\
    filter (has_id (cand_nfl_id t)) (throw_rows play_data) = rcv :: rest /\
    filter (is_side "Defense") (throw_rows play_data) = d :: ds /\
    r = record_of g pl rt play_data t rcv d ds.
Proof.
  intros H play_data. unfold process_play in H. fold play_data in H.
  destruct play_data as [|f0 fs] eqn:Epd; [discriminate|].
  rewrite select_target_spec in *. cbn [bind] in H.
  destruct (candidates (offensive_players (f0 :: fs))) as [|c cs];
    [discriminate|].
  set (t := max_from displacement c cs) in *.
  cbn [throw_rows].
  destruct (filter (has_id (cand_nfl_id t)) _) as [|rcv rest] eqn:Er;
    [discriminate|].
  cbn [List.length Nat.eqb iloc0 bind] in H.
  rewrite receiver_snap_xy_spec in H. cbn [bind] in H.
  destruct (filter (is_side "Defense") _) as [|d ds] eqn:Ed; [discriminate|].
  cbn [List.length Nat.eqb idxmin bind] in H.
  injection H as <-. exists t, rcv, rest, d, ds.
  repeat split; reflexivity || assumption.
Qed.

(** A play is either passed over or appended: no exception escapes. *)
Lemma process_play_total (tracking_df : list Frame) (p : Z * Z * string) :
  exists o, process_play tracking_df p = Ok o.
Proof.
  destruct p as [[g pl] rt]. unfold process_play.
  destruct (play_rows tracking_df g pl) as [|f0 fs]; [now eexists|].
  rewrite select_target_spec. cbn [bind].
  destruct (candidates _) as [|c cs]; [now eexists|].
  destruct (filter (has_id _) _) as [|rcv rest]; [now eexists|].
  cbn [List.length Nat.eqb iloc0 bind].
  rewrite receiver_snap_xy_spec. cbn [bind].
  destruct (filter (is_side "Defense") _) as [|d ds]; now eexists.
Qed.

(** *** The loop over the plays *)

Lemma plays_loop_spec (tracking_df : list Frame)
    (plays : list (Z * Z * string)) :
  forall results,
    plays_loop tracking_df plays results =
    Ok (results ++ flat_map (emitted tracking_df) plays)%list.
Proof.
  induction plays as [|p rest IH]; intros results; simpl.
  - now rewrite app_nil_r.
  - unfold emitted at 1.
    destruct (process_play_total tracking_df p) as [o ->]. cbn [bind].
    rewrite IH. destruct o; [now rewrite <- app_assoc | reflexivity].
Qed.

Lemma find_nearest_defender_spec (tracking_df : list Frame)
    (supp_df : list SuppRow) :
  find_nearest_defender tracking_df supp_df =
  Ok (flat_map (emitted tracking_df) (targeted_plays supp_df)).
Proof. unfold find_nearest_defender. now rewrite plays_loop_spec. Qed.

End SeparationTheory.

Module SeparationClaims.
Import Separation SeparationSpec SeparationTheory.
Local Open Scope R_scope.
Local Open Scope string_scope.
Local Open Scope exc_scope.

(** *** Evaluating distances on sample tables *)

Lemma distance_eq (x1 y1 x2 y2 d : R) :
  0 <= d -> d * d = (x2 - x1) ^ 2 + (y2 - y1) ^ 2 ->
  distance x1 y1 x2 y2 = d.
Proof.
  intros Hd Heq. unfold distance. rewrite <- Heq. now apply sqrt_square.
Qed.

Lemma demo_select :
  select_target (play_rows demo_tracking 1 1) = Ok (Some demo_target).
Proof.
  rewrite select_target_spec. cbn -[distance Rlt_dec].
  rewrite (distance_eq 0 0 3 4 5), (distance_eq 0 10 2 10 2) by lra.
  destruct (Rlt_dec 5 2); [lra | reflexivity].
Qed.

Lemma demo_play :
  process_play demo_tracking (1%Z, 1%Z, "GO") = Ok (Some demo_record).
Proof.
  rewrite (process_play_emits demo_tracking 1 1 "GO" demo_target
             (mkFrame 1 1 10 2 3 4 "Offense" "WR" "Ward")
             (mkFrame 1 1 30 2 3 7 "Defense" "CB" "Cole") [] []);
    [| exact demo_select | reflexivity | reflexivity].
  unfold record_of, demo_record, count_le.
  cbn -[distance Rlt_dec Rle_dec Rminus].
  rewrite (distance_eq 3 4 3 7 3), (distance_eq 0 0 0 6 6) by lra.
  destruct (Rle_dec 3 3); [|lra]. destruct (Rle_dec 3 5); [|lra].
  reflexivity.
Qed.

Lemma first_by_frame_least (frames : list Frame) (a : Frame) :
  first_by frame_ltb frames = Some a ->
  In a frames /\ forall f, In f frames -> (frame_id a <= frame_id f)%Z.
Proof.
  intros H. split; [eapply first_by_In; exact H|].
  intros f Hf. apply frame_not_after.
  eapply first_by_least; eauto using frame_ltb_asym, frame_not_after_trans.
Qed.

Lemma last_by_frame_greatest (frames : list Frame) (b : Frame) :
  last_by frame_ltb frames = Some b ->
  In b frames /\ forall f, In f frames -> (frame_id f <= frame_id b)%Z.
Proof.
  intros H. split; [eapply last_by_In; exact H|].
  intros f Hf. apply frame_not_after.
  eapply last_by_greatest; eauto using frame_ltb_asym, frame_not_after_trans.
Qed.

(** *** C1: the presumed target has the greatest displacement *)

(** C1.  Whenever the finder selects a target for a play, the target is an
    offensive player whose position (read on the first-by-frame_id row) is
    WR, TE, RB or FB; its recorded displacement is the straight-line
    distance between its first-by-frame_id and last-by-frame_id offensive
    rows; no offensive player with an allow-listed position has a greater
    such displacement; and the record appended for the play, if any, names
    that player as the receiver. *)
Theorem C1_target_has_greatest_displacement
    (tracking_df : list Frame) (g pl : Z) (t : Candidate) :
  select_target (play_rows tracking_df g pl) = Ok (Some t) ->
  let offense := offensive_players (play_rows tracking_df g pl) in
  let frames := frames_of offense (cand_nfl_id t) in
  eligible offense (cand_nfl_id t) /\
  (exists a b,
      (In a frames /\ forall f, In f frames -> (frame_id a <= frame_id f)%Z) /\
      (In b frames /\ forall f, In f frames -> (frame_id f <= frame_id b)%Z) /\
      is_receiver_position (player_position a) = true /\
      displacement t = distance (x a) (y a) (x b) (y b)) /\
  straight_line_displacement frames = Some (displacement t) /\
  (forall id d,
      eligible offense id ->
      straight_line_displacement (frames_of offense id) = Some d ->
      d <= displacement t) /\
  (forall rt r,
      process_play tracking_df (g, pl, rt) = Ok (Some r) ->
      receiver_nfl_id r = cand_nfl_id t).
Proof.
  intros Hsel offense frames.
  destruct (select_target_inv _ _ Hsel) as [Hin Hmax].
  apply candidates_In in Hin. destruct Hin as (id & Hid & Hcand).
  destruct (candidate_inv _ _ _ Hcand) as (Hcid & Hlen & Hel & Hsld).
  fold offense in Hcand, Hel, Hsld, Hmax, Hlen. subst id. fold frames in Hsld.
  split; [exact Hel|]. split; [|split; [exact Hsld|split]].
  - unfold straight_line_displacement in Hsld.
    destruct Hel as (a & Ha & Hpos). fold frames in Ha. rewrite Ha in Hsld.
    destruct (last_by frame_ltb frames) as [b|] eqn:Eb; [|discriminate].
    exists a, b. repeat split.
    + now apply first_by_frame_least.
    + now apply first_by_frame_least.
    + now apply last_by_frame_greatest.
    + now apply last_by_frame_greatest.
    + exact Hpos.
    + congruence.
  - intros id d Hel' Hd.
    destruct (eligible_displacement _ _ _ Hel' Hd) as [->|(c & Hc & <-)].
    + unfold straight_line_displacement in Hsld.
      destruct (first_by frame_ltb frames), (last_by frame_ltb frames);
        try discriminate.
      injection Hsld as Hsld. rewrite <- Hsld. apply distance_nonneg.
    + now apply Hmax.
  - intros rt r Hr. apply process_play_inv in Hr.
    destruct Hr as (t' & rcv & rest & d & ds & Ht' & _ & _ & ->).
    rewrite Hsel in Ht'. injection Ht' as <-. reflexivity.
Qed.

(** On the sample play the WR (displacement 5) is chosen over the RB
    (displacement 2). *)
Lemma C1_witness :
  let offense := offensive_players (play_rows demo_tracking 1 1) in
  select_target (play_rows demo_tracking 1 1) = Ok (Some demo_target) /\
  cand_position demo_target = "WR" /\
  eligible offense 10 /\
  eligible offense 20 /\
  (forall id d,
      eligible offense id ->
      straight_line_displacement (frames_of offense id) = Some d ->
      d <= 5).
Proof.
  pose proof (C1_target_has_greatest_displacement
                demo_tracking 1 1 demo_target demo_select) as H.
  cbv zeta in H. destruct H as (H1 & _ & _ & H2 & _).
  split; [exact demo_select|]. split; [reflexivity|].
  split; [exact H1|]. split; [|exact H2].
  exists (mkFrame 1 1 20 1 0 10 "Offense" "RB" "Reed").
  split; reflexivity.
Defined.

(** *** C2: separation and defender counts at the throw *)

Lemma throw_rows_spec (play_data : list Frame) (f0 : Frame) (fs : list Frame) :
  play_data = f0 :: fs ->
  let k := series_max (frame_id f0) (map frame_id fs) in
  is_max_frame_id k play_data /\
  throw_rows play_data = filter (at_frame k) play_data.
Proof.
  intros -> k. split; [|reflexivity]. split.
  - destruct (series_max_In (map frame_id fs) (frame_id f0)) as [H|H].
    + exists f0. split; [now left | exact H].
    + apply in_map_iff in H. destruct H as (f & Hf & Hin).
      exists f. split; [now right | exact Hf].
  - destruct (series_max_ge (map frame_id fs) (frame_id f0)) as [H0 Hs].
    intros f [<-|Hf]; [exact H0 | apply Hs; now apply in_map].
Qed.

Lemma filter_filter {A : Type} (p q : A -> bool) (l : list A) :
  filter p (filter q l) = filter (fun a => q a && p a) l.
Proof.
  induction l as [|a t IH]; simpl; [reflexivity|].
  destruct (q a); simpl; [destruct (p a)|]; now rewrite IH.
Qed.

(** What every appended record says about the throw. *)
Lemma emitted_throw_metrics (tracking_df : list Frame) (g pl : Z)
    (rt : string) (r : SeparationRecord) :
  process_play tracking_df (g, pl, rt) = Ok (Some r) ->
  let play_data := play_rows tracking_df g pl in
  let k := throw_frame_id r in
  let dist f := distance (receiver_x r) (receiver_y r) (x f) (y f) in
  is_max_frame_id k play_data /\
  (exists rcv, In rcv play_data /\ frame_id rcv = k /\
               nfl_id rcv = receiver_nfl_id r /\
               x rcv = receiver_x r /\ y rcv = receiver_y r) /\
  (exists d, In d (defenders_at k play_data) /\
             dist d = separation_at_throw r /\
             nfl_id d = nearest_defender_id r) /\
  (forall d, In d (defenders_at k play_data) ->
             separation_at_throw r <= dist d) /\
  defenders_within_3yd r = count_le dist 3 (defenders_at k play_data) /\
  defenders_within_5yd r = count_le dist 5 (defenders_at k play_data).
Proof.
  intros H play_data. apply process_play_inv in H. fold play_data in H.
  destruct H as (t & rcv & rest & d & ds & Ht & Hr & Hd & ->).
  destruct play_data as [|f0 fs] eqn:Epd; [discriminate Hr|].
  destruct (throw_rows_spec (f0 :: fs) f0 fs eq_refl) as [Hmax Hrows].
  cbv zeta in Hmax, Hrows. rewrite Hrows in Hr, Hd.
  unfold record_of. cbn [throw_frame_id receiver_x receiver_y
    separation_at_throw nearest_defender_id receiver_nfl_id
    defenders_within_3yd defenders_within_5yd].
  set (k := series_max (frame_id f0) (map frame_id fs)) in *.
  set (dist := fun f => distance (x rcv) (y rcv) (x f) (y f)).
  assert (Hdef : defenders_at k (f0 :: fs) = d :: ds).
  { unfold defenders_at. now rewrite <- filter_filter. }
  rewrite Hdef. split; [exact Hmax|]. split; [|split; [|split; [|split]]].
  - exists rcv.
    assert (Hin : In rcv (filter (has_id (cand_nfl_id t))
                            (filter (at_frame k) (f0 :: fs))))
      by (rewrite Hr; now left).
    rewrite !filter_In in Hin. destruct Hin as [[Hin Hk] Hid].
    unfold at_frame in Hk. unfold has_id in Hid.
    rewrite Z.eqb_eq in Hk, Hid. auto.
  - exists (min_from dist d ds).
    split; [apply min_from_In | split; reflexivity].
  - intros d' Hd'. now apply (min_from_le dist).
  - reflexivity.
  - reflexivity.
Qed.

Lemma emitted_by_its_play (tracking_df : list Frame)
    (supp_df : list SuppRow) (results : list SeparationRecord)
    (r : SeparationRecord) :
  find_nearest_defender tracking_df supp_df = Ok results ->
  In r results ->
  process_play tracking_df (res_game_id r, res_play_id r, route r)
  = Ok (Some r).
Proof.
  unfold find_nearest_defender. rewrite plays_loop_spec.
  intros [= <-] Hin. cbn [app] in Hin. apply in_flat_map in Hin.
  destruct Hin as ([[g pl] rt] & _ & Hr). unfold emitted in Hr.
  destruct (process_play tracking_df (g, pl, rt)) as [[r'|]|] eqn:E;
    try contradiction.
  destruct Hr as [<-|[]].
  destruct (process_play_inv _ _ _ _ _ E)
    as (t & rcv & rest & d & ds & _ & _ & _ & Hrec).
  rewrite Hrec in *. exact E.
Qed.

(** C2.  In every record of the result, [throw_frame_id] is the greatest
    frame_id of the record's play, the receiver coordinates are those of a
    row of the selected receiver at that frame, [separation_at_throw] is the
    distance from that position to some defensive-side row at that frame and
    is no greater than the distance to any such row, and
    [defenders_within_3yd] and [defenders_within_5yd] count the
    defensive-side rows at that frame whose distance is at most 3 and at
    most 5. *)
Theorem C2_separation_is_least_distance_at_throw
    (tracking_df : list Frame) (supp_df : list SuppRow)
    (results : list SeparationRecord) (r : SeparationRecord) :
  find_nearest_defender tracking_df supp_df = Ok results ->
  In r results ->
  let play_data := play_rows tracking_df (res_game_id r) (res_play_id r) in
  let k := throw_frame_id r in
  let dist f := distance (receiver_x r) (receiver_y r) (x f) (y f) in
  is_max_frame_id k play_data /\
  (exists rcv, In rcv play_data /\ frame_id rcv = k /\
               nfl_id rcv = receiver_nfl_id r /\
               x rcv = receiver_x r /\ y rcv = receiver_y r) /\
  (exists d, In d (defenders_at k play_data) /\
             dist d = separation_at_throw r) /\
  (forall d, In d (defenders_at k play_data) ->
             separation_at_throw r <= dist d) /\
  defenders_within_3yd r =
    List.length (filter (fun d => if Rle_dec (dist d) 3 then true else false)
                   (defenders_at k play_data)) /\
  defenders_within_5yd r =
    List.length (filter (fun d => if Rle_dec (dist d) 5 then true else false)
                   (defenders_at k play_data)).
Proof.
  intros Hrun Hin.
  pose proof (emitted_by_its_play _ _ _ _ Hrun Hin) as H.
  destruct (emitted_throw_metrics _ _ _ _ _ H)
    as (Hk & Hrcv & (d & Hd & Hsep & _) & Hmin & H3 & H5).
  repeat split; try assumption.
  - apply Hk.
  - apply Hk.
  - now exists d.
Qed.

Lemma demo_run :
  find_nearest_defender demo_tracking [mkSupp 1 1 (Some "GO")]
  = Ok [demo_record].
Proof.
  rewrite find_nearest_defender_spec.
  cbn [targeted_plays flat_map route_of_targeted_receiver supp_game_id
         supp_play_id String.eqb Ascii.eqb Bool.eqb app].
  unfold emitted. now rewrite demo_play.
Qed.

(** On the sample play the only defender at the throw is 3 yards away. *)
Lemma C2_witness :
  find_nearest_defender demo_tracking [mkSupp 1 1 (Some "GO")]
  = Ok [demo_record] /\
  separation_at_throw demo_record = 3 /\
  defenders_within_5yd demo_record = 1%nat /\
  forall d, In d (defenders_at 2 (play_rows demo_tracking 1 1)) ->
            3 <= distance 3 4 (x d) (y d).
Proof.
  pose proof (C2_separation_is_least_distance_at_throw
                demo_tracking [mkSupp 1 1 (Some "GO")] [demo_record]
                demo_record demo_run (or_introl eq_refl)) as H.
  cbv zeta in H. destruct H as (_ & _ & _ & Hmin & _).
  split; [exact demo_run|].
  split; [reflexivity | split; [reflexivity | exact Hmin]].
Defined.

(** *** C6: missing snap data leaves the throw metrics in place *)

Lemma filter_nil_iff {A : Type} (p : A -> bool) (l : list A) :
  filter p l = [] <-> forall a, In a l -> p a = false.
Proof.
  induction l as [|a t IH]; simpl.
  - split; [intros _ b [] | reflexivity].
  - destruct (p a) eqn:E.
    + split; [discriminate|]. intros H. specialize (H a (or_introl eq_refl)).
      congruence.
    + rewrite IH. split.
      * intros H b [<-|Hb]; [exact E | now apply H].
      * intros H b Hb. apply H. now right.
Qed.

Lemma filter_nonempty {A : Type} (p : A -> bool) (l : list A) (a : A) :
  In a l -> p a = true -> exists b t, filter p l = b :: t.
Proof.
  intros Hin Hp. destruct (filter p l) as [|b t] eqn:E; [|now eauto].
  rewrite filter_nil_iff in E. rewrite (E a Hin) in Hp. discriminate.
Qed.

(** C6.  Let a target be selected, and let the throw frame hold a row of the
    target and a defensive-side row.  If the snap frame (the rows at the
    play's least frame_id) holds no row of the target, or no defensive-side
    row, a record is appended all the same; its [coverage_cushion] and
    [separation_change] are missing, and its separation and defender counts
    at the throw are the ones of C2. *)
Theorem C6_missing_snap_keeps_throw_metrics
    (tracking_df : list Frame) (g pl : Z) (rt : string) (t : Candidate) :
  select_target (play_rows tracking_df g pl) = Ok (Some t) ->
  (exists f, In f (throw_rows (play_rows tracking_df g pl)) /\
             nfl_id f = cand_nfl_id t) ->
  (exists d, In d (throw_rows (play_rows tracking_df g pl)) /\
             player_side d = "Defense") ->
  ((forall f, In f (snap_rows (play_rows tracking_df g pl)) ->
              nfl_id f <> cand_nfl_id t) \/
   (forall d, In d (snap_rows (play_rows tracking_df g pl)) ->
              player_side d <> "Defense")) ->
  exists r,
    process_play tracking_df (g, pl, rt) = Ok (Some r) /\
    receiver_nfl_id r = cand_nfl_id t /\
    coverage_cushion r = None /\
    separation_change r = None /\
    let play_data := play_rows tracking_df g pl in
    let k := throw_frame_id r in
    let dist f := distance (receiver_x r) (receiver_y r) (x f) (y f) in
    (exists d, In d (defenders_at k play_data) /\
               dist d = separation_at_throw r) /\
    (forall d, In d (defenders_at k play_data) ->
               separation_at_throw r <= dist d) /\
    defenders_within_3yd r = count_le dist 3 (defenders_at k play_data) /\
    defenders_within_5yd r = count_le dist 5 (defenders_at k play_data).
Proof.
  intros Hsel (f & Hf & Hfid) (d0 & Hd0 & Hside) Hsnap.
  destruct (filter_nonempty (has_id (cand_nfl_id t)) _ f Hf)
    as (rcv & rest & Hr); [unfold has_id; now apply Z.eqb_eq|].
  destruct (filter_nonempty (is_side "Defense") _ d0 Hd0)
    as (d & ds & Hd); [unfold is_side; now apply String.eqb_eq|].
  pose proof (process_play_emits tracking_df g pl rt t rcv d rest ds
                Hsel Hr Hd) as Hplay.
  eexists. split; [exact Hplay|].
  split; [reflexivity|].
  assert (Hcush : coverage_cushion
                    (record_of g pl rt (play_rows tracking_df g pl)
                       t rcv d ds) = None).
  { unfold record_of. cbn [coverage_cushion].
    destruct Hsnap as [Hno|Hno].
    - assert (E : filter (has_id (cand_nfl_id t))
                    (snap_rows (play_rows tracking_df g pl)) = []).
      { apply filter_nil_iff. intros a Ha. unfold has_id.
        apply Z.eqb_neq. now apply Hno. }
      now rewrite E.
    - assert (E : filter (is_side "Defense")
                    (snap_rows (play_rows tracking_df g pl)) = []).
      { apply filter_nil_iff. intros a Ha. unfold is_side.
        apply String.eqb_neq. now apply Hno. }
      unfold cushion. rewrite E.
      now destruct (match filter _ _ with [] => None | s :: _ => _ end)
        as [[? ?]|]. }
  split; [exact Hcush|]. split.
  - unfold record_of in *. cbn [coverage_cushion separation_change] in *.
    now rewrite Hcush.
  - destruct (emitted_throw_metrics _ _ _ _ _ Hplay)
      as (_ & _ & (d' & Hd' & Hsep & _) & Hmin & H3 & H5).
    cbv zeta. repeat split; try assumption. now exists d'.
Qed.

Lemma late_select :
  select_target (play_rows late_tracking 1 1) = Ok (Some demo_target).
Proof.
  rewrite select_target_spec. cbn -[distance Rlt_dec].
  now rewrite (distance_eq 0 0 3 4 5) by lra.
Qed.

(** A receiver who joins after the snap: the record has no cushion, and its
    separation at the throw is still the least distance to a defender. *)
Lemma C6_witness :
  exists r,
    process_play late_tracking (1%Z, 1%Z, "GO") = Ok (Some r) /\
    receiver_nfl_id r = 10%Z /\
    coverage_cushion r = None /\
    separation_change r = None /\
    (forall d, In d (defenders_at (throw_frame_id r)
                       (play_rows late_tracking 1 1)) ->
               separation_at_throw r <=
               distance (receiver_x r) (receiver_y r) (x d) (y d)).
Proof.
  destruct (C6_missing_snap_keeps_throw_metrics
              late_tracking 1 1 "GO" demo_target late_select)
    as (r & Hr & Hid & Hc & Hs & _ & Hmin & _).
  - exists (mkFrame 1 1 10 3 3 4 "Offense" "WR" "Ward").
    split; [simpl; tauto | reflexivity].
  - exists (mkFrame 1 1 30 3 3 7 "Defense" "CB" "Cole").
    split; [simpl; tauto | reflexivity].
  - left. intros f [<-|[]]. discriminate.
  - exists r. repeat split; assumption.
Defined.

(** *** C7: plays passed over *)

Lemma skipped_no_record (tracking_df : list Frame) (g pl : Z) (rt : string) :
  skipped tracking_df g pl -> process_play tracking_df (g, pl, rt) = Ok None.
Proof.
  intros Hskip.
  destruct (process_play_total tracking_df (g, pl, rt)) as [[r|] Ho];
    [exfalso | exact Ho].
  apply process_play_inv in Ho.
  destruct Ho as (t & rcv & rest & d & ds & Ht & Hr & Hd & _).
  assert (Hrcv : In rcv (filter (has_id (cand_nfl_id t))
                           (throw_rows (play_rows tracking_df g pl))))
    by (rewrite Hr; now left).
  assert (Hdef : In d (filter (is_side "Defense")
                         (throw_rows (play_rows tracking_df g pl))))
    by (rewrite Hd; now left).
  apply filter_In in Hrcv, Hdef.
  destruct (select_target_inv _ _ Ht) as [Hin _].
  apply candidates_In in Hin. destruct Hin as (id & Hid & Hcand).
  destruct Hskip as [Hnil | Hoff | Hel | t' Ht' Hno | Hno].
  - rewrite Hnil in Hrcv. now destruct Hrcv.
  - apply in_map_iff in Hid. destruct Hid as (f & _ & Hf).
    unfold offensive_players in Hf. apply filter_In in Hf.
    destruct Hf as [Hf Hside]. unfold is_side in Hside.
    apply String.eqb_eq in Hside. now apply (Hoff f).
  - apply candidate_inv in Hcand. now apply (Hel id).
  - rewrite Ht in Ht'. injection Ht' as <-.
    destruct Hrcv as [Hrcv Hhas]. unfold has_id in Hhas.
    apply Z.eqb_eq in Hhas. now apply (Hno rcv).
  - destruct Hdef as [Hdef Hside]. unfold is_side in Hside.
    apply String.eqb_eq in Hside. now apply (Hno d).
Qed.

(** C7.  A targeted play that has no frames, or no offensive row, or no
    offensive player with an allow-listed position, or no row of the
    selected target at the throw frame, or no defensive-side row at the
    throw frame, is passed over without an exception; the run over the whole
    supplementary table returns normally, with exactly the records it
    returns when that play's row is left out. *)
Theorem C7_skipped_play_is_dropped
    (tracking_df : list Frame) (g pl : Z) (rt : string)
    (before after : list SuppRow) :
  skipped tracking_df g pl ->
  rt <> "" ->
  process_play tracking_df (g, pl, rt) = Ok None /\
  find_nearest_defender tracking_df (before ++ mkSupp g pl (Some rt) :: after)
  = find_nearest_defender tracking_df (before ++ after) /\
  exists results,
    find_nearest_defender tracking_df (before ++ after) = Ok results.
Proof.
  intros Hskip Hrt.
  pose proof (skipped_no_record tracking_df g pl rt Hskip) as Hnone.
  split; [exact Hnone|]. split.
  - rewrite !find_nearest_defender_spec. f_equal.
    unfold targeted_plays. rewrite !flat_map_app. f_equal.
    cbn [flat_map route_of_targeted_receiver supp_game_id supp_play_id].
    apply String.eqb_neq in Hrt. rewrite Hrt. cbn [app flat_map].
    unfold emitted at 1. now rewrite Hnone.
  - rewrite find_nearest_defender_spec. now eexists.
Qed.

(** A play without tracking rows between two copies of the sample play. *)
Lemma C7_witness :
  process_play demo_tracking (7%Z, 7%Z, "POST") = Ok None /\
  find_nearest_defender demo_tracking
    ([mkSupp 1 1 (Some "GO")] ++ mkSupp 7 7 (Some "POST")
       :: [mkSupp 1 1 (Some "GO")])
  = find_nearest_defender demo_tracking
      ([mkSupp 1 1 (Some "GO")] ++ [mkSupp 1 1 (Some "GO")]).
Proof.
  destruct (C7_skipped_play_is_dropped demo_tracking 7 7 "POST"
              [mkSupp 1 1 (Some "GO")] [mkSupp 1 1 (Some "GO")])
    as (H1 & H2 & _).
  - apply no_frames. reflexivity.
  - discriminate.
  - split; [exact H1 | exact H2].
Defined.

(** *** C10: a player on fewer than two frames is never a candidate *)

Lemma candidates_nil (offense : list Frame) :
  (forall id, eligible offense id ->
              (List.length (frames_of offense id) < 2)%nat) ->
  candidates offense = [].
Proof.
  intros H. destruct (candidates offense) as [|c cs] eqn:E; [reflexivity|].
  assert (Hin : In c (candidates offense)) by (rewrite E; now left).
  apply candidates_In in Hin. destruct Hin as (id & _ & Hc).
  apply candidate_inv in Hc. destruct Hc as (_ & Hlen & Hel & _).
  specialize (H id Hel). lia.
Qed.

(** C10.  For the offensive rows of any play: the displacement loop appends
    nothing for a player on fewer than two rows; a selected target is always
    on two rows or more; and when every offensive player with an
    allow-listed position is on fewer than two rows, the play yields no
    record, whatever the throw frame holds. *)
Theorem C10_single_frame_player_is_never_selected
    (tracking_df : list Frame) (g pl : Z) :
  let offense := offensive_players (play_rows tracking_df g pl) in
  (forall id, (List.length (frames_of offense id) < 2)%nat ->
              displacement_of offense id = Ok None) /\
  (forall t, select_target (play_rows tracking_df g pl) = Ok (Some t) ->
             (2 <= List.length (frames_of offense (cand_nfl_id t)))%nat) /\
  ((forall id, eligible offense id ->
               (List.length (frames_of offense id) < 2)%nat) ->
   forall rt, process_play tracking_df (g, pl, rt) = Ok None).
Proof.
  intros offense. split; [|split].
  - intros id Hlen. rewrite displacement_of_candidate. f_equal.
    unfold candidate. apply Nat.ltb_lt in Hlen. now rewrite Hlen.
  - intros t Ht. destruct (select_target_inv _ _ Ht) as [Hin _].
    apply candidates_In in Hin. destruct Hin as (id & _ & Hc).
    apply candidate_inv in Hc. destruct Hc as (<- & Hlen & _). exact Hlen.
  - intros Hall rt. unfold process_play.
    destruct (play_rows tracking_df g pl) as [|f0 fs] eqn:Epd; [reflexivity|].
    rewrite select_target_spec. fold offense.
    now rewrite (candidates_nil offense Hall).
Qed.

(** The WR is on the throw frame only, next to a defender: no record. *)
Lemma C10_witness :
  (exists f, In f (throw_rows (play_rows single_frame_tracking 1 1)) /\
             nfl_id f = 10%Z /\ player_position f = "WR") /\
  (exists d, In d (throw_rows (play_rows single_frame_tracking 1 1)) /\
             player_side d = "Defense") /\
  process_play single_frame_tracking (1%Z, 1%Z, "GO") = Ok None.
Proof.
  split; [|split].
  - exists (mkFrame 1 1 10 2 3 4 "Offense" "WR" "Ward").
    split; [simpl; tauto | split; reflexivity].
  - exists (mkFrame 1 1 30 2 3 7 "Defense" "CB" "Cole").
    split; [simpl; tauto | reflexivity].
  - apply (C10_single_frame_player_is_never_selected
             single_frame_tracking 1 1).
    intros id _. cbn.
    destruct id as [|q|q]; simpl; try lia.
    destruct (10 =? q)%positive; simpl; lia.
Defined.

(** *** C5: records per play *)

Lemma emitted_key (tracking_df : list Frame) (p : Z * Z * string)
    (r : SeparationRecord) :
  In r (emitted tracking_df p) -> key_of r = play_key p.
Proof.
  unfold emitted. destruct p as [[g pl] rt].
  destruct (process_play tracking_df (g, pl, rt)) as [[r'|]|] eqn:E;
    try contradiction.
  intros [<-|[]]. apply process_play_inv in E.
  destruct E as (t & rcv & rest & d & ds & _ & _ & _ & ->). reflexivity.
Qed.

Lemma emitted_at_most_one (tracking_df : list Frame) (p : Z * Z * string) :
  emitted tracking_df p = [] \/ exists r, emitted tracking_df p = [r].
Proof.
  unfold emitted. destruct (process_play tracking_df p) as [[r|]|];
    [right; now exists r | now left | now left].
Qed.

Lemma emitted_keys_NoDup (tracking_df : list Frame)
    (plays : list (Z * Z * string)) :
  NoDup (map play_key plays) ->
  NoDup (map key_of (flat_map (emitted tracking_df) plays)) /\
  forall k, In k (map key_of (flat_map (emitted tracking_df) plays)) ->
            In k (map play_key plays).
Proof.
  induction plays as [|p rest IH]; intros Hnd; simpl.
  - split; [constructor | tauto].
  - inversion Hnd as [|? ? Hnotin Hnd']. subst.
    destruct (IH Hnd') as [IH1 IH2].
    destruct (emitted_at_most_one tracking_df p) as [E|[r E]].
    + rewrite E. simpl. split; [exact IH1 | intros k Hk; right; now apply IH2].
    + assert (Hkey : key_of r = play_key p).
      { apply (emitted_key tracking_df). rewrite E. now left. }
      rewrite E. simpl. rewrite Hkey. split.
      * constructor; [|exact IH1]. intros Hin. apply Hnotin. now apply IH2.
      * intros k [<-|Hk]; [now left | right; now apply IH2].
Qed.

(** C5, as stated, fails: the supplementary table is not deduplicated, so a
    play that is listed twice is recorded twice. *)
Lemma C5_counterexample :
  exists results,
    find_nearest_defender demo_tracking demo_supp_twice = Ok results /\
    ~ NoDup (map key_of results).
Proof.
  exists [demo_record; demo_record]. split.
  - rewrite find_nearest_defender_spec. cbn [demo_supp_twice targeted_plays
      flat_map route_of_targeted_receiver supp_game_id supp_play_id
      String.eqb Ascii.eqb Bool.eqb app].
    unfold emitted. now rewrite demo_play.
  - intros H. inversion H as [|? ? Hnotin _]. apply Hnotin. now left.
Qed.

(** C5, amended.  When no two targeted rows of the supplementary table share
    (game_id, play_id), the run returns normally and no two of its records
    share (game_id, play_id); each record carries the key of a targeted
    row. *)
Theorem C5_one_record_per_listed_play
    (tracking_df : list Frame) (supp_df : list SuppRow) :
  NoDup (map play_key (targeted_plays supp_df)) ->
  exists results,
    find_nearest_defender tracking_df supp_df = Ok results /\
    NoDup (map key_of results) /\
    forall r, In r results ->
              In (key_of r) (map play_key (targeted_plays supp_df)).
Proof.
  intros Hnd. eexists. split; [apply find_nearest_defender_spec|].
  destruct (emitted_keys_NoDup tracking_df _ Hnd) as [H1 H2].
  split; [exact H1|]. intros r Hr. apply H2. now apply in_map.
Qed.

Lemma C5_witness :
  exists results,
    find_nearest_defender demo_tracking [mkSupp 1 1 (Some "GO")] = Ok results /\
    NoDup (map key_of results).
Proof.
  destruct (C5_one_record_per_listed_play demo_tracking
              [mkSupp 1 1 (Some "GO")]) as (results & H1 & H2 & _).
  - cbn. constructor; [intros [] | constructor].
  - exists results. split; assumption.
Defined.

End SeparationClaims.

(** ** Feature engineering *)

Module FeaturesTheory.
Import Features FeaturesSpec.
Local Open Scope Q_scope.

(** *** Keys and groups *)

Lemma key_eqb_eq (k k' : Key) : key_eqb k k' = true <-> k = k'.
Proof.
  destruct k as [[g p] n], k' as [[g' p'] n']. unfold key_eqb.
  rewrite !andb_true_iff, !Z.eqb_eq. split.
  - intros [[-> ->] ->]. reflexivity.
  - intros [= -> -> ->]. auto.
Qed.

Lemma key_eqb_refl (k : Key) : key_eqb k k = true.
Proof. now apply key_eqb_eq. Qed.

Lemma key_eqb_sym (k k' : Key) : key_eqb k k' = key_eqb k' k.
Proof.
  destruct (key_eqb k k') eqn:E.
  - apply key_eqb_eq in E. subst. symmetry. apply key_eqb_refl.
  - destruct (key_eqb k' k) eqn:E'; [|reflexivity].
    apply key_eqb_eq in E'. subst. now rewrite key_eqb_refl in E.
Qed.

Lemma count_key_cons (k k0 : Key) (l : list Key) :
  count_key k (k0 :: l) =
  if key_eqb k k0 then S (count_key k l) else count_key k l.
Proof. unfold count_key. cbn [filter]. now destruct (key_eqb k k0). Qed.

Lemma count_key_app (k : Key) (l l' : list Key) :
  count_key k (l ++ l') = (count_key k l + count_key k l')%nat.
Proof. unfold count_key. now rewrite filter_app, length_app. Qed.

Lemma count_key_rev (k : Key) (l : list Key) :
  count_key k (rev l) = count_key k l.
Proof.
  induction l as [|k0 l IH]; [reflexivity|].
  simpl rev. rewrite count_key_app, IH, !count_key_cons.
  change (count_key k []) with 0%nat.
  destruct (key_eqb k k0); lia.
Qed.

Lemma group_of_cons {A : Type} (k k0 : Key) (keys : list Key) (v : A)
    (col : list A) :
  group_of k (k0 :: keys) (v :: col) =
  if key_eqb k0 k then v :: group_of k keys col else group_of k keys col.
Proof. unfold group_of. simpl. now destruct (key_eqb k0 k). Qed.

Section GroupFacts.
Context {A B : Type}.


Lemma group_of_length (k : Key) (keys : list Key) :
  forall col : list A,
    List.length keys = List.length col ->
    List.length (group_of k keys col) = count_key k keys.
Proof.
  induction keys as [|k0 keys IH]; intros [|v col] Hlen; try discriminate.
  - reflexivity.
  - rewrite group_of_cons, count_key_cons, (key_eqb_sym k k0).
    injection Hlen as Hlen. specialize (IH col Hlen).
    destruct (key_eqb k0 k); simpl; now rewrite IH.
Qed.

Lemma group_of_map (h : A -> B) (k : Key) (keys : list Key) :
  forall col : list A,
    group_of k keys (map h col) = map h (group_of k keys col).
Proof.
  induction keys as [|k0 keys IH]; intros [|v col]; try reflexivity.
  simpl map. rewrite !group_of_cons, IH. now destruct (key_eqb k0 k).
Qed.

Lemma group_of_combine (k : Key) (keys : list Key) :
  forall (c1 : list A) (c2 : list B),
    List.length keys = List.length c1 ->
    List.length keys = List.length c2 ->
    group_of k keys (combine c1 c2) =
    combine (group_of k keys c1) (group_of k keys c2).
Proof.
  induction keys as [|k0 keys IH]; intros [|v1 c1] [|v2 c2] H1 H2;
    try discriminate; try reflexivity.
  simpl combine. rewrite !group_of_cons.
  injection H1 as H1. injection H2 as H2. rewrite (IH _ _ H1 H2).
  now destruct (key_eqb k0 k).
Qed.

End GroupFacts.

Lemma group_of_rows (k : Key) (df : list Row) :
  group_of k (map key_of_row df) df = rows_of k df.
Proof.
  induction df as [|r df IH]; [reflexivity|].
  simpl map. rewrite group_of_cons, IH. reflexivity.
Qed.

(** *** [transform] returns, group by group, what [f] returns *)

Lemma skipn_nth_cons {B : Type} (dflt : B) (n : nat) (l : list B) :
  (n < List.length l)%nat -> nth n l dflt :: skipn (S n) l = skipn n l.
Proof.
  revert n. induction l as [|b t IH]; intros n Hn; simpl in Hn; [lia|].
  destruct n as [|n]; [reflexivity|].
  simpl. apply IH. lia.
Qed.

Section TransformFacts.
Context {A B : Type}.
Variable f : list A -> list B.
Variable dflt : B.
Hypothesis f_length : forall g, List.length (f g) = List.length g.

Lemma transform_from_length (keys : list Key) (col : list A)
    (rest : list Key) :
  forall seen,
    List.length (transform_from f dflt keys col seen rest) = List.length rest.
Proof.
  induction rest as [|k rest IH]; intros seen; simpl; [reflexivity|].
  now rewrite IH.
Qed.

Lemma transform_length (keys : list Key) (col : list A) :
  List.length (transform f dflt keys col) = List.length keys.
Proof. apply transform_from_length. Qed.

Lemma group_of_transform_from (k : Key) (keys : list Key) (col : list A) :
  List.length keys = List.length col ->
  forall rest seen,
    keys = rev seen ++ rest ->
    group_of k rest (transform_from f dflt keys col seen rest) =
    skipn (count_key k seen) (f (group_of k keys col)).
Proof.
  intros Hlen.
  assert (Hcount : List.length (f (group_of k keys col)) = count_key k keys).
  { rewrite f_length. now apply group_of_length. }
  induction rest as [|k0 rest IH]; intros seen Hkeys.
  - rewrite app_nil_r in Hkeys. subst keys.
    rewrite count_key_rev in Hcount. rewrite <- Hcount.
    now rewrite skipn_all.
  - cbn [transform_from]. rewrite group_of_cons.
    assert (Hkeys' : keys = rev (k0 :: seen) ++ rest).
    { simpl. now rewrite <- app_assoc. }
    rewrite (IH _ Hkeys').
    destruct (key_eqb k0 k) eqn:E.
    + apply key_eqb_eq in E. subst k0.
      rewrite count_key_cons, key_eqb_refl. apply skipn_nth_cons.
      rewrite Hcount, Hkeys, count_key_app, count_key_rev, count_key_cons.
      rewrite key_eqb_refl. lia.
    + now rewrite count_key_cons, key_eqb_sym, E.
Qed.

Lemma group_of_transform (k : Key) (keys : list Key) (col : list A) :
  List.length keys = List.length col ->
  group_of k keys (transform f dflt keys col) = f (group_of k keys col).
Proof.
  intros Hlen. unfold transform.
  now rewrite (group_of_transform_from k keys col Hlen keys []).
Qed.

End TransformFacts.

(** *** Per-group operations *)

Lemma group_max_length (g : list Z) :
  List.length (group_max g) = List.length g.
Proof.
  destruct g; [reflexivity|]. unfold group_max. now rewrite length_map.
Qed.

Lemma bfill_length (l : list cell) : List.length (bfill l) = List.length l.
Proof.
  induction l as [|c t IH]; [reflexivity|].
  simpl. destruct c; simpl; now rewrite IH.
Qed.

Lemma bfill_missing_then (h : Row -> cell) (g : list Row) (c : cell) :
  (forall r, In r g -> h r = None) ->
  bfill (map h g ++ [c]) = (map (fun _ => c) g ++ [c])%list.
Proof.
  induction g as [|r t IH]; intros Hnone.
  - simpl. now destruct c.
  - simpl. rewrite (Hnone r) by now left.
    rewrite IH by (intros r' Hr'; apply Hnone; now right).
    destruct t; reflexivity.
Qed.

Lemma max_frame_spec (g : list Row) (r : Row) :
  In r g ->
  (frame_id r <= max_frame g)%Z /\
  exists r', In r' g /\ frame_id r' = max_frame g.
Proof.
  destruct g as [|r0 t]; [contradiction|]. intros Hin. unfold max_frame.
  destruct (series_max_ge (map frame_id t) (frame_id r0)) as [H0 Hs].
  split.
  - destruct Hin as [<-|Hin]; [exact H0 | apply Hs; now apply in_map].
  - destruct (series_max_In (map frame_id t) (frame_id r0)) as [H|H].
    + exists r0. split; [now left | exact H].
    + apply in_map_iff in H. destruct H as (r' & Hr' & Hin').
      exists r'. split; [now right | exact Hr'].
Qed.

Lemma max_frame_last (g' : list Row) (l : Row) :
  (forall r, In r g' -> (frame_id r < frame_id l)%Z) ->
  max_frame (g' ++ [l]) = frame_id l.
Proof.
  intros Hlt.
  assert (Hl : In l (g' ++ [l])) by (apply in_or_app; right; now left).
  destruct (max_frame_spec _ _ Hl) as [Hge (r' & Hr' & Heq)].
  apply in_app_or in Hr'. destruct Hr' as [Hr'|[<-|[]]].
  - specialize (Hlt r' Hr'). lia.
  - now symmetry.
Qed.

(** *** The "at throw" columns, group by group *)

Lemma combine_constant (col : Row -> cell) (m : Z) (g : list Row) :
  map (fun p => if (frame_id (fst p) =? snd p)%Z then col (fst p) else None)
    (combine g (map (fun _ => m) (map frame_id g))) =
  map (fun r => if (frame_id r =? m)%Z then col r else None) g.
Proof. induction g as [|r g IH]; [reflexivity|]. simpl. now rewrite IH. Qed.


Lemma where_last_frame_group (col : Row -> cell) (df : list Row) (k : Key) :
  group_of k (map key_of_row df)
    (where_last_frame col df
       (transform group_max 0%Z (map key_of_row df) (map frame_id df))) =
  map (fun r => if (frame_id r =? max_frame (rows_of k df))%Z
                then col r else None)
    (rows_of k df).
Proof.
  unfold where_last_frame.
  rewrite group_of_map, group_of_combine;
    [| now rewrite length_map
     | now rewrite transform_length, !length_map].
  rewrite group_of_rows.
  rewrite (group_of_transform _ _ group_max_length)
    by now rewrite !length_map.
  rewrite group_of_map, group_of_rows.
  destruct (rows_of k df) as [|r t]; [reflexivity|].
  exact (combine_constant col (max_frame (r :: t)) (r :: t)).
Qed.

Lemma at_throw_group (col : Row -> cell) (df : list Row) (k : Key) :
  let keys := map key_of_row df in
  group_of k keys
    (transform bfill None keys
       (where_last_frame col df
          (transform group_max 0%Z keys (map frame_id df)))) =
  bfill (map (fun r => if (frame_id r =? max_frame (rows_of k df))%Z
                       then col r else None)
           (rows_of k df)).
Proof.
  intros keys. unfold keys.
  rewrite (group_of_transform _ _ bfill_length).
  - now rewrite where_last_frame_group.
  - unfold where_last_frame.
    rewrite !length_map, length_combine, transform_length, !length_map.
    now rewrite Nat.min_id.
Qed.

Lemma at_throw_replicates (col : Row -> cell) (df : list Row) (k : Key) :
  throw_row_last (rows_of k df) ->
  let keys := map key_of_row df in
  replicates_value_at_max_frame col (rows_of k df)
    (group_of k keys
       (transform bfill None keys
          (where_last_frame col df
             (transform group_max 0%Z keys (map frame_id df))))).
Proof.
  intros (g' & l & Hg & Hlt) keys. unfold keys. rewrite at_throw_group.
  rewrite Hg, (max_frame_last g' l Hlt), map_app. cbn [map].
  rewrite Z.eqb_refl.
  rewrite bfill_missing_then.
  2:{ intros r Hr. specialize (Hlt r Hr).
      destruct (frame_id r =? frame_id l)%Z eqn:E; [|reflexivity].
      apply Z.eqb_eq in E. lia. }
  split.
  - now rewrite !length_app, !length_map.
  - intros r Hr Hmax i Hi.
    assert (r = l) as ->.
    { apply in_app_or in Hr. destruct Hr as [Hr|[<-|[]]]; [|reflexivity].
      specialize (Hlt r Hr).
      assert (In l (g' ++ [l])) as Hl by (apply in_or_app; right; now left).
      specialize (Hmax l Hl). lia. }
    rewrite length_app in Hi. simpl in Hi.
    destruct (Nat.lt_ge_cases i (List.length g')) as [Hlt'|Hge].
    + rewrite app_nth1 by now rewrite length_map.
      rewrite (nth_indep _ None (col l)) by now rewrite length_map.
      clear -Hlt'. revert i Hlt'. induction g' as [|r t IH]; intros i Hi.
      * simpl in Hi. lia.
      * destruct i; [reflexivity|]. simpl. apply IH. simpl in Hi. lia.
    + rewrite app_nth2 by now rewrite length_map.
      rewrite length_map. replace (i - List.length g')%nat with 0%nat by lia.
      reflexivity.
Qed.

(** *** The order of the temporal sort *)

Lemma row_ltb_spec (r r' : Row) :
  row_ltb r r' = true <->
  (game_id r < game_id r' \/
   (game_id r = game_id r' /\
    (play_id r < play_id r' \/
     (play_id r = play_id r' /\
      (nfl_id r < nfl_id r' \/
       (nfl_id r = nfl_id r' /\ frame_id r < frame_id r'))))))%Z.
Proof.
  unfold row_ltb.
  destruct (Z.compare_spec (game_id r) (game_id r'));
    destruct (Z.compare_spec (play_id r) (play_id r'));
    destruct (Z.compare_spec (nfl_id r) (nfl_id r'));
    rewrite ?Z.ltb_lt; split; intros; try discriminate; try lia.
Qed.

Lemma row_not_after_spec (r r' : Row) :
  not_after row_ltb r r' <->
  ~ (game_id r' < game_id r \/
     (game_id r' = game_id r /\
      (play_id r' < play_id r \/
       (play_id r' = play_id r /\
        (nfl_id r' < nfl_id r \/
         (nfl_id r' = nfl_id r /\ frame_id r' < frame_id r))))))%Z.
Proof.
  unfold not_after. rewrite <- row_ltb_spec.
  destruct (row_ltb r' r); split; congruence.
Qed.

Lemma row_ltb_asym (r r' : Row) :
  row_ltb r r' = true -> row_ltb r' r = false.
Proof.
  intros H. apply row_ltb_spec in H.
  change (not_after row_ltb r r'). apply row_not_after_spec. lia.
Qed.

Lemma row_not_after_trans (r1 r2 r3 : Row) :
  not_after row_ltb r1 r2 -> not_after row_ltb r2 r3 ->
  not_after row_ltb r1 r3.
Proof. rewrite !row_not_after_spec. lia. Qed.

Lemma row_not_after_same_group (k : Key) (r r' : Row) :
  key_of_row r = k -> key_of_row r' = k ->
  not_after row_ltb r r' -> (frame_id r <= frame_id r')%Z.
Proof.
  unfold key_of_row. intros <- [= Hg Hp Hn]. rewrite row_not_after_spec. lia.
Qed.

Section SortedFacts.
Context {A : Type}.

Lemma StronglySorted_filter (R : A -> A -> Prop) (p : A -> bool)
    (l : list A) :
  StronglySorted R l -> StronglySorted R (filter p l).
Proof.
  induction 1 as [|x t Hs IH Hall]; simpl; [constructor|].
  destruct (p x); [|exact IH].
  constructor; [exact IH|].
  rewrite Forall_forall in *. intros y Hy. apply filter_In in Hy.
  now apply Hall.
Qed.

Lemma StronglySorted_weaken (R R' : A -> A -> Prop) (l : list A) :
  (forall x y, In x l -> In y l -> R x y -> R' x y) ->
  StronglySorted R l -> StronglySorted R' l.
Proof.
  intros Himp Hs. induction Hs as [|x t Hs IH Hall]; [constructor|].
  constructor.
  - apply IH. intros y z Hy Hz. apply Himp; now right.
  - rewrite Forall_forall in *. intros y Hy.
    apply Himp; [now left | now right | now apply Hall].
Qed.

Lemma Permutation_filter (p : A -> bool) (l l' : list A) :
  Permutation l l' -> Permutation (filter p l) (filter p l').
Proof.
  induction 1 as [|x l l' _ IH|x y l|l l' l'' _ IH1 _ IH2]; simpl.
  - constructor.
  - destruct (p x); [now constructor | exact IH].
  - destruct (p x), (p y); try reflexivity. apply perm_swap.
  - now transitivity (filter p l').
Qed.

End SortedFacts.

Lemma sorted_group_nondecreasing (df : list Row) (k : Key) :
  nondecreasing_frames (rows_of k (sort_values row_ltb df)).
Proof.
  unfold nondecreasing_frames, rows_of.
  apply StronglySorted_weaken with (R := not_after row_ltb).
  - intros r r' Hr Hr' Hna. apply filter_In in Hr, Hr'.
    destruct Hr as [_ Hr], Hr' as [_ Hr']. apply key_eqb_eq in Hr, Hr'.
    now apply (row_not_after_same_group k).
  - apply StronglySorted_filter.
    apply sort_values_sorted; [apply row_ltb_asym | apply row_not_after_trans].
Qed.

Lemma ascending_throw_row_last (g : list Row) :
  ascending_frames g -> g <> [] -> throw_row_last g.
Proof.
  induction 1 as [|r t Hs IH Hall]; intros Hne; [congruence|].
  destruct t as [|r' t'].
  - exists [], r. split; [reflexivity | intros ? []].
  - destruct IH as (g' & l & Hg & Hlt); [discriminate|].
    exists (r :: g'), l. split; [simpl; now rewrite Hg|].
    intros r0 [<-|Hr0]; [|now apply Hlt].
    rewrite Forall_forall in Hall. apply Hall. rewrite Hg.
    apply in_or_app. right. now left.
Qed.

(** *** [diff] *)

Lemma diff_from_length (l : list cell) :
  forall prev, List.length (diff_from prev l) = List.length l.
Proof.
  induction l as [|c t IH]; intros prev; simpl; [|rewrite IH]; reflexivity.
Qed.

Lemma diff_length (l : list cell) : List.length (diff l) = List.length l.
Proof. destruct l; [reflexivity|]. simpl. now rewrite diff_from_length. Qed.

Lemma diff_from_nth (l : list cell) :
  forall prev i,
    (i < List.length l)%nat ->
    nth i (diff_from prev l) None =
    sub_cell (nth i l None) (nth i (prev :: l) None).
Proof.
  induction l as [|c t IH]; intros prev i Hi; simpl in Hi; [lia|].
  destruct i as [|i]; [reflexivity|].
  cbn [diff_from nth]. rewrite IH by lia. reflexivity.
Qed.

Lemma diff_nth (l : list cell) (i : nat) :
  (S i < List.length l)%nat ->
  nth (S i) (diff l) None = sub_cell (nth (S i) l None) (nth i l None).
Proof.
  destruct l as [|c t]; simpl; intros Hi; [lia|].
  rewrite diff_from_nth by lia. reflexivity.
Qed.

(** *** The rolling mean *)

Lemma valid_app (l l' : list cell) :
  valid (l ++ l') = (valid l ++ valid l')%list.
Proof.
  induction l as [|c t IH]; [reflexivity|].
  simpl. destruct c; simpl; now rewrite IH.
Qed.

Lemma Qsum_app (l l' : list Q) : Qsum (l ++ l') == Qsum l + Qsum l'.
Proof.
  induction l as [|v t IH]; simpl.
  - ring.
  - rewrite IH. ring.
Qed.

Lemma tracks_add (st : RollState) (win : list cell) (c : cell) :
  tracks st win -> tracks (add_mean st c) (win ++ [c]).
Proof.
  intros [Hn Hs]. unfold tracks. rewrite valid_app.
  destruct c as [v|]; simpl.
  - rewrite length_app, Qsum_app, Hn, Hs. simpl. split; [lia | ring].
  - rewrite app_nil_r. now split.
Qed.

Lemma tracks_remove (st : RollState) (win : list cell) (c : cell) :
  tracks st (c :: win) -> tracks (remove_mean st c) win.
Proof.
  intros [Hn Hs]. unfold tracks. destruct c as [v|]; simpl in *.
  - rewrite Hn, Hs. split; [reflexivity | ring].
  - now split.
Qed.

Lemma calc_mean_tracks (st : RollState) (win : list cell) :
  tracks st win -> cell_eq (calc_mean 1 st) (nan_mean win).
Proof.
  intros [Hn Hs]. unfold calc_mean, nan_mean, mean_of. rewrite Hn.
  destruct (valid win) as [|v t]; simpl; [exact I|].
  now rewrite Hs.
Qed.

Lemma firstn_succ (xs : list cell) (i : nat) :
  (i < List.length xs)%nat ->
  firstn (S i) xs = (firstn i xs ++ [nth i xs None])%list.
Proof.
  revert i. induction xs as [|c t IH]; intros i Hi; simpl in Hi; [lia|].
  destruct i as [|i]; [reflexivity|].
  cbn [firstn nth app]. f_equal. apply IH. lia.
Qed.

Lemma skipn_cons_nth (xs : list cell) (i : nat) :
  (i < List.length xs)%nat -> skipn i xs = nth i xs None :: skipn (S i) xs.
Proof. intros Hi. symmetry. now apply skipn_nth_cons. Qed.

(** The window before row [i] is read, and after. *)
Lemma window_step (window : nat) (xs : list cell) (i : nat) :
  (1 <= window)%nat -> (i < List.length xs)%nat ->
  let before := skipn (i - window) (firstn i xs) in
  let leaving := nth (i - window) xs None in
  if (window <=? i)%nat
  then exists mid, before = leaving :: mid /\
                   trailing_window window i xs = (mid ++ [nth i xs None])%list
  else trailing_window window i xs = (before ++ [nth i xs None])%list.
Proof.
  intros HW Hi before leaving. unfold trailing_window.
  rewrite (firstn_succ xs i Hi).
  destruct (window <=? i)%nat eqn:E.
  - apply Nat.leb_le in E.
    exists (skipn (S (i - window)) (firstn i xs)). split.
    + unfold before, leaving.
      rewrite (skipn_cons_nth (firstn i xs) (i - window))
        by (rewrite length_firstn; lia).
      f_equal. rewrite nth_firstn.
      destruct (i - window <? i)%nat eqn:E'; [reflexivity|].
      apply Nat.ltb_ge in E'. lia.
    + replace (S i - window)%nat with (S (i - window)) by lia.
      rewrite skipn_app, length_firstn.
      replace (S (i - window) - Nat.min i (List.length xs))%nat with 0%nat
        by lia.
      reflexivity.
  - apply Nat.leb_gt in E. unfold before.
    replace (S i - window)%nat with 0%nat by lia.
    replace (i - window)%nat with 0%nat by lia. reflexivity.
Qed.

Lemma roll_from_length (window min_periods : nat) (xs rest : list cell) :
  forall i st,
    List.length (roll_from window min_periods xs i st rest) =
    List.length rest.
Proof.
  induction rest as [|c rest IH]; intros i st; simpl; [|rewrite IH];
    reflexivity.
Qed.

Lemma rolling_mean_length (window min_periods : nat) (xs : list cell) :
  List.length (rolling_mean window min_periods xs) = List.length xs.
Proof. apply roll_from_length. Qed.

Lemma roll_from_spec (window : nat) (xs : list cell) :
  (1 <= window)%nat ->
  forall rest i st,
    skipn i xs = rest ->
    tracks st (skipn (i - window) (firstn i xs)) ->
    forall j,
      (j < List.length rest)%nat ->
      cell_eq (nth j (roll_from window 1 xs i st rest) None)
        (nan_mean (trailing_window window (i + j) xs)).
Proof.
  intros HW. induction rest as [|c rest IH]; intros i st Hrest Hst j Hj;
    simpl in Hj; [lia|].
  assert (Hi : (i < List.length xs)%nat).
  { destruct (Nat.lt_ge_cases i (List.length xs)) as [H|H]; [exact H|].
    rewrite skipn_all2 in Hrest by exact H. discriminate. }
  rewrite (skipn_cons_nth xs i Hi) in Hrest. injection Hrest as Hc Hrest.
  cbn [roll_from].
  set (st1 := if (window <=? i)%nat
              then remove_mean st (nth (i - window) xs None) else st).
  assert (Hst' : tracks (add_mean st1 c) (trailing_window window i xs)).
  { pose proof (window_step window xs i HW Hi) as Hstep. cbv zeta in Hstep.
    unfold st1. destruct (window <=? i)%nat.
    - destruct Hstep as (mid & Hbefore & ->). rewrite Hc.
      apply tracks_add. apply tracks_remove. now rewrite <- Hbefore.
    - rewrite Hstep, Hc. now apply tracks_add. }
  destruct j as [|j].
  - rewrite Nat.add_0_r. cbn [nth]. now apply calc_mean_tracks.
  - cbn [nth]. replace (i + S j)%nat with (S i + j)%nat by lia.
    apply IH; [exact Hrest | exact Hst' | lia].
Qed.

Lemma rolling_mean_spec (window : nat) (xs : list cell) (i : nat) :
  (1 <= window)%nat -> (i < List.length xs)%nat ->
  cell_eq (nth i (rolling_mean window 1 xs) None)
    (nan_mean (trailing_window window i xs)).
Proof.
  intros HW Hi. unfold rolling_mean.
  apply (roll_from_spec window xs HW xs 0 (mkRoll 0 0)); try assumption.
  - reflexivity.
  - simpl. split; reflexivity.
Qed.

Lemma trailing_window_length (window : nat) (xs : list cell) (i : nat) :
  (i < List.length xs)%nat ->
  List.length (trailing_window window i xs) = Nat.min (S i) window.
Proof.
  intros Hi. unfold trailing_window. rewrite length_skipn, length_firstn. lia.
Qed.

End FeaturesTheory.

Module FeaturesClaims.
Import Features FeaturesSpec FeaturesTheory.
Local Open Scope Q_scope.

(** *** C8: angular difference *)

Lemma nth_error_combine {A B : Type} (l : list A) (l' : list B) (i : nat)
    (x : A) (y : B) :
  nth_error l i = Some x -> nth_error l' i = Some y ->
  nth_error (combine l l') i = Some (x, y).
Proof.
  revert l' i. induction l as [|u t IH]; intros [|v t'] [|i]; simpl;
    try discriminate.
  - now intros [= ->] [= ->].
  - apply IH.
Qed.

(** C8.  Where two columns hold angles [a1] and [a2] of [0, 360) on the same
    row, the result holds on that row [|a1 - a2|] when that is at most 180
    and [360 - |a1 - a2|] otherwise, a number of [0, 180]; and for 350 and
    10 it holds 20. *)
Theorem C8_angular_difference_wraps
    (angle1 angle2 : list cell) (i : nat) (a1 a2 : Q) :
  nth_error angle1 i = Some (Some a1) ->
  nth_error angle2 i = Some (Some a2) ->
  0 <= a1 /\ a1 < 360 ->
  0 <= a2 /\ a2 < 360 ->
  (exists d,
      nth_error (calculate_angular_difference angle1 angle2) i
      = Some (Some d) /\
      (Qabs (a1 - a2) <= 180 -> d == Qabs (a1 - a2)) /\
      (180 < Qabs (a1 - a2) -> d == 360 - Qabs (a1 - a2)) /\
      0 <= d /\ d <= 180) /\
  calculate_angular_difference [Some 350] [Some 10] = [Some 20].
Proof.
  intros H1 H2 [Ha1 Ha1'] [Ha2 Ha2']. split; [|reflexivity].
  unfold calculate_angular_difference.
  rewrite nth_error_map, nth_error_map,
    (nth_error_combine _ _ _ _ _ H1 H2).
  cbn [option_map fst snd sub_cell abs_cell gt_cell].
  assert (Hlt : Qabs (a1 - a2) < 360).
  { apply Qabs_Qlt_condition. split; Lqa.lra. }
  pose proof (Qabs_nonneg (a1 - a2)) as Hnn.
  destruct (Qlt_le_dec 180 (Qabs (a1 - a2))) as [Hgt|Hle].
  - eexists. split; [reflexivity|]. cbn [sub_cell].
    repeat split; intros; Lqa.lra.
  - eexists. split; [reflexivity|].
    repeat split; intros; Lqa.lra.
Qed.

Lemma C8_witness :
  exists d,
    nth_error (calculate_angular_difference [Some 350] [Some 10]) 0
    = Some (Some d) /\ d == 20 /\ 0 <= d /\ d <= 180.
Proof.
  destruct (C8_angular_difference_wraps [Some 350] [Some 10] 0 350 10)
    as [(d & Hd & _ & Hwrap & Hlo & Hhi) _]; try reflexivity.
  - split; [discriminate | reflexivity].
  - split; [discriminate | reflexivity].
  - exists d. split; [exact Hd|]. split; [|split; assumption].
    rewrite Hwrap by reflexivity. reflexivity.
Defined.

(** *** C4: speed and acceleration at the throw *)

(** C4.  The code misses what the claim and its own comment ("Forward fill
    within each group", line 164) say: in a group stored with its greatest
    frame_id first, the back-fill leaves the later row without a value, so
    the value at the throw is not on every row of the group.  The temporal
    step sorts the rows by frame_id before its order-dependent steps; this
    one does not. *)
Lemma C4_counterexample :
  let df := unsorted_group in
  let k := (1, 1, 7)%Z in
  speed_at_throw (engineer_kinematic_features df) = [Some 7; None] /\
  ~ replicates_value_at_max_frame s (rows_of k df)
      (group_of k (map key_of_row df)
         (speed_at_throw (engineer_kinematic_features df))).
Proof.
  intros df k. split; [reflexivity|]. intros [_ H].
  specialize (H (mkRow 1 1 7 2 (Some 7) (Some 2) (Some 4))).
  assert (Hin : In (mkRow 1 1 7 2 (Some 7) (Some 2) (Some 4)) (rows_of k df))
    by (now left).
  specialize (H Hin).
  assert (Hmax : forall r', In r' (rows_of k df) -> (frame_id r' <= 2)%Z).
  { intros r' [<-|[<-|[]]]; simpl; lia. }
  specialize (H Hmax 1%nat). cbn in H.
  assert (Hlt : (1 < 2)%nat) by lia. specialize (H Hlt). discriminate.
Qed.

Lemma single_row_group (df : list Row) (k : Key) (r : Row) (W : nat) :
  rows_of k df = [r] ->
  let t := engineer_temporal_features df W in
  group_of k (map key_of_row (sorted_df t)) (dist_change t) = [None].
Proof.
  intros Hg t. unfold t, engineer_temporal_features.
  cbn [sorted_df dist_change].
  rewrite (group_of_transform _ _ diff_length) by now rewrite !length_map.
  rewrite group_of_map, group_of_rows.
  assert (Hperm : Permutation (rows_of k (sort_values row_ltb df)) [r]).
  { rewrite <- Hg. apply Permutation_filter, sort_values_perm. }
  apply Permutation_sym, Permutation_length_1_inv in Hperm.
  now rewrite Hperm.
Qed.

(** Where the defect of C4 does not show.  In every group whose last row,
    in table order, is its only row at the group's greatest frame_id (in particular every group stored
    in strictly ascending frame_id order), [speed_at_throw] and
    [accel_at_throw] hold on every row of the group the speed and the
    acceleration of the row at the greatest frame_id; a group of exactly one
    row gets that row's own speed and acceleration, and its [dist_change] is
    missing. *)
Theorem C4_at_throw_value_on_every_row (df : list Row) (k : Key) :
  throw_row_last (rows_of k df) ->
  let keys := map key_of_row df in
  let out := engineer_kinematic_features df in
  replicates_value_at_max_frame s (rows_of k df)
    (group_of k keys (speed_at_throw out)) /\
  replicates_value_at_max_frame a (rows_of k df)
    (group_of k keys (accel_at_throw out)) /\
  forall r,
    rows_of k df = [r] ->
    group_of k keys (speed_at_throw out) = [s r] /\
    group_of k keys (accel_at_throw out) = [a r] /\
    forall min_frames,
      let t := engineer_temporal_features df min_frames in
      group_of k (map key_of_row (sorted_df t)) (dist_change t) = [None].
Proof.
  intros Hlast keys out. split; [|split].
  - now apply at_throw_replicates.
  - now apply at_throw_replicates.
  - intros r Hg. unfold out, keys, engineer_kinematic_features.
    cbn [speed_at_throw accel_at_throw].
    pose proof (at_throw_group s df k) as Hs.
    pose proof (at_throw_group a df k) as Ha.
    cbv zeta in Hs, Ha. rewrite Hs, Ha, Hg.
    cbn [map max_frame series_max fold_left bfill]. rewrite Z.eqb_refl.
    split; [now destruct (s r)|]. split; [now destruct (a r)|].
    intros W. now apply single_row_group with r.
Qed.

Lemma ascending_sorted_group : ascending_frames sorted_group.
Proof.
  unfold ascending_frames, sorted_group.
  repeat constructor; simpl; lia.
Qed.

(** A group of three frames in ascending order: the speed 8 of frame 3 is
    on every row. *)
Lemma C4_witness :
  let df := sorted_group in
  let k := (1, 1, 7)%Z in
  replicates_value_at_max_frame s (rows_of k df)
    (group_of k (map key_of_row df)
       (speed_at_throw (engineer_kinematic_features df))) /\
  group_of k (map key_of_row df)
    (speed_at_throw (engineer_kinematic_features df))
  = [Some 8; Some 8; Some 8].
Proof.
  intros df k. split; [|reflexivity].
  apply (C4_at_throw_value_on_every_row df k).
  apply ascending_throw_row_last; [exact ascending_sorted_group | discriminate].
Defined.

(** *** C3: closing rate and its rolling mean *)

Lemma temporal_groups (df : list Row) (min_frames : nat) (k : Key) :
  let out := engineer_temporal_features df min_frames in
  let keys := map key_of_row (sorted_df out) in
  let d := map dist_to_ball_landing (rows_of k (sorted_df out)) in
  group_of k keys (dist_change out) = diff d /\
  group_of k keys (closing_rate out) = map neg_cell (diff d) /\
  group_of k keys (closing_rate_smooth out) =
    rolling_mean min_frames 1 (map neg_cell (diff d)).
Proof.
  intros out keys d. subst out keys d. unfold engineer_temporal_features.
  cbn [sorted_df dist_change closing_rate closing_rate_smooth].
  set (sorted := sort_values row_ltb df).
  assert (Hd : group_of k (map key_of_row sorted)
                 (transform diff None (map key_of_row sorted)
                    (map dist_to_ball_landing sorted)) =
               diff (map dist_to_ball_landing (rows_of k sorted))).
  { rewrite (group_of_transform _ _ diff_length) by now rewrite !length_map.
    now rewrite group_of_map, group_of_rows. }
  split; [exact Hd|]. split.
  - now rewrite group_of_map, Hd.
  - rewrite (group_of_transform _ _ (rolling_mean_length min_frames 1)).
    + now rewrite group_of_map, Hd.
    + now rewrite !length_map, transform_length, length_map.
Qed.

(** C3, as stated, fails: the first closing rate of a group is missing, so
    the window of the second row holds one value, not two; the code returns
    that value, where the mean of the two entries is missing. *)
Lemma C3_counterexample :
  let out := engineer_temporal_features sorted_group 3 in
  let k := (1, 1, 7)%Z in
  let keys := map key_of_row (sorted_df out) in
  let cr := group_of k keys (closing_rate out) in
  let sm := group_of k keys (closing_rate_smooth out) in
  cr = [None; Some 1; Some 1] /\
  trailing_window 3 1 cr = [None; Some 1] /\
  cell_eq (nth 1 sm None) (Some 1) /\
  ~ cell_eq (nth 1 sm None) (arithmetic_mean (trailing_window 3 1 cr)).
Proof.
  cbv zeta. split; [reflexivity|]. split; [reflexivity|].
  split; [reflexivity|]. intros H. exact H.
Qed.

(** C3, amended.  The temporal features reorder the table, and then in
    every group the frame ids never go down, [closing_rate] is missing on
    the first row and is [-(dist[i] - dist[i-1])] on every later row, and
    [closing_rate_smooth] on row [i] is the mean of the closing rates that
    are not missing among the trailing [min (i+1) min_frames] rows of the
    group, and is missing when all of them are. *)
Theorem C3_closing_rate_and_rolling_mean
    (df : list Row) (min_frames : nat) (k : Key) :
  (1 <= min_frames)%nat ->
  let out := engineer_temporal_features df min_frames in
  let keys := map key_of_row (sorted_df out) in
  let g := rows_of k (sorted_df out) in
  let d := map dist_to_ball_landing g in
  let cr := group_of k keys (closing_rate out) in
  let sm := group_of k keys (closing_rate_smooth out) in
  Permutation (sorted_df out) df /\
  nondecreasing_frames g /\
  List.length cr = List.length g /\
  List.length sm = List.length g /\
  (forall i, (i < List.length g)%nat ->
             nth i cr None =
             match i with
             | O => None
             | S j => neg_cell (sub_cell (nth i d None) (nth j d None))
             end) /\
  (forall i, (i < List.length g)%nat ->
             List.length (trailing_window min_frames i cr)
             = Nat.min (S i) min_frames /\
             cell_eq (nth i sm None)
               (nan_mean (trailing_window min_frames i cr))).
Proof.
  intros HW out keys g d cr sm.
  destruct (temporal_groups df min_frames k) as (_ & Hcr & Hsm).
  fold out keys in Hcr, Hsm. fold g d in Hcr, Hsm. fold cr in Hcr, Hsm.
  fold sm in Hsm.
  assert (Hlen : List.length cr = List.length g).
  { rewrite Hcr. unfold d. now rewrite length_map, diff_length, length_map. }
  split; [apply sort_values_perm|].
  split; [apply sorted_group_nondecreasing|].
  split; [exact Hlen|]. split; [|split].
  - now rewrite Hsm, rolling_mean_length, <- Hcr.
  - intros i Hi. rewrite Hcr.
    assert (Hd : List.length d = List.length g) by (unfold d; apply length_map).
    destruct i as [|j].
    + destruct d; [simpl in Hd; lia | reflexivity].
    + rewrite (nth_indep _ None (neg_cell None))
        by (rewrite length_map, diff_length; lia).
      rewrite map_nth, diff_nth by lia. reflexivity.
  - intros i Hi. split.
    + apply trailing_window_length. lia.
    + rewrite Hsm, <- Hcr. apply rolling_mean_spec; [exact HW | lia].
Qed.

(** On the sample group: the second smoothed value is the one closing rate
    of its window, the third is the mean of two. *)
Lemma C3_witness :
  let out := engineer_temporal_features sorted_group 3 in
  let k := (1, 1, 7)%Z in
  let keys := map key_of_row (sorted_df out) in
  let cr := group_of k keys (closing_rate out) in
  let sm := group_of k keys (closing_rate_smooth out) in
  cell_eq (nth 1 sm None) (nan_mean (trailing_window 3 1 cr)) /\
  cell_eq (nth 2 sm None) (nan_mean (trailing_window 3 2 cr)) /\
  nan_mean (trailing_window 3 2 cr) = Some ((1 + (1 + 0)) / 2).
Proof.
  intros out k keys cr sm.
  assert (HW : (1 <= 3)%nat) by lia.
  pose proof (C3_closing_rate_and_rolling_mean sorted_group 3 k HW) as H.
  cbv zeta in H. destruct H as (_ & _ & _ & _ & _ & H).
  split; [|split].
  - apply (H 1%nat). simpl. lia.
  - apply (H 2%nat). simpl. lia.
  - reflexivity.
Defined.

End FeaturesClaims.

(** ** Play-level aggregation *)

Module AggregationTheory.
Import Features FeaturesSpec FeaturesTheory.
Local Open Scope Z_scope.

(** *** The order on keys *)

Lemma key_compare_Lt_spec (k k' : Key) :
  key_compare k k' = Lt <->
  (let '(g, p, n) := k in
   let '(g', p', n') := k' in
   g < g' \/ (g = g' /\ (p < p' \/ (p = p' /\ n < n')))).
Proof.
  destruct k as [[g p] n], k' as [[g' p'] n']. unfold key_compare.
  destruct (Z.compare_spec g g'); destruct (Z.compare_spec p p');
    destruct (Z.compare_spec n n'); split; intros; try discriminate;
    try reflexivity; lia.
Qed.

Lemma key_compare_Eq_spec (k k' : Key) : key_compare k k' = Eq <-> k = k'.
Proof.
  destruct k as [[g p] n], k' as [[g' p'] n']. unfold key_compare.
  destruct (Z.compare_spec g g'); destruct (Z.compare_spec p p');
    destruct (Z.compare_spec n n'); split; intros H'; try discriminate;
    try reflexivity; try (injection H' as -> -> ->); subst; try lia;
    reflexivity.
Qed.

Lemma key_compare_Gt_spec (k k' : Key) :
  key_compare k k' = Gt <-> key_lt k' k.
Proof.
  unfold key_lt. rewrite key_compare_Lt_spec.
  destruct k as [[g p] n], k' as [[g' p'] n']. unfold key_compare.
  destruct (Z.compare_spec g g'); destruct (Z.compare_spec p p');
    destruct (Z.compare_spec n n'); split; intros; try discriminate;
    try reflexivity; lia.
Qed.

Lemma key_lt_irrefl (k : Key) : ~ key_lt k k.
Proof.
  unfold key_lt. rewrite key_compare_Lt_spec. destruct k as [[g p] n]. lia.
Qed.

Lemma key_lt_trans (k1 k2 k3 : Key) :
  key_lt k1 k2 -> key_lt k2 k3 -> key_lt k1 k3.
Proof.
  unfold key_lt. rewrite !key_compare_Lt_spec.
  destruct k1 as [[g1 p1] n1], k2 as [[g2 p2] n2], k3 as [[g3 p3] n3]. lia.
Qed.

(** *** Groups held in ascending key order *)

Lemma upsert_keys (k : Key) (vals : list entry)
    (groups : list (Key * list entry)) (k' : Key) :
  In k' (map fst (upsert k vals groups)) <->
  k' = k \/ In k' (map fst groups).
Proof.
  induction groups as [|[k0 out] rest IH]; simpl.
  - intuition.
  - destruct (key_compare k k0) eqn:E; simpl.
    + apply key_compare_Eq_spec in E. subst. intuition.
    + intuition.
    + rewrite IH. intuition.
Qed.

Lemma upsert_ascending (k : Key) (vals : list entry)
    (groups : list (Key * list entry)) :
  ascending_keys groups -> ascending_keys (upsert k vals groups).
Proof.
  unfold ascending_keys.
  induction 1 as [|[k0 out] rest Hs IH Hall]; simpl.
  - repeat constructor.
  - destruct (key_compare k k0) eqn:E.
    + constructor; [exact Hs | exact Hall].
    + constructor; [now constructor|].
      constructor; [exact E|].
      rewrite Forall_forall in *. intros y Hy. simpl.
      apply key_lt_trans with k0; [exact E | now apply (Hall y)].
    + constructor; [exact IH|].
      rewrite Forall_forall in *. intros y Hy.
      assert (Hk : In (fst y) (map fst (upsert k vals rest)))
        by now apply in_map.
      apply upsert_keys in Hk. destruct Hk as [Hk|Hk].
      * simpl. rewrite Hk. now apply key_compare_Gt_spec.
      * apply in_map_iff in Hk. destruct Hk as (z & Hz & Hin).
        rewrite <- Hz. now apply (Hall z).
Qed.

Lemma lookup_cons (k k0 : Key) (out : list entry)
    (rest : list (Key * list entry)) :
  lookup k ((k0, out) :: rest) =
  if key_eqb k0 k then Some out else lookup k rest.
Proof. unfold lookup. simpl. now destruct (key_eqb k0 k). Qed.

Lemma lookup_absent (k : Key) (groups : list (Key * list entry)) :
  ~ In k (map fst groups) -> lookup k groups = None.
Proof.
  induction groups as [|[k0 out] rest IH]; intros Hnot; [reflexivity|].
  rewrite lookup_cons. destruct (key_eqb k0 k) eqn:E.
  - apply key_eqb_eq in E. subst. exfalso. apply Hnot. now left.
  - apply IH. intros Hin. apply Hnot. now right.
Qed.

Lemma lookup_present (k : Key) (groups : list (Key * list entry)) :
  In k (map fst groups) -> exists vals, lookup k groups = Some vals.
Proof.
  induction groups as [|[k0 out] rest IH]; intros Hin; [contradiction|].
  rewrite lookup_cons. destruct (key_eqb k0 k) eqn:E; [now eexists|].
  destruct Hin as [Hk|Hin]; [|now apply IH].
  simpl in Hk. subst. now rewrite key_eqb_refl in E.
Qed.

Lemma ascending_head_absent (k0 : Key) (out : list entry)
    (rest : list (Key * list entry)) (k : Key) :
  ascending_keys ((k0, out) :: rest) ->
  key_lt k k0 \/ k = k0 -> ~ In k (map fst rest).
Proof.
  intros Hs Hk Hin. apply StronglySorted_inv in Hs. destruct Hs as [_ Hall].
  rewrite Forall_forall in Hall. apply in_map_iff in Hin.
  destruct Hin as (z & Hz & Hin). specialize (Hall z Hin). simpl in Hall.
  rewrite Hz in Hall. destruct Hk as [Hk| ->].
  - apply (key_lt_irrefl k). now apply key_lt_trans with k0.
  - now apply (key_lt_irrefl k0).
Qed.

Lemma lookup_In (k : Key) (vals : list entry)
    (groups : list (Key * list entry)) :
  ascending_keys groups ->
  In (k, vals) groups -> lookup k groups = Some vals.
Proof.
  induction groups as [|[k0 out] rest IH]; intros Hs Hin; [contradiction|].
  rewrite lookup_cons. destruct Hin as [[= -> ->]|Hin].
  - now rewrite key_eqb_refl.
  - destruct (key_eqb k0 k) eqn:E.
    + apply key_eqb_eq in E. subst. exfalso.
      apply (ascending_head_absent k out rest k Hs); [now right|].
      apply in_map_iff. now exists (k, vals).
    + apply IH; [|exact Hin]. now apply StronglySorted_inv in Hs.
Qed.

Lemma lookup_upsert (k : Key) (vals : list entry)
    (groups : list (Key * list entry)) (k' : Key) :
  ascending_keys groups ->
  lookup k' (upsert k vals groups) =
  if key_eqb k k'
  then Some (match lookup k groups with
             | Some out => merge_rows out vals
             | None => vals
             end)
  else lookup k' groups.
Proof.
  induction groups as [|[k0 out] rest IH]; intros Hs.
  - simpl. rewrite lookup_cons. reflexivity.
  - cbn [upsert]. destruct (key_compare k k0) eqn:E.
    + apply key_compare_Eq_spec in E. subst k0.
      rewrite !lookup_cons, key_eqb_refl. now destruct (key_eqb k k').
    + rewrite (lookup_cons k' k).
      destruct (key_eqb k k') eqn:Ek; [|reflexivity].
      rewrite lookup_absent; [reflexivity|].
      intros [Hk|Hin].
      * simpl in Hk. subst. now apply (key_lt_irrefl k).
      * apply (ascending_head_absent k0 out rest k Hs); [now left | exact Hin].
    + assert (Hne : key_eqb k0 k = false).
      { destruct (key_eqb k0 k) eqn:E'; [|reflexivity].
        apply key_eqb_eq in E'. subst.
        apply key_compare_Gt_spec in E. now apply key_lt_irrefl in E. }
      rewrite !lookup_cons, Hne.
      rewrite IH by now apply StronglySorted_inv in Hs.
      destruct (key_eqb k0 k') eqn:E0; [|reflexivity].
      apply key_eqb_eq in E0. subst k'. rewrite key_eqb_sym, Hne. reflexivity.
Qed.

Lemma ascending_keys_NoDup (groups : list (Key * list entry)) :
  ascending_keys groups -> NoDup (map fst groups).
Proof.
  induction groups as [|[k0 out] rest IH]; intros Hs; simpl; [constructor|].
  constructor.
  - apply (ascending_head_absent k0 out rest k0 Hs). now right.
  - apply IH. now apply StronglySorted_inv in Hs.
Qed.

(** *** First entries that are not missing *)

Lemma first_valid_app (l : list entry) (c : entry) :
  first_valid (l ++ [c]) = first_valid_merge (first_valid l) c.
Proof.
  induction l as [|[v|] t IH]; simpl.
  - now destruct c.
  - reflexivity.
  - exact IH.
Qed.

Lemma merge_rows_map (F H : string -> entry) (cols : list string) :
  merge_rows (map F cols) (map H cols) =
  map (fun c => first_valid_merge (F c) (H c)) cols.
Proof. induction cols as [|c t IH]; simpl; [|rewrite IH]; reflexivity. Qed.

Lemma frame_rows_of_app (k : Key) (l l' : list FrameRow) :
  frame_rows_of k (l ++ l') = (frame_rows_of k l ++ frame_rows_of k l')%list.
Proof. apply filter_app. Qed.

Lemma frame_rows_of_nil_iff (k : Key) (table : list FrameRow) :
  frame_rows_of k table = [] <-> ~ In k (map row_key table).
Proof.
  unfold frame_rows_of. induction table as [|r t IH]; simpl.
  - intuition.
  - destruct (key_eqb (row_key r) k) eqn:E.
    + apply key_eqb_eq in E. split; [discriminate|]. intros H. exfalso.
      apply H. now left.
    + rewrite IH. split.
      * intros H [Hk|Hin]; [|now apply H]. subst.
        now rewrite key_eqb_refl in E.
      * intros H Hin. apply H. now right.
Qed.

(** *** The pass over the table *)

Lemma group_first_snoc (cols : list string) (table : list FrameRow)
    (r : FrameRow) :
  group_first cols (table ++ [r]) =
  upsert (row_key r) (map (fun c => column c r) cols)
    (group_first cols table).
Proof. unfold group_first. now rewrite fold_left_app. Qed.

Lemma frame_rows_of_snoc (k : Key) (table : list FrameRow) (r : FrameRow) :
  frame_rows_of k (table ++ [r]) =
  if key_eqb (row_key r) k
  then (frame_rows_of k table ++ [r])%list
  else frame_rows_of k table.
Proof.
  rewrite frame_rows_of_app. unfold frame_rows_of at 2. cbn [filter].
  destruct (key_eqb (row_key r) k); [reflexivity | apply app_nil_r].
Qed.

Lemma summary_snoc_same (cols : list string) (table : list FrameRow)
    (r : FrameRow) :
  summary cols (table ++ [r]) (row_key r) =
  Some (match summary cols table (row_key r) with
        | Some out => merge_rows out (map (fun c => column c r) cols)
        | None => map (fun c => column c r) cols
        end).
Proof.
  unfold summary. rewrite frame_rows_of_snoc, key_eqb_refl.
  destruct (frame_rows_of (row_key r) table) as [|r0 g0].
  - cbn [app]. f_equal. apply map_ext. intros c. simpl.
    now destruct (column c r).
  - rewrite (merge_rows_map
               (fun c => first_valid (map (column c) (r0 :: g0)))
               (fun c => column c r)).
    cbn [app]. f_equal. apply map_ext. intros c.
    change (r0 :: (g0 ++ [r]))%list with ((r0 :: g0) ++ [r])%list.
    rewrite map_app. change (map (column c) [r]) with [column c r].
    now rewrite first_valid_app.
Qed.

Lemma summary_snoc_other (cols : list string) (table : list FrameRow)
    (r : FrameRow) (k : Key) :
  key_eqb (row_key r) k = false ->
  summary cols (table ++ [r]) k = summary cols table k.
Proof. intros E. unfold summary. now rewrite frame_rows_of_snoc, E. Qed.

Lemma group_first_spec (cols : list string) (table : list FrameRow) :
  ascending_keys (group_first cols table) /\
  forall k, lookup k (group_first cols table) = summary cols table k.
Proof.
  induction table as [|r table [IHs IHl]] using rev_ind.
  - split; [constructor | reflexivity].
  - rewrite group_first_snoc. split; [now apply upsert_ascending|].
    intros k. rewrite (lookup_upsert _ _ _ _ IHs), !IHl.
    destruct (key_eqb (row_key r) k) eqn:E.
    + apply key_eqb_eq in E. subst k. now rewrite summary_snoc_same.
    + now rewrite summary_snoc_other.
Qed.

Lemma group_first_keys (cols : list string) (table : list FrameRow)
    (k : Key) :
  In k (map fst (group_first cols table)) <-> In k (map row_key table).
Proof.
  destruct (group_first_spec cols table) as [_ Hl]. specialize (Hl k).
  unfold summary in Hl. split; intros Hin.
  - destruct (lookup_present _ _ Hin) as [vals Hv]. rewrite Hv in Hl.
    destruct (frame_rows_of k table) eqn:E; [discriminate|].
    destruct (in_dec Key_eq_dec k (map row_key table)) as [H|H]; [exact H|].
    apply frame_rows_of_nil_iff in H. congruence.
  - destruct (in_dec Key_eq_dec k (map fst (group_first cols table)))
      as [H|H]; [exact H|].
    rewrite (lookup_absent _ _ H) in Hl.
    destruct (frame_rows_of k table) eqn:E; [|discriminate].
    apply frame_rows_of_nil_iff in E. contradiction.
Qed.

Lemma group_first_entries (cols : list string) (table : list FrameRow)
    (k : Key) (vals : list entry) :
  In (k, vals) (group_first cols table) ->
  vals = map (fun c => first_valid (map (column c) (frame_rows_of k table)))
           cols.
Proof.
  destruct (group_first_spec cols table) as [Hs Hl]. intros Hin.
  apply (lookup_In _ _ _ Hs) in Hin. rewrite Hl in Hin. unfold summary in Hin.
  destruct (frame_rows_of k table); [discriminate|]. now injection Hin.
Qed.

Lemma group_first_count (cols : list string) (table : list FrameRow) :
  List.length (group_first cols table) = List.length (distinct_keys table).
Proof.
  rewrite <- (length_map fst). apply Permutation_length.
  apply NoDup_Permutation.
  - apply ascending_keys_NoDup, group_first_spec.
  - apply NoDup_nodup.
  - intros k. unfold distinct_keys. rewrite nodup_In.
    apply group_first_keys.
Qed.

End AggregationTheory.

Module AggregationClaims.
Import Features FeaturesSpec FeaturesTheory AggregationTheory.
Local Open Scope string_scope.

(** *** C9: one play-level row per (game_id, play_id, nfl_id) *)

(** C9, as stated, fails where a group's first row has a missing entry and a
    later row has not: the aggregate holds the later entry, not the entry of
    the first row. *)
Lemma C9_counterexample :
  let cols := agg_columns (columns gap_table) in
  let k := (1, 1, 7)%Z in
  cols = ["game_id"; "play_id"; "nfl_id"; "speed_at_throw"] /\
  create_play_level_dataset gap_table
  = [[Some (Num 1); Some (Num 1); Some (Num 7); Some (Num 7)]] /\
  map (fun c => first_value (map (column c) (frame_rows_of k (rows gap_table))))
    cols
  = [Some (Num 1); Some (Num 1); Some (Num 7); None] /\
  ~ (forall vals,
        In (k, vals) (group_first cols (rows gap_table)) ->
        vals = map (fun c => first_value
                               (map (column c)
                                  (frame_rows_of k (rows gap_table))))
                 cols).
Proof.
  cbv zeta. split; [reflexivity|]. split; [reflexivity|].
  split; [reflexivity|]. intros H.
  specialize (H [Some (Num 1); Some (Num 1); Some (Num 7); Some (Num 7)]
                (or_introl eq_refl)).
  discriminate.
Qed.

(** C9, amended.  The play-level table has one row per distinct
    (game_id, play_id, nfl_id) of the frame-level table, so as many rows as
    there are distinct triples; and in the row of a group every retained
    column holds the first entry, in table order within the group, that is
    not missing (and is missing when the column is missing throughout the
    group). *)
Theorem C9_one_row_per_triple_first_valid_entry (df : FrameTable) :
  let cols := agg_columns (columns df) in
  let groups := group_first cols (rows df) in
  create_play_level_dataset df = map snd groups /\
  List.length (create_play_level_dataset df)
  = List.length (distinct_keys (rows df)) /\
  NoDup (map fst groups) /\
  (forall k, In k (map fst groups) <-> In k (map row_key (rows df))) /\
  (forall k vals,
      In (k, vals) groups ->
      vals = map (fun c => first_valid
                             (map (column c) (frame_rows_of k (rows df))))
               cols).
Proof.
  intros cols groups. split; [reflexivity|]. split; [|split; [|split]].
  - unfold create_play_level_dataset. rewrite length_map.
    apply group_first_count.
  - apply ascending_keys_NoDup, group_first_spec.
  - intros k. apply group_first_keys.
  - intros k vals. apply group_first_entries.
Qed.

End AggregationClaims.

(** ** The separation finder, further *)

Module SeparationExtras.
Import Separation SeparationSpec SeparationTheory SeparationClaims.
Import SeparationNotions.
Local Open Scope R_scope.
Local Open Scope string_scope.
Local Open Scope exc_scope.

(** *** Counting and least elements *)

Lemma count_le_mono {A : Type} (key : A -> R) (c c' : R) (l : list A) :
  c <= c' -> (count_le key c l <= count_le key c' l)%nat.
Proof.
  intros Hc. unfold count_le. induction l as [|a t IH]; simpl; [lia|].
  destruct (Rle_dec (key a) c) as [H|H], (Rle_dec (key a) c') as [H'|H'];
    simpl; try lia. lra.
Qed.

Lemma count_le_pos {A : Type} (key : A -> R) (c : R) (l : list A) :
  (1 <= count_le key c l)%nat <-> exists a, In a l /\ key a <= c.
Proof.
  unfold count_le. induction l as [|a t IH]; simpl.
  - split; [lia | intros (a & [] & _)].
  - destruct (Rle_dec (key a) c) as [H|H]; simpl.
    + split; [intros _; exists a; auto | lia].
    + rewrite IH. split.
      * intros (b & Hb & Hk). exists b. auto.
      * intros (b & [<-|Hb] & Hk); [contradiction | exists b; auto].
Qed.

Lemma fold_Rmin_spec (l : list R) :
  forall v, In (fold_left Rmin l v) (v :: l) /\
            forall w, In w (v :: l) -> fold_left Rmin l v <= w.
Proof.
  induction l as [|u t IH]; intros v; simpl.
  - split; [now left | intros w [<-|[]]; lra].
  - destruct (IH (Rmin v u)) as [Hin Hle]. split.
    + destruct Hin as [Hin|Hin]; [|now right; right].
      rewrite <- Hin. unfold Rmin. destruct (Rle_dec v u); auto.
    + intros w Hw.
      assert (Hm : fold_left Rmin t (Rmin v u) <= Rmin v u)
        by (apply Hle; now left).
      destruct Hw as [<-|[<-|Hw]].
      * pose proof (Rmin_l v u). lra.
      * pose proof (Rmin_r v u). lra.
      * apply Hle. now right.
Qed.

Lemma snap_rows_spec (play_data : list Frame) (f0 : Frame) (fs : list Frame) :
  play_data = f0 :: fs ->
  let k := series_min (frame_id f0) (map frame_id fs) in
  is_min_frame_id k play_data /\
  snap_rows play_data = filter (at_frame k) play_data.
Proof.
  intros -> k. split; [|reflexivity].
  destruct (series_min_le (map frame_id fs) (frame_id f0)) as [H0 Hs].
  split.
  - assert (Hin : In k (frame_id f0 :: map frame_id fs)).
    { unfold k, series_min. clear. generalize (frame_id f0) as v.
      induction (map frame_id fs) as [|c t IH]; intros v; simpl.
      - now left.
      - destruct (IH (Z.min v c)) as [H|H]; [|tauto].
        rewrite <- H. destruct (Z.min_spec v c) as [[_ ->]|[_ ->]]; tauto. }
    destruct Hin as [H|H].
    + exists f0. split; [now left | exact H].
    + apply in_map_iff in H. destruct H as (f & Hf & Hin).
      exists f. split; [now right | exact Hf].
  - intros f [<-|Hf]; [exact H0 | apply Hs; now apply in_map].
Qed.

(** *** X1: the two counts and the separation *)

(** X1.  In every record of the result the separation is not negative, the
    count within 3 yards is at most the count within 5, and each count is
    positive exactly when the separation is within its radius. *)
Theorem X1_counts_agree_with_separation
    (tracking_df : list Frame) (supp_df : list SuppRow)
    (results : list SeparationRecord) (r : SeparationRecord) :
  find_nearest_defender tracking_df supp_df = Ok results ->
  In r results ->
  0 <= separation_at_throw r /\
  (defenders_within_3yd r <= defenders_within_5yd r)%nat /\
  ((1 <= defenders_within_3yd r)%nat <-> separation_at_throw r <= 3) /\
  ((1 <= defenders_within_5yd r)%nat <-> separation_at_throw r <= 5).
Proof.
  intros Hrun Hin.
  pose proof (emitted_by_its_play _ _ _ _ Hrun Hin) as H.
  apply process_play_inv in H.
  destruct H as (t & rcv & rest & d & ds & _ & _ & _ & ->).
  unfold record_of.
  cbn [separation_at_throw defenders_within_3yd defenders_within_5yd].
  set (dist := fun f => distance (x rcv) (y rcv) (x f) (y f)).
  assert (Hiff : forall c, (1 <= count_le dist c (d :: ds))%nat <->
                           dist (min_from dist d ds) <= c).
  { intros c. rewrite count_le_pos. split.
    - intros (a & Ha & Hk).
      pose proof (min_from_le dist ds d a Ha). lra.
    - intros Hk. exists (min_from dist d ds).
      split; [apply min_from_In | exact Hk]. }
  split; [apply distance_nonneg|]. split; [apply count_le_mono; lra|].
  split; apply Hiff.
Qed.

Lemma X1_witness :
  0 <= separation_at_throw demo_record /\
  (defenders_within_3yd demo_record <= defenders_within_5yd demo_record)%nat /\
  ((1 <= defenders_within_3yd demo_record)%nat <->
   separation_at_throw demo_record <= 3).
Proof.
  destruct (X1_counts_agree_with_separation
              demo_tracking [mkSupp 1 1 (Some "GO")] [demo_record]
              demo_record demo_run (or_introl eq_refl))
    as (H1 & H2 & H3 & _).
  split; [exact H1 | split; [exact H2 | exact H3]].
Defined.

(** *** X2: the coverage cushion *)

(** X2.  In every record of the result, [separation_change] is missing
    exactly when [coverage_cushion] is; a cushion that is not missing is the
    least distance from a row of the receiver at the play's least frame_id
    to the defensive-side rows at that frame, and the change is the
    separation at the throw minus the cushion; a missing cushion means that
    the least frame holds no row of the receiver or no defensive-side
    row. *)
Theorem X2_cushion_is_least_distance_at_snap
    (tracking_df : list Frame) (supp_df : list SuppRow)
    (results : list SeparationRecord) (r : SeparationRecord) :
  find_nearest_defender tracking_df supp_df = Ok results ->
  In r results ->
  let play_data := play_rows tracking_df (res_game_id r) (res_play_id r) in
  (coverage_cushion r = None <-> separation_change r = None) /\
  (forall c,
      coverage_cushion r = Some c ->
      separation_change r = Some (separation_at_throw r - c) /\
      exists k rcv,
        is_min_frame_id k play_data /\
        In rcv play_data /\ frame_id rcv = k /\
        nfl_id rcv = receiver_nfl_id r /\
        (exists d, In d (defenders_at k play_data) /\
                   distance (x rcv) (y rcv) (x d) (y d) = c) /\
        (forall d, In d (defenders_at k play_data) ->
                   c <= distance (x rcv) (y rcv) (x d) (y d))) /\
  (coverage_cushion r = None ->
   exists k,
     is_min_frame_id k play_data /\
     ((forall f, In f play_data -> frame_id f = k ->
                 nfl_id f <> receiver_nfl_id r) \/
      defenders_at k play_data = [])).
Proof.
  intros Hrun Hin play_data.
  pose proof (emitted_by_its_play _ _ _ _ Hrun Hin) as H.
  apply process_play_inv in H. fold play_data in H.
  destruct H as (t & rcv & rest & d & ds & _ & Hr & _ & Hrec).
  destruct play_data as [|f0 fs] eqn:Epd; [discriminate Hr|].
  destruct (snap_rows_spec (f0 :: fs) f0 fs eq_refl) as [Hmin Hrows].
  cbv zeta in Hmin, Hrows.
  set (k := series_min (frame_id f0) (map frame_id fs)) in *.
  rewrite Hrec. unfold record_of.
  cbn [coverage_cushion separation_change separation_at_throw
         receiver_nfl_id].
  rewrite Hrows.
  set (sep := distance (x rcv) (y rcv) _ _).
  assert (Hdef : filter (is_side "Defense") (filter (at_frame k) (f0 :: fs))
                 = defenders_at k (f0 :: fs)).
  { unfold defenders_at. apply filter_filter. }
  destruct (filter (has_id (cand_nfl_id t)) (filter (at_frame k) (f0 :: fs)))
    as [|s ss] eqn:Es.
  - cbn [cushion option_map]. split; [tauto|]. split; [discriminate|].
    intros _. exists k. split; [exact Hmin|]. left. intros f Hf Hk Hid.
    assert (Hin' : In f (filter (has_id (cand_nfl_id t))
                           (filter (at_frame k) (f0 :: fs)))).
    { rewrite !filter_In. unfold at_frame, has_id.
      rewrite !Z.eqb_eq. auto. }
    rewrite Es in Hin'. contradiction.
  - unfold cushion. rewrite Hdef.
    destruct (defenders_at k (f0 :: fs)) as [|e es] eqn:Ee.
    + cbn [option_map]. split; [tauto|]. split; [discriminate|].
      intros _. exists k. split; [exact Hmin|]. now right.
    + cbn [option_map]. split; [split; discriminate|].
      split; [|discriminate]. intros c [= <-]. split; [reflexivity|].
      exists k, s. rewrite Ee.
      assert (Hs : In s (filter (has_id (cand_nfl_id t))
                           (filter (at_frame k) (f0 :: fs))))
        by (rewrite Es; now left).
      rewrite !filter_In in Hs. destruct Hs as [[Hs Hk] Hid].
      unfold at_frame in Hk. unfold has_id in Hid.
      rewrite Z.eqb_eq in Hk, Hid.
      set (dist := fun f => distance (x s) (y s) (x f) (y f)).
      destruct (fold_Rmin_spec (map dist es) (dist e)) as [Hfin Hfle].
      split; [exact Hmin|]. split; [exact Hs|]. split; [exact Hk|].
      split; [exact Hid|]. split.
      * change (dist e :: map dist es) with (map dist (e :: es)) in Hfin.
        apply in_map_iff in Hfin. destruct Hfin as (d' & Hd' & Hin').
        exists d'. split; [exact Hin' | exact Hd'].
      * intros d' Hd'.
        change (distance (x s) (y s) (x d') (y d')) with (dist d').
        apply Hfle.
        change (dist e :: map dist es) with (map dist (e :: es)).
        now apply in_map.
Qed.

Lemma X2_witness :
  separation_change demo_record = Some (separation_at_throw demo_record - 6).
Proof.
  pose proof (X2_cushion_is_least_distance_at_snap
                demo_tracking [mkSupp 1 1 (Some "GO")] [demo_record]
                demo_record demo_run (or_introl eq_refl)) as H.
  cbv zeta in H. destruct H as (_ & H & _).
  destruct (H 6 eq_refl) as [Hc _]. exact Hc.
Defined.

(** *** X3: the records follow the supplementary table *)

Lemma Subseq_refl {A : Type} (l : list A) : Subseq l l.
Proof. induction l; [constructor | now apply Subseq_keep]. Qed.


Lemma Subseq_length {A : Type} (l l' : list A) :
  Subseq l l' -> (List.length l <= List.length l')%nat.
Proof. induction 1; simpl; lia. Qed.

Lemma Subseq_In {A : Type} (l l' : list A) (a : A) :
  Subseq l l' -> In a l -> In a l'.
Proof.
  induction 1 as [|b l l' _ IH|b l l' _ IH]; intros Hin.
  - exact Hin.
  - right. now apply IH.
  - destruct Hin as [<-|Hin]; [now left | right; now apply IH].
Qed.


Lemma emitted_play_of (tracking_df : list Frame) (p : Z * Z * string) :
  emitted tracking_df p = [] \/
  exists r, emitted tracking_df p = [r] /\ play_of r = p.
Proof.
  unfold emitted. destruct p as [[g pl] rt].
  destruct (process_play tracking_df (g, pl, rt)) as [[r|]|] eqn:E;
    [right | now left | now left].
  exists r. split; [reflexivity|]. apply process_play_inv in E.
  destruct E as (t & rcv & rest & d & ds & _ & _ & _ & ->). reflexivity.
Qed.

Lemma targeted_route_nonempty (supp_df : list SuppRow) (g pl : Z)
    (rt : string) :
  In (g, pl, rt) (targeted_plays supp_df) -> rt <> "".
Proof.
  unfold targeted_plays. rewrite in_flat_map. intros (s & _ & Hin).
  destruct (route_of_targeted_receiver s) as [r|]; [|contradiction].
  destruct (String.eqb r "") eqn:E; [contradiction|].
  destruct Hin as [[= _ _ <-]|[]]. now apply String.eqb_neq.
Qed.

(** X3.  The records of the result are in the order of the rows of the
    supplementary table that carry a route: the (game_id, play_id, route) of
    the records, read in order, is what is left of those rows when the plays
    passed over are taken out.  So there are at most as many records as
    supplementary rows, and no record has an empty route. *)
Theorem X3_records_follow_supplementary_rows
    (tracking_df : list Frame) (supp_df : list SuppRow)
    (results : list SeparationRecord) :
  find_nearest_defender tracking_df supp_df = Ok results ->
  Subseq (map play_of results) (targeted_plays supp_df) /\
  (List.length results <= List.length supp_df)%nat /\
  (forall r, In r results -> route r <> "").
Proof.
  rewrite find_nearest_defender_spec. intros [= <-].
  assert (Hsub : Subseq (map play_of
                           (flat_map (emitted tracking_df)
                              (targeted_plays supp_df)))
                   (targeted_plays supp_df)).
  { induction (targeted_plays supp_df) as [|p rest IH]; simpl;
      [constructor|].
    destruct (emitted_play_of tracking_df p) as [->|(r & -> & Hr)]; simpl.
    - now apply Subseq_skip.
    - rewrite Hr. now apply Subseq_keep. }
  split; [exact Hsub|]. split.
  - apply Subseq_length in Hsub. rewrite length_map in Hsub.
    assert (Hle : (List.length (targeted_plays supp_df)
                   <= List.length supp_df)%nat).
    { clear. unfold targeted_plays.
      induction supp_df as [|s t IH]; [simpl; lia|].
      cbn [flat_map]. rewrite length_app. cbn [List.length].
      destruct (route_of_targeted_receiver s) as [rt|];
        [destruct (String.eqb rt "")|]; cbn [List.length]; lia. }
    lia.
  - intros r Hr.
    assert (Hin : In (play_of r) (targeted_plays supp_df)).
    { apply (Subseq_In _ _ _ Hsub). now apply in_map. }
    now apply (targeted_route_nonempty supp_df (res_game_id r)
                 (res_play_id r)).
Qed.

Lemma X3_witness :
  Subseq (map play_of [demo_record]) (targeted_plays [mkSupp 1 1 (Some "GO")])
  /\ route demo_record <> "".
Proof.
  destruct (X3_records_follow_supplementary_rows
              demo_tracking [mkSupp 1 1 (Some "GO")] [demo_record] demo_run)
    as (H1 & _ & H3).
  split; [exact H1 | apply H3; now left].
Defined.

(** *** X4: the run over two tables, one after the other *)

(** X4.  The run over a supplementary table made of two parts returns the
    records of the first part followed by the records of the second; no
    play changes what another play yields. *)
Theorem X4_run_distributes_over_concatenation
    (tracking_df : list Frame) (supp1 supp2 : list SuppRow) :
  exists results1 results2,
    find_nearest_defender tracking_df supp1 = Ok results1 /\
    find_nearest_defender tracking_df supp2 = Ok results2 /\
    find_nearest_defender tracking_df (supp1 ++ supp2)
    = Ok (results1 ++ results2)%list.
Proof.
  do 2 eexists. rewrite !find_nearest_defender_spec.
  split; [reflexivity|]. split; [reflexivity|].
  unfold targeted_plays. now rewrite !flat_map_app.
Qed.

(** *** X5: ties between candidates *)







Lemma Subseq_map {A B : Type} (h : A -> B) (l l' : list A) :
  Subseq l l' -> Subseq (map h l) (map h l').
Proof.
  induction 1; simpl;
    [constructor | now apply Subseq_skip | now apply Subseq_keep].
Qed.









(** *** X6: who is in a record *)

Lemma candidate_row (offense : list Frame) (id : Z) (c : Candidate) :
  candidate offense id = Some c ->
  exists f, In f offense /\ nfl_id f = cand_nfl_id c /\
            player_position f = cand_position c /\
            player_name f = cand_name c /\
            is_receiver_position (cand_position c) = true.
Proof.
  unfold candidate.
  destruct (List.length (frames_of offense id) <? 2)%nat; [discriminate|].
  destruct (first_by frame_ltb (frames_of offense id)) as [a|] eqn:Ea;
    [|discriminate].
  destruct (last_by frame_ltb (frames_of offense id)) as [b|]; [|discriminate].
  destruct (is_receiver_position (player_position a)) eqn:Epos; [|discriminate].
  intros [= <-]. exists a. cbn.
  apply first_by_In in Ea. unfold frames_of in Ea. apply filter_In in Ea.
  destruct Ea as [Hin Hid]. unfold has_id in Hid. apply Z.eqb_eq in Hid.
  auto.
Qed.

(** X6.  In every record of the result the receiver's position is WR, TE,
    RB or FB, and the receiver's id, name and position are read on one
    offensive-side row of the play; the nearest defender's id, name and
    position are read on one defensive-side row at the throw frame, the one
    whose distance to the receiver is the separation. *)
Theorem X6_receiver_and_defender_sides
    (tracking_df : list Frame) (supp_df : list SuppRow)
    (results : list SeparationRecord) (r : SeparationRecord) :
  find_nearest_defender tracking_df supp_df = Ok results ->
  In r results ->
  let play_data := play_rows tracking_df (res_game_id r) (res_play_id r) in
  In (receiver_position r) receiver_positions /\
  (exists f, In f play_data /\ player_side f = "Offense" /\
             nfl_id f = receiver_nfl_id r /\
             player_name f = receiver_name r /\
             player_position f = receiver_position r) /\
  (exists d, In d play_data /\ player_side d = "Defense" /\
             frame_id d = throw_frame_id r /\
             nfl_id d = nearest_defender_id r /\
             player_name d = nearest_defender_name r /\
             player_position d = nearest_defender_position r /\
             distance (receiver_x r) (receiver_y r) (x d) (y d)
             = separation_at_throw r).
Proof.
  intros Hrun Hin play_data.
  pose proof (emitted_by_its_play _ _ _ _ Hrun Hin) as H.
  apply process_play_inv in H. fold play_data in H.
  destruct H as (t & rcv & rest & d & ds & Ht & Hr & Hd & Hrec).
  destruct (select_target_inv _ _ Ht) as [Hc _].
  apply candidates_In in Hc. destruct Hc as (id & _ & Hc).
  apply candidate_row in Hc.
  destruct Hc as (f & Hf & Hid & Hpos & Hname & Hallow).
  unfold offensive_players in Hf. apply filter_In in Hf.
  destruct Hf as [Hf Hside]. unfold is_side in Hside.
  apply String.eqb_eq in Hside.
  destruct play_data as [|f0 fs] eqn:Epd; [discriminate Hr|].
  cbn [throw_rows] in Hd.
  set (dist := fun f => distance (x rcv) (y rcv) (x f) (y f)).
  assert (Hn : In (min_from dist d ds)
                 (filter (is_side "Defense")
                    (filter (at_frame
                               (series_max (frame_id f0) (map frame_id fs)))
                       (f0 :: fs))))
    by (rewrite Hd; apply min_from_In).
  rewrite !filter_In in Hn. destruct Hn as [[Hn Hk] Hs].
  unfold at_frame in Hk. apply Z.eqb_eq in Hk.
  unfold is_side in Hs. apply String.eqb_eq in Hs.
  rewrite Hrec. unfold record_of.
  cbn [receiver_position receiver_nfl_id receiver_name throw_frame_id
         nearest_defender_id nearest_defender_name nearest_defender_position
         receiver_x receiver_y separation_at_throw].
  split; [|split].
  - unfold is_receiver_position in Hallow. apply existsb_exists in Hallow.
    destruct Hallow as (p & Hp & Heq). apply String.eqb_eq in Heq.
    now rewrite Heq.
  - exists f. auto.
  - exists (min_from dist d ds). repeat split; auto.
Qed.

Lemma X6_witness :
  In (receiver_position demo_record) receiver_positions /\
  exists d, In d (play_rows demo_tracking 1 1) /\
            player_side d = "Defense" /\
            nfl_id d = nearest_defender_id demo_record.
Proof.
  destruct (X6_receiver_and_defender_sides
              demo_tracking [mkSupp 1 1 (Some "GO")] [demo_record]
              demo_record demo_run (or_introl eq_refl))
    as (H1 & _ & (d & Hd & Hs & _ & Hid & _)).
  split; [exact H1|]. exists d. auto.
Defined.

End SeparationExtras.

(** ** The other columns of the feature engineering *)

Module FeatureExtras.
Import Features FeaturesSpec FeaturesTheory FeaturesClaims FeaturesMore.
Local Open Scope Q_scope.

(** *** Broadcast reductions, group by group *)

Lemma broadcast_length {A B : Type} (agg : list A -> B) (g : list A) :
  List.length (broadcast agg g) = List.length g.
Proof. apply length_map. Qed.

Lemma group_of_broadcast {A B : Type} (agg : list A -> B) (dflt : B)
    (k : Key) (keys : list Key) (col : list A) :
  List.length keys = List.length col ->
  group_of k keys (transform (broadcast agg) dflt keys col) =
  broadcast agg (group_of k keys col).
Proof. apply group_of_transform. apply broadcast_length. Qed.

Lemma broadcast_nth {A B : Type} (agg : list A -> B) (dflt : B)
    (g : list A) (i : nat) :
  (i < List.length g)%nat -> nth i (broadcast agg g) dflt = agg g.
Proof.
  unfold broadcast. generalize (agg g) as v. revert i.
  induction g as [|a t IH]; intros i v Hi; simpl in Hi; [lia|].
  destruct i; [reflexivity|]. simpl. apply IH. lia.
Qed.

(** *** X7: the average closing rate telescopes *)

Lemma last_nonempty {A : Type} (t : list A) :
  forall u d d', last (u :: t) d = last (u :: t) d'.
Proof.
  induction t as [|v t IH]; intros u d d'; [reflexivity|].
  change (last (u :: v :: t) d) with (last (v :: t) d).
  change (last (u :: v :: t) d') with (last (v :: t) d').
  apply IH.
Qed.

Lemma last_cons {A : Type} (q : A) (t : list A) (p : A) :
  last (q :: t) p = last t q.
Proof.
  destruct t as [|u t]; [reflexivity|].
  change (last (q :: u :: t) p) with (last (u :: t) p).
  apply last_nonempty.
Qed.

Lemma closing_rates_sum (qs : list Q) :
  forall p,
    List.length (valid (map neg_cell (diff_from (Some p) (map Some qs))))
    = List.length qs
    /\ Qsum (valid (map neg_cell (diff_from (Some p) (map Some qs))))
       == p - last qs p.
Proof.
  induction qs as [|q t IH]; intros p.
  - simpl. split; [reflexivity | ring].
  - destruct (IH q) as (Hlen & Hsum). split.
    + simpl. now rewrite Hlen.
    + cbn [map diff_from sub_cell neg_cell option_map valid Qsum fold_right].
      change (fold_right Qplus 0 ?l) with (Qsum l). rewrite Hsum.
      rewrite (last_cons q t p). ring.
Qed.

Lemma closing_rate_length (df : list Row) (min_frames : nat) :
  let t := engineer_temporal_features df min_frames in
  List.length (closing_rate t) = List.length (keys_of t) /\
  List.length (closing_rate_smooth t) = List.length (keys_of t) /\
  List.length (sorted_df t) = List.length (keys_of t).
Proof.
  unfold keys_of, engineer_temporal_features.
  cbn [sorted_df closing_rate closing_rate_smooth].
  now rewrite !transform_length, !length_map, !transform_length, !length_map.
Qed.

(** X7.  In a group of two rows or more whose distances to the landing
    point are all present, [avg_closing_rate] is, on every row, the first
    distance minus the last one, divided by the number of rows minus one:
    only the two end distances count. *)
Theorem X7_average_closing_rate_telescopes
    (df : list Row) (min_frames : nat) (k : Key) (qs : list Q) :
  let t := engineer_temporal_features df min_frames in
  let g := rows_of k (sorted_df t) in
  map dist_to_ball_landing g = map Some qs ->
  (2 <= List.length qs)%nat ->
  forall i,
    (i < List.length g)%nat ->
    cell_eq (nth i (group_of k (keys_of t) (avg_closing_rate t)) None)
      (Some ((hd 0 qs - last qs 0)
             / inject_Z (Z.of_nat (List.length qs - 1)))).
Proof.
  intros t g Hd Hlen i Hi.
  destruct (closing_rate_length df min_frames) as (Hl & _).
  fold t in Hl.
  destruct (temporal_groups df min_frames k) as (_ & Hcr & _).
  fold t in Hcr. fold (keys_of t) in Hcr. fold g in Hcr. rewrite Hd in Hcr.
  unfold avg_closing_rate.
  rewrite group_of_broadcast by (symmetry; exact Hl).
  rewrite Hcr, broadcast_nth.
  2:{ rewrite length_map, diff_length, length_map.
      apply (f_equal (@List.length cell)) in Hd.
      rewrite !length_map in Hd. lia. }
  destruct qs as [|q0 [|q1 qs']]; simpl in Hlen; try lia.
  destruct (closing_rates_sum (q1 :: qs') q0) as [Hn Hs].
  unfold mean_skipna. cbn [map diff neg_cell option_map valid].
  destruct (valid (map neg_cell (diff_from (Some q0) (map Some (q1 :: qs')))))
    as [|v vs] eqn:Ev; [discriminate Hn|].
  cbn [map] in Ev. rewrite Ev. cbn [cell_eq]. rewrite Hs, Hn, !last_cons.
  cbn [hd List.length].
  replace (S (S (List.length qs')) - 1)%nat with (S (List.length qs'))
    by lia.
  reflexivity.
Qed.

Lemma X7_witness :
  let t := engineer_temporal_features sorted_group 3 in
  let k := (1, 1, 7)%Z in
  cell_eq (nth 0 (group_of k (keys_of t) (avg_closing_rate t)) None)
    (Some ((5 - 3) / 2)).
Proof.
  intros t k.
  apply (X7_average_closing_rate_telescopes sorted_group 3 k [5; 4; 3]).
  - reflexivity.
  - simpl. lia.
  - simpl. lia.
Defined.

(** *** X8: the reaction frame *)

Lemma min_frame_skipna_In (l : list (option Z)) (f : Z) :
  min_frame_skipna l = Some f -> In (Some f) l.
Proof.
  revert f. induction l as [|[v|] t IH]; intros f; simpl; [discriminate| |].
  - destruct (min_frame_skipna t) as [f'|].
    + intros [= <-]. destruct (Z.min_spec v f') as [[_ ->]|[_ ->]];
        [now left | right; now apply IH].
    + intros [= <-]. now left.
  - intros H. right. now apply IH.
Qed.

Lemma min_frame_first_reacting (threshold : Q) (g : list Row) :
  nondecreasing_frames g ->
  forall smooth,
    min_frame_skipna
      (map (fun p : bool * Row =>
              if fst p then Some (frame_id (snd p)) else None)
         (combine (map (fun c => gt_cell c threshold) smooth) g))
    = first_reacting threshold g smooth.
Proof.
  unfold nondecreasing_frames, first_reacting.
  induction 1 as [|r g Hs IH Hall]; intros [|c smooth]; try reflexivity.
  cbn [map combine fst snd find min_frame_skipna].
  destruct (gt_cell c threshold) eqn:E; [|apply IH].
  cbn [option_map fst].
  destruct (min_frame_skipna _) as [f'|] eqn:Em; [|reflexivity].
  apply min_frame_skipna_In in Em. apply in_map_iff in Em.
  destruct Em as ([b r'] & Hb & Hin). apply in_combine_r in Hin.
  cbn [fst snd] in Hb. destruct b; [|discriminate]. injection Hb as <-.
  rewrite Forall_forall in Hall. specialize (Hall r' Hin).
  f_equal. lia.
Qed.

Lemma first_reacting_least (threshold : Q) (g : list Row) :
  nondecreasing_frames g ->
  forall smooth f r c,
    first_reacting threshold g smooth = Some f ->
    In (r, c) (combine g smooth) -> gt_cell c threshold = true ->
    (f <= frame_id r)%Z.
Proof.
  unfold nondecreasing_frames, first_reacting.
  induction 1 as [|r0 g Hs IH Hall]; intros [|c0 smooth] f r c Hf Hin Hgt;
    try contradiction.
  cbn [combine find snd] in Hf. destruct Hin as [[= -> ->]|Hin].
  - rewrite Hgt in Hf. injection Hf as <-. cbn [fst]. lia.
  - destruct (gt_cell c0 threshold).
    + injection Hf as <-. cbn [fst]. apply in_combine_l in Hin.
      rewrite Forall_forall in Hall. now apply Hall.
    + now apply (IH smooth f r c).
Qed.

Lemma first_reacting_None (threshold : Q) (g : list Row) :
  forall smooth,
    List.length smooth = List.length g ->
    first_reacting threshold g smooth = None <->
    (forall c, In c smooth -> gt_cell c threshold = false).
Proof.
  unfold first_reacting.
  induction g as [|r0 g IH]; intros [|c0 smooth] Hlen; try discriminate.
  - split; [intros _ c [] | reflexivity].
  - cbn [combine find snd]. destruct (gt_cell c0 threshold) eqn:E.
    + split; [discriminate|]. intros H.
      specialize (H c0 (or_introl eq_refl)). congruence.
    + injection Hlen as Hlen. rewrite (IH smooth Hlen). split.
      * intros H c [<-|Hc]; [exact E | now apply H].
      * intros H c Hc. apply H. now right.
Qed.

Lemma skipn_firstn_one {A : Type} (l : list A) :
  forall (i : nat) (d : A),
    (i < List.length l)%nat -> skipn i (firstn (S i) l) = [nth i l d].
Proof.
  induction l as [|a l IH]; intros [|i] d Hi; simpl in Hi; try lia.
  - reflexivity.
  - cbn [firstn skipn nth]. apply IH. lia.
Qed.

Lemma map_const_length {A B C : Type} (c : C) (l : list A) :
  forall l' : list B,
    List.length l = List.length l' ->
    map (fun _ => c) l = map (fun _ => c) l'.
Proof.
  induction l as [|a l IH]; intros [|b l'] H; try discriminate;
    [reflexivity|].
  simpl. f_equal. apply IH. now injection H.
Qed.

Lemma reaction_frame_group (df : list Row) (min_frames : nat)
    (threshold : Q) (k : Key) :
  let t := engineer_temporal_features df min_frames in
  group_of k (keys_of t) (reaction_frame threshold t) =
  map (fun p : bool * Row => if fst p then Some (frame_id (snd p)) else None)
    (combine
       (map (fun c => gt_cell c threshold)
          (group_of k (keys_of t) (closing_rate_smooth t)))
       (rows_of k (sorted_df t))).
Proof.
  intros t. destruct (closing_rate_length df min_frames) as (_ & Hsm & Hdf).
  fold t in Hsm, Hdf.
  unfold reaction_frame, reacting.
  rewrite group_of_map, group_of_combine;
    [| now rewrite length_map | now symmetry].
  rewrite group_of_map.
  change (group_of k (keys_of t) (sorted_df t))
    with (group_of k (map key_of_row (sorted_df t)) (sorted_df t)).
  now rewrite group_of_rows.
Qed.

Lemma first_smooth_missing (df : list Row) (min_frames : nat) (k : Key) :
  (1 <= min_frames)%nat ->
  let t := engineer_temporal_features df min_frames in
  hd None (group_of k (keys_of t) (closing_rate_smooth t)) = None.
Proof.
  intros HW t.
  destruct (temporal_groups df min_frames k) as (_ & _ & Hsm).
  fold t in Hsm. fold (keys_of t) in Hsm. rewrite Hsm. clear Hsm.
  generalize (map dist_to_ball_landing (rows_of k (sorted_df t))).
  intros [|c d']; [reflexivity|].
  pose proof (rolling_mean_spec min_frames
                (map neg_cell (diff (c :: d'))) 0 HW) as H.
  rewrite length_map, diff_length in H. specialize (H (Nat.lt_0_succ _)).
  unfold trailing_window in H.
  replace (1 - min_frames)%nat with 0%nat in H by lia.
  revert H.
  generalize (rolling_mean min_frames 1 (map neg_cell (diff (c :: d')))).
  intros [|[v|] l] H; [reflexivity | | reflexivity].
  exfalso. exact H.
Qed.

(** X8.  In every group, [reaction_frame_min] holds on every row the frame
    of the first row, in frame order, whose smoothed closing rate is above
    the threshold; it is missing when no row is.  That frame is the least
    frame of the reacting rows.  The first row of a group has no smoothed
    closing rate, so it never reacts and a group of one row has no reaction
    frame. *)
Theorem X8_reaction_frame_is_first_reacting_row
    (df : list Row) (min_frames : nat) (threshold : Q) (k : Key) :
  (1 <= min_frames)%nat ->
  let t := engineer_temporal_features df min_frames in
  let g := rows_of k (sorted_df t) in
  let smooth := group_of k (keys_of t) (closing_rate_smooth t) in
  group_of k (keys_of t) (reaction_frame_min threshold t)
  = map (fun _ => first_reacting threshold g smooth) g /\
  (forall f r c,
      first_reacting threshold g smooth = Some f ->
      In (r, c) (combine g smooth) -> gt_cell c threshold = true ->
      (f <= frame_id r)%Z) /\
  (first_reacting threshold g smooth = None <->
   forall c, In c smooth -> gt_cell c threshold = false) /\
  hd None smooth = None /\
  (List.length g = 1%nat ->
   group_of k (keys_of t) (reaction_frame_min threshold t) = [None]).
Proof.
  intros HW t g smooth.
  destruct (closing_rate_length df min_frames) as (_ & Hsm & Hdf).
  fold t in Hsm, Hdf.
  assert (Hlen : List.length smooth = List.length g).
  { unfold smooth, g. rewrite !group_of_length by (now symmetry).
    rewrite <- (group_of_length k (keys_of t) (sorted_df t))
      by (now symmetry).
    unfold keys_of. now rewrite group_of_rows. }
  assert (Hmain : group_of k (keys_of t) (reaction_frame_min threshold t)
                  = map (fun _ => first_reacting threshold g smooth) g).
  { unfold reaction_frame_min. rewrite group_of_broadcast.
    2:{ unfold reaction_frame, reacting.
        rewrite length_map, length_combine, length_map, Hsm, Hdf.
        now rewrite Nat.min_id. }
    pose proof (reaction_frame_group df min_frames threshold k) as Hrf.
    cbv zeta in Hrf. fold t in Hrf. fold g smooth in Hrf. rewrite Hrf.
    unfold broadcast.
    rewrite (min_frame_first_reacting threshold g
               (sorted_group_nondecreasing df k) smooth).
    apply map_const_length.
    now rewrite length_map, length_combine, length_map, Hlen, Nat.min_id. }
  pose proof (first_smooth_missing df min_frames k HW) as Hhd.
  cbv zeta in Hhd. fold t in Hhd. fold smooth in Hhd.
  split; [exact Hmain|]. split; [|split; [|split; [exact Hhd|]]].
  - intros f r c. unfold g.
    apply (first_reacting_least threshold _
             (sorted_group_nondecreasing df k)).
  - now apply first_reacting_None.
  - intros H1. rewrite Hmain.
    destruct g as [|r0 [|r1 g']]; try discriminate.
    destruct smooth as [|c0 [|c1 s']]; try discriminate.
    simpl in Hhd. subst c0. reflexivity.
Qed.

Lemma X8_witness :
  let t := engineer_temporal_features unsorted_group 3 in
  let k := (1, 1, 7)%Z in
  group_of k (keys_of t) (reaction_frame_min (1 # 2) t)
  = [Some 2%Z; Some 2%Z].
Proof.
  intros t k.
  assert (HW : (1 <= 3)%nat) by lia.
  destruct (X8_reaction_frame_is_first_reacting_row
              unsorted_group 3 (1 # 2) k HW) as [H _].
  fold t in H. rewrite H. reflexivity.
Defined.

(** *** X9: the first and the least distance of a group *)

Lemma valid_In (l : list cell) (v : Q) : In v (valid l) <-> In (Some v) l.
Proof.
  induction l as [|[w|] t IH]; simpl; [tauto| |].
  - rewrite IH. split; intros [H|H]; auto; left; congruence.
  - rewrite IH. split; [auto | intros [H|H]; [discriminate | exact H]].
Qed.

Lemma valid_nil_iff (l : list cell) :
  valid l = [] <-> forall c, In c l -> c = None.
Proof.
  induction l as [|[w|] t IH]; simpl.
  - split; [intros _ c [] | reflexivity].
  - split; [discriminate|]. intros H.
    specialize (H (Some w) (or_introl eq_refl)). discriminate.
  - rewrite IH. split.
    + intros H c [<-|Hc]; [reflexivity | now apply H].
    + intros H c Hc. apply H. now right.
Qed.

Lemma fold_qmin_spec (vs : list Q) :
  forall v,
    In (fold_left qmin vs v) (v :: vs) /\
    forall w, In w (v :: vs) -> fold_left qmin vs v <= w.
Proof.
  induction vs as [|u vs IH]; intros v; simpl.
  - split; [now left|]. intros w [<-|[]]. apply Qle_refl.
  - destruct (IH (qmin v u)) as [Hin Hle]. split.
    + destruct Hin as [Hin|Hin]; [|now right; right].
      rewrite <- Hin. unfold qmin. destruct (Qlt_le_dec u v); auto.
    + intros w Hw.
      assert (Hq : qmin v u <= v /\ qmin v u <= u).
      { unfold qmin. destruct (Qlt_le_dec u v) as [Hlt|Hge].
        - split; [now apply Qlt_le_weak | apply Qle_refl].
        - split; [apply Qle_refl | exact Hge]. }
      destruct Hq as [Hv Hu].
      pose proof (Hle (qmin v u) (or_introl eq_refl)) as Hm.
      destruct Hw as [<-|[<-|Hw]].
      * eapply Qle_trans; eassumption.
      * eapply Qle_trans; eassumption.
      * apply Hle. now right.
Qed.

Lemma first_skipna_split (l : list cell) (v : Q) :
  first_skipna l = Some v <->
  exists pre post,
    l = (pre ++ Some v :: post)%list /\ forall c, In c pre -> c = None.
Proof.
  unfold first_skipna. induction l as [|[w|] t IH]; simpl.
  - split; [discriminate|]. intros ([|? ?] & post & H & _); discriminate.
  - split.
    + intros [= ->]. exists [], t. split; [reflexivity | intros c []].
    + intros ([|c pre] & post & H & Hpre).
      * now injection H as ->.
      * injection H as Hc _. specialize (Hpre c (or_introl eq_refl)).
        congruence.
  - rewrite IH. split.
    + intros (pre & post & -> & Hpre). exists (None :: pre), post.
      split; [reflexivity|]. intros c [<-|Hc]; [reflexivity | now apply Hpre].
    + intros ([|c pre] & post & H & Hpre); [discriminate|].
      injection H as _ ->. exists pre, post. split; [reflexivity|].
      intros c' Hc'. apply Hpre. now right.
Qed.

Lemma dist_column_length (df : list Row) (min_frames : nat) :
  let t := engineer_temporal_features df min_frames in
  List.length (keys_of t)
  = List.length (map dist_to_ball_landing (sorted_df t)).
Proof. intros t. unfold keys_of. now rewrite !length_map. Qed.

(** X9.  On every row of a group, [initial_dist_to_ball] is the first
    distance of the group, in frame order, that is not missing (not the
    distance on the first row when that one is missing), and
    [min_dist_to_ball] is the least distance that is not missing: it is one
    of the group's distances, at most each of them, hence at most the
    initial distance.  Each is missing exactly when every distance of the
    group is. *)
Theorem X9_initial_and_least_distance
    (df : list Row) (min_frames : nat) (k : Key) :
  let t := engineer_temporal_features df min_frames in
  let g := rows_of k (sorted_df t) in
  let d := map dist_to_ball_landing g in
  exists first least : cell,
    group_of k (keys_of t) (initial_dist_to_ball t) = map (fun _ => first) g /\
    group_of k (keys_of t) (min_dist_to_ball t) = map (fun _ => least) g /\
    (forall v, first = Some v <->
       exists pre post,
         d = (pre ++ Some v :: post)%list /\
         forall c, In c pre -> c = None) /\
    (forall m, least = Some m ->
       In (Some m) d /\ forall v, In (Some v) d -> m <= v) /\
    (forall m v, least = Some m -> first = Some v -> m <= v) /\
    (first = None <-> forall c, In c d -> c = None) /\
    (least = None <-> first = None).
Proof.
  intros t g d. exists (first_skipna d), (min_skipna d).
  pose proof (dist_column_length df min_frames) as Hlen. cbv zeta in Hlen.
  fold t in Hlen.
  assert (Hg : group_of k (keys_of t)
                 (map dist_to_ball_landing (sorted_df t)) = d).
  { rewrite group_of_map. unfold keys_of. now rewrite group_of_rows. }
  assert (Hmin : forall m, min_skipna d = Some m ->
                   In (Some m) d /\ forall v, In (Some v) d -> m <= v).
  { intros m. unfold min_skipna. destruct (valid d) as [|v vs] eqn:Ev;
      [discriminate|]. intros [= <-].
    destruct (fold_qmin_spec vs v) as [Hin Hle]. rewrite <- Ev in Hin, Hle.
    split; [now apply valid_In|]. intros w Hw. apply Hle.
    now apply valid_In. }
  split; [|split; [|split; [|split; [|split; [|split]]]]].
  - unfold initial_dist_to_ball. rewrite group_of_broadcast by exact Hlen.
    rewrite Hg. unfold broadcast, d. apply map_const_length.
    now rewrite length_map.
  - unfold min_dist_to_ball. rewrite group_of_broadcast by exact Hlen.
    rewrite Hg. unfold broadcast, d. apply map_const_length.
    now rewrite length_map.
  - intros v. apply first_skipna_split.
  - exact Hmin.
  - intros m v Hm Hv. apply (proj2 (Hmin m Hm)).
    apply first_skipna_split in Hv. destruct Hv as (pre & post & -> & _).
    apply in_or_app. right. now left.
  - rewrite <- valid_nil_iff. unfold first_skipna.
    destruct (valid d); split; congruence.
  - unfold min_skipna, first_skipna. destruct (valid d); split; congruence.
Qed.

(** *** X10: a window of one row *)

(** X10.  With a window of one row the smoothed closing rate is the closing
    rate itself, on every row of every group. *)
Theorem X10_window_of_one_row_smooths_nothing
    (df : list Row) (k : Key) (i : nat) :
  let t := engineer_temporal_features df 1 in
  (i < List.length (rows_of k (sorted_df t)))%nat ->
  cell_eq (nth i (group_of k (keys_of t) (closing_rate_smooth t)) None)
          (nth i (group_of k (keys_of t) (closing_rate t)) None).
Proof.
  intros t Hi.
  destruct (temporal_groups df 1 k) as (_ & Hcr & Hsm).
  fold t in Hcr, Hsm. fold (keys_of t) in Hcr, Hsm.
  rewrite Hsm, Hcr.
  set (cr := map neg_cell
               (diff (map dist_to_ball_landing (rows_of k (sorted_df t))))).
  assert (Hl : (i < List.length cr)%nat).
  { unfold cr. now rewrite length_map, diff_length, length_map. }
  pose proof (rolling_mean_spec 1 cr i (le_n 1) Hl) as H.
  unfold trailing_window in H.
  replace (S i - 1)%nat with i in H by lia.
  rewrite (skipn_firstn_one cr i None Hl) in H.
  destruct (nth i (rolling_mean 1 1 cr) None) as [a|],
           (nth i cr None) as [b|]; cbn in H |- *; try exact H.
  rewrite H. field.
Qed.

Lemma X10_witness :
  let t := engineer_temporal_features unsorted_group 1 in
  let k := (1, 1, 7)%Z in
  cell_eq (nth 1 (group_of k (keys_of t) (closing_rate_smooth t)) None)
          (nth 1 (group_of k (keys_of t) (closing_rate t)) None).
Proof.
  intros t k.
  apply (X10_window_of_one_row_smooths_nothing unsorted_group k 1).
  simpl. lia.
Defined.

(** *** X11: the temporal step on its own output *)

Lemma insert_by_head {A : Type} (ltb : A -> A -> bool) (a : A) (l : list A) :
  Forall (not_after ltb a) l -> insert_by ltb a l = a :: l.
Proof.
  intros [|b t Hb _]; [reflexivity|]. simpl. unfold not_after in Hb.
  now rewrite Hb.
Qed.

Lemma sort_values_sorted_id {A : Type} (ltb : A -> A -> bool) (l : list A) :
  StronglySorted (not_after ltb) l -> sort_values ltb l = l.
Proof.
  induction 1 as [|a t Hs IH Hall]; [reflexivity|].
  simpl. rewrite IH. now apply insert_by_head.
Qed.

(** X11.  The temporal step is idempotent on the row order: a table whose
    rows already are in (game, play, player, frame) order keeps its order,
    and running the step on the table it returned gives the same table and
    the same three columns again. *)
Theorem X11_temporal_step_is_idempotent (df : list Row) (min_frames : nat) :
  let t := engineer_temporal_features df min_frames in
  engineer_temporal_features (sorted_df t) min_frames = t /\
  (StronglySorted (not_after row_ltb) df -> sorted_df t = df).
Proof.
  intros t. split.
  - unfold t, engineer_temporal_features. cbn [sorted_df].
    now rewrite (sort_values_sorted_id row_ltb _
                   (sort_values_sorted row_ltb row_ltb_asym
                      row_not_after_trans df)).
  - intros Hs. unfold t, engineer_temporal_features. cbn [sorted_df].
    now apply sort_values_sorted_id.
Qed.

Lemma X11_witness :
  engineer_temporal_features
    (sorted_df (engineer_temporal_features unsorted_group 3)) 3
  = engineer_temporal_features unsorted_group 3 /\
  sorted_df (engineer_temporal_features sorted_group 3) = sorted_group.
Proof.
  split.
  - apply (X11_temporal_step_is_idempotent unsorted_group 3).
  - apply (X11_temporal_step_is_idempotent sorted_group 3).
    repeat constructor.
Defined.

(** *** X12: the value at the throw, whatever the order of the rows *)

Lemma bfill_nth (l : list cell) :
  forall i, nth i (bfill l) None = first_skipna (skipn i l).
Proof.
  induction l as [|c t IH]; intros [|i]; try reflexivity.
  - cbn [bfill skipn]. destruct c as [v|]; [reflexivity|].
    cbn [nth]. specialize (IH 0%nat). cbn [skipn] in IH.
    unfold first_skipna in *. cbn [valid]. rewrite <- IH.
    now destruct (bfill t).
  - cbn [bfill skipn]. destruct c as [v|]; cbn [nth]; apply IH.
Qed.

Lemma skipn_map {A B : Type} (h : A -> B) (l : list A) :
  forall i, skipn i (map h l) = map h (skipn i l).
Proof.
  induction l as [|x t IH]; intros [|i]; try reflexivity. simpl. apply IH.
Qed.

Lemma skipn_In {A : Type} (l : list A) :
  forall i x, In x (skipn i l) -> In x l.
Proof.
  induction l as [|y t IH]; intros [|i] x H; try exact H.
  right. now apply (IH i).
Qed.

Lemma at_throw_law (col : Row -> cell) (df : list Row) (k : Key) (i : nat) :
  let keys := map key_of_row df in
  let g := rows_of k df in
  let out :=
    group_of k keys
      (transform bfill None keys
         (where_last_frame col df
            (transform group_max 0%Z keys (map frame_id df)))) in
  nth i out None = first_skipna (skipn i (at_max_frame col g)) /\
  (forall v,
      nth i out None = Some v ->
      exists r, In r (skipn i g) /\ frame_id r = max_frame g /\
                col r = Some v) /\
  ((forall r, In r (skipn i g) -> frame_id r <> max_frame g) ->
   nth i out None = None).
Proof.
  intros keys g out.
  assert (H : nth i out None = first_skipna (skipn i (at_max_frame col g))).
  { unfold out, keys. rewrite at_throw_group. apply bfill_nth. }
  split; [exact H|]. rewrite H. unfold at_max_frame. rewrite skipn_map.
  split.
  - intros v Hv. apply first_skipna_split in Hv.
    destruct Hv as (pre & post & Heq & _).
    assert (Hin : In (Some v)
                    (map (fun r => if (frame_id r =? max_frame g)%Z
                                   then col r else None) (skipn i g))).
    { rewrite Heq. apply in_or_app. right. now left. }
    apply in_map_iff in Hin. destruct Hin as (r & Hr & Hin).
    exists r. destruct (frame_id r =? max_frame g)%Z eqn:E; [|discriminate].
    apply Z.eqb_eq in E. auto.
  - intros Hno. unfold first_skipna.
    replace (valid _) with (@nil Q); [reflexivity|]. symmetry.
    apply valid_nil_iff. intros c Hc. apply in_map_iff in Hc.
    destruct Hc as (r & <- & Hin). specialize (Hno r Hin).
    apply Z.eqb_neq in Hno. now rewrite Hno.
Qed.

(** X12.  Whatever the order of the rows, [speed_at_throw] and
    [accel_at_throw] hold on row [i] of a group the speed and the
    acceleration of the first row at or after [i], in table order, that is
    at the group's greatest frame_id and whose entry is not missing.  So an
    entry that is not missing is always read on a row at the greatest
    frame_id that is stored at or after row [i], and a row stored after
    every row at the greatest frame_id gets a missing entry. *)
Theorem X12_at_throw_value_is_read_at_or_after_the_row
    (df : list Row) (k : Key) (i : nat) :
  let keys := map key_of_row df in
  let g := rows_of k df in
  let out := engineer_kinematic_features df in
  let speed := nth i (group_of k keys (speed_at_throw out)) None in
  let accel := nth i (group_of k keys (accel_at_throw out)) None in
  speed = first_skipna (skipn i (at_max_frame s g)) /\
  accel = first_skipna (skipn i (at_max_frame a g)) /\
  (forall v,
      speed = Some v ->
      exists r, In r (skipn i g) /\ frame_id r = max_frame g /\
                s r = Some v) /\
  (forall v,
      accel = Some v ->
      exists r, In r (skipn i g) /\ frame_id r = max_frame g /\
                a r = Some v) /\
  ((forall r, In r (skipn i g) -> frame_id r <> max_frame g) ->
   speed = None /\ accel = None).
Proof.
  intros keys g out speed accel.
  destruct (at_throw_law s df k i) as (Hs1 & Hs2 & Hs3).
  destruct (at_throw_law a df k i) as (Ha1 & Ha2 & Ha3).
  repeat (split; [assumption|]). intros Hno. split; auto.
Qed.

(** *** X13: the speed statistics of a group *)

Lemma fold_qmax_spec (vs : list Q) :
  forall v,
    In (fold_left qmax vs v) (v :: vs) /\
    forall w, In w (v :: vs) -> w <= fold_left qmax vs v.
Proof.
  induction vs as [|u vs IH]; intros v; simpl.
  - split; [now left|]. intros w [<-|[]]. apply Qle_refl.
  - destruct (IH (qmax v u)) as [Hin Hle]. split.
    + destruct Hin as [Hin|Hin]; [|now right; right].
      rewrite <- Hin. unfold qmax. destruct (Qlt_le_dec v u); auto.
    + intros w Hw.
      assert (Hq : v <= qmax v u /\ u <= qmax v u).
      { unfold qmax. destruct (Qlt_le_dec v u) as [Hlt|Hge].
        - split; [now apply Qlt_le_weak | apply Qle_refl].
        - split; [apply Qle_refl | exact Hge]. }
      destruct Hq as [Hv Hu].
      pose proof (Hle (qmax v u) (or_introl eq_refl)) as Hm.
      destruct Hw as [<-|[<-|Hw]].
      * eapply Qle_trans; eassumption.
      * eapply Qle_trans; eassumption.
      * apply Hle. now right.
Qed.

Lemma Qsum_bounds (lo hi : Q) (vs : list Q) :
  (forall v, In v vs -> lo <= v /\ v <= hi) ->
  inject_Z (Z.of_nat (List.length vs)) * lo <= Qsum vs /\
  Qsum vs <= inject_Z (Z.of_nat (List.length vs)) * hi.
Proof.
  induction vs as [|v vs IH]; intros H.
  - cbn [List.length Qsum fold_right Z.of_nat].
    change (inject_Z 0) with 0. rewrite !Qmult_0_l. split; apply Qle_refl.
  - destruct IH as [IH1 IH2]; [intros w Hw; apply H; now right|].
    destruct (H v (or_introl eq_refl)) as [H1 H2].
    cbn [List.length Qsum fold_right].
    rewrite Nat2Z.inj_succ, <- Z.add_1_r, inject_Z_plus.
    fold (Qsum vs). change (inject_Z 1) with 1.
    revert IH1 IH2. generalize (inject_Z (Z.of_nat (List.length vs))).
    generalize (Qsum vs). intros sm n IH1 IH2.
    rewrite !Qmult_plus_distr_l, !Qmult_1_l, (Qplus_comm v sm).
    split; apply Qplus_le_compat; assumption.
Qed.

Lemma mean_bounds (lo hi : Q) (v : Q) (vs : list Q) :
  (forall w, In w (v :: vs) -> lo <= w /\ w <= hi) ->
  let m := Qsum (v :: vs) / inject_Z (Z.of_nat (List.length (v :: vs))) in
  lo <= m /\ m <= hi.
Proof.
  intros H m. destruct (Qsum_bounds lo hi (v :: vs) H) as [H1 H2].
  assert (Hpos : 0 < inject_Z (Z.of_nat (List.length (v :: vs)))).
  { change 0 with (inject_Z 0). rewrite <- Zlt_Qlt. simpl. lia. }
  unfold m. split.
  - apply Qle_shift_div_l; [exact Hpos|]. now rewrite Qmult_comm.
  - apply Qle_shift_div_r; [exact Hpos|]. now rewrite Qmult_comm.
Qed.

Lemma statistics_of_group (col : Row -> cell) (df : list Row) (k : Key) :
  let keys := map key_of_row df in
  let g := rows_of k df in
  let vals := map col g in
  group_of k keys (transform (broadcast min_skipna) None keys (map col df))
  = map (fun _ => min_skipna vals) g /\
  group_of k keys (transform (broadcast mean_skipna) None keys (map col df))
  = map (fun _ => mean_skipna vals) g /\
  group_of k keys (transform (broadcast max_skipna) None keys (map col df))
  = map (fun _ => max_skipna vals) g /\
  (forall v,
      In (Some v) vals ->
      exists l m h,
        min_skipna vals = Some l /\ mean_skipna vals = Some m /\
        max_skipna vals = Some h /\
        l <= v /\ v <= h /\ l <= m /\ m <= h /\
        In (Some l) vals /\ In (Some h) vals) /\
  ((forall c, In c vals -> c = None) ->
   min_skipna vals = None /\ mean_skipna vals = None /\
   max_skipna vals = None).
Proof.
  intros keys g vals.
  assert (Hlen : List.length keys = List.length (map col df))
    by (unfold keys; now rewrite !length_map).
  assert (Hg : group_of k keys (map col df) = vals).
  { rewrite group_of_map. unfold keys. now rewrite group_of_rows. }
  assert (Hb : forall agg : list cell -> cell,
             group_of k keys (transform (broadcast agg) None keys (map col df))
             = map (fun _ => agg vals) g).
  { intros agg. rewrite group_of_broadcast by exact Hlen. rewrite Hg.
    unfold broadcast, vals. apply map_const_length. now rewrite length_map. }
  split; [apply Hb|]. split; [apply Hb|]. split; [apply Hb|]. split.
  - intros v Hv. apply valid_In in Hv.
    unfold min_skipna, mean_skipna, max_skipna.
    destruct (valid vals) as [|v0 vs] eqn:Ev; [contradiction|].
    destruct (fold_qmin_spec vs v0) as [Hmin_in Hmin].
    destruct (fold_qmax_spec vs v0) as [Hmax_in Hmax].
    destruct (mean_bounds (fold_left qmin vs v0) (fold_left qmax vs v0) v0 vs)
      as [Hm1 Hm2]; [intros w Hw; split; [now apply Hmin | now apply Hmax]|].
    do 3 eexists. repeat (split; [reflexivity|]).
    split; [now apply Hmin|]. split; [now apply Hmax|].
    split; [exact Hm1|]. split; [exact Hm2|].
    rewrite <- Ev in Hmin_in, Hmax_in. split; now apply valid_In.
  - intros Hnone. apply valid_nil_iff in Hnone.
    unfold min_skipna, mean_skipna, max_skipna. now rewrite Hnone.
Qed.

Lemma mean_skipna_nan_mean (l : list cell) : mean_skipna l = nan_mean l.
Proof.
  unfold mean_skipna, nan_mean, mean_of. now destruct (valid l).
Qed.

(** X13.  On every row of a group, [avg_speed] and [avg_accel] hold the
    mean of the group's speeds and accelerations that are not missing (their
    sum divided by their number), and [min_speed], [max_speed] and
    [max_accel] hold the least and the greatest of them.  When one speed at
    least is present the three speed columns are present, least <= mean <=
    greatest, the least and the greatest are speeds of the group and every
    present speed lies between them; when every speed is missing the three
    are missing.  The same holds of the mean and the greatest
    acceleration. *)
Theorem X13_speed_statistics_are_ordered (df : list Row) (k : Key) :
  let keys := map key_of_row df in
  let g := rows_of k df in
  let speeds := map s g in
  let accels := map a g in
  group_of k keys (avg_speed df) = map (fun _ => nan_mean speeds) g /\
  group_of k keys (avg_accel df) = map (fun _ => nan_mean accels) g /\
  (forall v vs,
      valid speeds = v :: vs ->
      nan_mean speeds
      = Some (Qsum (v :: vs) / inject_Z (Z.of_nat (List.length (v :: vs))))) /\
  (forall v vs,
      valid accels = v :: vs ->
      nan_mean accels
      = Some (Qsum (v :: vs) / inject_Z (Z.of_nat (List.length (v :: vs))))) /\
  exists lo hi hi_a : cell,
    group_of k keys (min_speed df) = map (fun _ => lo) g /\
    group_of k keys (max_speed df) = map (fun _ => hi) g /\
    group_of k keys (max_accel df) = map (fun _ => hi_a) g /\
    (forall v,
        In (Some v) speeds ->
        exists l m h,
          lo = Some l /\ nan_mean speeds = Some m /\ hi = Some h /\
          l <= v /\ v <= h /\ l <= m /\ m <= h /\
          In (Some l) speeds /\ In (Some h) speeds) /\
    ((forall c, In c speeds -> c = None) ->
     lo = None /\ nan_mean speeds = None /\ hi = None) /\
    (forall v,
        In (Some v) accels ->
        exists m h,
          nan_mean accels = Some m /\ hi_a = Some h /\ v <= h /\ m <= h /\
          In (Some h) accels) /\
    ((forall c, In c accels -> c = None) ->
     nan_mean accels = None /\ hi_a = None).
Proof.
  intros keys g speeds accels.
  destruct (statistics_of_group s df k) as (S1 & S2 & S3 & S4 & S5).
  destruct (statistics_of_group a df k) as (_ & A2 & A3 & A4 & A5).
  fold keys g in S1, S2, S3, S4, S5, A2, A3, A4, A5.
  fold speeds in S1, S2, S3, S4, S5. fold accels in A2, A3, A4, A5.
  rewrite mean_skipna_nan_mean in S2, A2.
  split; [exact S2|]. split; [exact A2|].
  split; [intros v vs E; unfold nan_mean; now rewrite E|].
  split; [intros v vs E; unfold nan_mean; now rewrite E|].
  exists (min_skipna speeds), (max_skipna speeds), (max_skipna accels).
  split; [exact S1|]. split; [exact S3|]. split; [exact A3|].
  split; [|split; [|split]].
  - intros v Hv. destruct (S4 v Hv) as (l & m & h & H).
    exists l, m, h. now rewrite <- mean_skipna_nan_mean.
  - intros Hnone. rewrite <- mean_skipna_nan_mean. now apply S5.
  - intros v Hv. destruct (A4 v Hv) as (l & m & h & _ & Hm & Hh & _ & Hvh
                                        & _ & Hmh & _ & Hin).
    exists m, h. rewrite <- mean_skipna_nan_mean. auto.
  - intros Hnone. destruct (A5 Hnone) as (_ & H2 & H3).
    rewrite <- mean_skipna_nan_mean. auto.
Qed.

(** *** X14: angular differences outside [0, 360) *)

Lemma gt_cell_Qeq (v v' t : Q) :
  v == v' -> gt_cell (Some v) t = gt_cell (Some v') t.
Proof.
  intros H. unfold gt_cell.
  destruct (Qlt_le_dec t v), (Qlt_le_dec t v'); try reflexivity;
    exfalso; Lqa.lra.
Qed.

(** X14.  On a row where both columns have an entry, the result is missing
    as soon as one angle is missing; otherwise it never exceeds 180, it is
    negative exactly when the two angles differ by more than 360 (so the
    range [0, 180] of the docstring needs angles less than 360 apart), it
    is 0 for equal angles, and it does not depend on the order of the two
    arguments. *)
Theorem X14_angular_difference_on_any_angles
    (angle1 angle2 : list cell) (i : nat) (c1 c2 : cell) :
  nth_error angle1 i = Some c1 ->
  nth_error angle2 i = Some c2 ->
  exists e e',
    nth_error (calculate_angular_difference angle1 angle2) i = Some e /\
    nth_error (calculate_angular_difference angle2 angle1) i = Some e' /\
    cell_eq e e' /\
    match c1, c2 with
    | Some a1, Some a2 =>
        exists d, e = Some d /\ d <= 180 /\
                  (0 <= d <-> Qabs (a1 - a2) <= 360) /\
                  (a1 == a2 -> d == 0)
    | _, _ => e = None
    end.
Proof.
  intros H1 H2. unfold calculate_angular_difference.
  rewrite !nth_error_map, (nth_error_combine _ _ _ _ _ H1 H2),
    (nth_error_combine _ _ _ _ _ H2 H1).
  cbn [option_map fst snd].
  destruct c1 as [a1|], c2 as [a2|];
    try (exists None, None; repeat split; reflexivity).
  cbn [sub_cell abs_cell option_map].
  assert (Hsym : Qabs (a2 - a1) == Qabs (a1 - a2)).
  { rewrite <- (Qabs_opp (a1 - a2)). apply Qabs_wd. ring. }
  rewrite (gt_cell_Qeq _ _ 180 Hsym).
  pose proof (Qabs_nonneg (a1 - a2)) as Hnn.
  unfold gt_cell. destruct (Qlt_le_dec 180 (Qabs (a1 - a2))) as [Hgt|Hle].
  - cbn [sub_cell]. do 2 eexists. split; [reflexivity|].
    split; [reflexivity|]. split; [cbn; now rewrite Hsym|].
    eexists. split; [reflexivity|].
    split; [Lqa.lra|]. split; [split; intros; Lqa.lra|].
    intros Heq. exfalso.
    assert (Hz : Qabs (a1 - a2) == 0).
    { assert (H0 : a1 - a2 == 0) by Lqa.lra. now rewrite H0. }
    Lqa.lra.
  - do 2 eexists. split; [reflexivity|].
    split; [reflexivity|]. split; [cbn; now rewrite Hsym|].
    eexists. split; [reflexivity|].
    split; [exact Hle|]. split; [split; intros; Lqa.lra|].
    intros Heq. assert (H0 : a1 - a2 == 0) by Lqa.lra. now rewrite H0.
Qed.

Lemma X14_witness :
  exists e e',
    nth_error (calculate_angular_difference [Some 400] [Some 10]) 0 = Some e /\
    nth_error (calculate_angular_difference [Some 10] [Some 400]) 0
    = Some e' /\
    cell_eq e e' /\
    exists d, e = Some d /\ d <= 180 /\
              (0 <= d <-> Qabs (400 - 10) <= 360) /\
              (400 == 10 -> d == 0).
Proof.
  apply (X14_angular_difference_on_any_angles
           [Some 400] [Some 10] 0 (Some 400) (Some 10)); reflexivity.
Defined.

(** *** X15: the share of well aligned rows *)

Lemma sum_of_flags (threshold : Q) (l : list cell) :
  fold_right Z.add 0%Z
    (map (fun c => if lt_cell c threshold then 1%Z else 0%Z) l)
  = Z.of_nat (count_below threshold l).
Proof.
  unfold count_below. induction l as [|c t IH]; [reflexivity|].
  cbn [map fold_right filter]. rewrite IH.
  destruct (lt_cell c threshold); cbn [List.length]; lia.
Qed.

Lemma count_below_le (threshold : Q) (l : list cell) :
  (count_below threshold l <= List.length l)%nat.
Proof. apply filter_length_le. Qed.

(** X15.  On every row of a group, [pct_good_dir_alignment] is the number
    of rows of the group whose [dir_alignment] is present and below the
    threshold, divided by the number of all the rows of the group: a
    number of [0, 1], in which a row with a missing alignment counts as
    not aligned, whereas [avg_dir_alignment] leaves such a row out. *)
Theorem X15_share_of_well_aligned_rows
    (keys : list Key) (dir o angle_to_ball : list cell) (threshold : Q)
    (k : Key) :
  List.length dir = List.length keys ->
  List.length angle_to_ball = List.length keys ->
  let d := engineer_directional_features keys dir o angle_to_ball threshold in
  let al := group_of k keys (dir_alignment d) in
  let share :=
    inject_Z (Z.of_nat (count_below threshold al))
    / inject_Z (Z.of_nat (List.length al)) in
  group_of k keys (pct_good_dir_alignment d) = map (fun _ => Some share) al /\
  group_of k keys (avg_dir_alignment d) = map (fun _ => mean_skipna al) al /\
  (al <> [] -> 0 <= share /\ share <= 1) /\
  (count_below threshold al <= List.length al)%nat /\
  count_below threshold al
  = List.length (filter (fun v => if Qlt_le_dec v threshold then true
                                  else false) (valid al)).
Proof.
  intros Hdir Hang d al share.
  assert (Hlen : List.length keys = List.length (dir_alignment d)).
  { unfold d, engineer_directional_features. cbn [dir_alignment].
    unfold calculate_angular_difference.
    rewrite !length_map, length_combine, Hdir, Hang. now rewrite Nat.min_id. }
  split; [|split; [|split; [|split]]].
  - unfold d, engineer_directional_features. cbn [pct_good_dir_alignment].
    rewrite group_of_broadcast by (rewrite length_map; exact Hlen).
    rewrite group_of_map. fold d. change (dir_alignment d) with (dir_alignment d).
    change (group_of k keys (calculate_angular_difference dir angle_to_ball))
      with al.
    unfold broadcast. rewrite map_map.
    destruct al as [|c al'] eqn:Eal; [reflexivity|].
    apply map_ext_in. intros c' _. unfold mean_int.
    rewrite sum_of_flags, length_map. reflexivity.
  - unfold d, engineer_directional_features. cbn [avg_dir_alignment].
    now rewrite group_of_broadcast by exact Hlen.
  - intros Hne. pose proof (count_below_le threshold al) as Hle.
    assert (Hpos : 0 < inject_Z (Z.of_nat (List.length al))).
    { change 0 with (inject_Z 0). rewrite <- Zlt_Qlt.
      destruct al; [congruence | simpl; lia]. }
    unfold share. split.
    + apply Qle_shift_div_l; [exact Hpos|]. rewrite Qmult_0_l.
      change 0 with (inject_Z 0). rewrite <- Zle_Qle. lia.
    + apply Qle_shift_div_r; [exact Hpos|]. rewrite Qmult_1_l.
      rewrite <- Zle_Qle. lia.
  - apply count_below_le.
  - unfold count_below. clear. induction al as [|[v|] t IH]; [reflexivity| |].
    + cbn [filter valid lt_cell].
      destruct (Qlt_le_dec v threshold); cbn [List.length]; now rewrite IH.
    + cbn [filter valid lt_cell]. exact IH.
Qed.

Lemma X15_witness :
  let keys := [(1, 1, 7)%Z; (1, 1, 7)%Z; (1, 1, 7)%Z; (1, 1, 8)%Z] in
  let d := engineer_directional_features keys
             [Some 10; None; Some 200; Some 0] [None; None; None; None]
             [Some 20; Some 20; Some 20; Some 90] 45 in
  group_of (1, 1, 7)%Z keys (pct_good_dir_alignment d)
  = [Some (1 / 3); Some (1 / 3); Some (1 / 3)].
Proof.
  intros keys d.
  assert (H1 : List.length [Some 10; None; Some 200; Some 0]
               = List.length keys) by reflexivity.
  assert (H2 : List.length [Some 20; Some 20; Some 20; Some 90]
               = List.length keys) by reflexivity.
  destruct (X15_share_of_well_aligned_rows keys
              [Some 10; None; Some 200; Some 0] [None; None; None; None]
              [Some 20; Some 20; Some 20; Some 90] 45 (1, 1, 7)%Z H1 H2)
    as [H _].
  fold d in H. rewrite H. reflexivity.
Defined.

(** *** X16: hash marks and sidelines *)

(** X16.  A row is [near_sideline] exactly when its [dist_from_center] is
    above half the field width minus 10, and [near_hash] exactly when it
    is at most half the hash width; so with a hash width of at most the
    field width minus 20 no row is both, and both flags are the same at
    [y] and at its mirror image [field_width - y].  A row with a missing
    [y] is neither, and [dist_from_los] is never negative. *)
Theorem X16_hash_and_sideline_flags
    (x y absolute_yardline_number : cell) (field_width hash_width : Q) :
  let sp := engineer_spatial_features x y absolute_yardline_number
              field_width hash_width in
  (forall v,
      y = Some v ->
      dist_from_center sp = Some (Qabs (v - field_width / 2)) /\
      (near_sideline sp = 1%Z <->
       field_width / 2 - 10 < Qabs (v - field_width / 2)) /\
      (near_hash sp = 1%Z <-> Qabs (v - field_width / 2) <= hash_width / 2) /\
      let sp' := engineer_spatial_features x (Some (field_width - v))
                   absolute_yardline_number field_width hash_width in
      near_sideline sp' = near_sideline sp /\ near_hash sp' = near_hash sp) /\
  (hash_width <= field_width - 20 ->
   ~ (near_hash sp = 1%Z /\ near_sideline sp = 1%Z)) /\
  (y = None ->
   dist_from_center sp = None /\ near_hash sp = 0%Z /\
   near_sideline sp = 0%Z) /\
  (forall d, dist_from_los sp = Some d -> 0 <= d).
Proof.
  intros sp.
  assert (Hfw : field_width == 2 * (field_width / 2)) by field.
  assert (Hhw : hash_width == 2 * (hash_width / 2)) by field.
  unfold sp, engineer_spatial_features.
  cbn [dist_from_center near_sideline near_hash dist_from_los].
  revert Hfw Hhw.
  generalize (field_width / 2). generalize (hash_width / 2).
  intros hh hf Hfw Hhw.
  assert (Hside : forall v,
             (if lt_cell (Some v) 10 || gt_cell (Some v) (field_width - 10)
              then 1%Z else 0%Z) = 1%Z <->
             hf - 10 < Qabs (v - hf)).
  { intros v. unfold lt_cell, gt_cell.
    assert (Hc : hf - 10 < Qabs (v - hf) <->
                 (v < 10 \/ field_width - 10 < v)).
    { split.
      - intros Hgt.
        destruct (Qlt_le_dec v 10) as [|H1]; [now left|].
        destruct (Qlt_le_dec (field_width - 10) v) as [|H2]; [now right|].
        exfalso.
        assert (Qabs (v - hf) <= hf - 10)
          by (apply Qabs_Qle_condition; split; Lqa.lra).
        Lqa.lra.
      - intros [H|H].
        + pose proof (Qle_Qabs (- (v - hf))) as HH.
          rewrite Qabs_opp in HH. Lqa.lra.
        + pose proof (Qle_Qabs (v - hf)). Lqa.lra. }
    rewrite Hc.
    destruct (Qlt_le_dec v 10), (Qlt_le_dec (field_width - 10) v);
      cbn [orb]; split; intros H; try reflexivity; try discriminate; auto.
    destruct H; exfalso; Lqa.lra. }
  assert (Hhash : forall q,
             (if le_cell (Some q) hh then 1%Z else 0%Z) = 1%Z <-> q <= hh).
  { intros q. unfold le_cell.
    destruct (Qlt_le_dec hh q);
      split; intros H; try reflexivity; try discriminate; try assumption.
    exfalso. Lqa.lra. }
  assert (Hmirror : forall v, Qabs (field_width - v - hf) == Qabs (v - hf)).
  { intros v. rewrite <- (Qabs_opp (v - hf)). apply Qabs_wd. Lqa.lra. }
  split; [|split; [|split]].
  - intros v ->. cbn [sub_cell abs_cell option_map].
    split; [reflexivity|]. split; [apply Hside|]. split; [apply Hhash|].
    split.
    + pose proof (Hside v) as Hv. pose proof (Hside (field_width - v)) as Hm.
      rewrite Hmirror in Hm.
      destruct (lt_cell (Some v) 10 || gt_cell (Some v) (field_width - 10)),
        (lt_cell (Some (field_width - v)) 10
         || gt_cell (Some (field_width - v)) (field_width - 10));
        try reflexivity; exfalso.
      * assert (H : 0%Z = 1%Z) by (apply Hm, Hv; reflexivity). discriminate.
      * assert (H : 0%Z = 1%Z) by (apply Hv, Hm; reflexivity). discriminate.
    + pose proof (Hhash (Qabs (v - hf))) as Hv.
      pose proof (Hhash (Qabs (field_width - v - hf))) as Hm.
      pose proof (Hmirror v) as He.
      destruct (le_cell (Some (Qabs (v - hf))) hh),
        (le_cell (Some (Qabs (field_width - v - hf))) hh);
        try reflexivity; exfalso.
      * assert (Hb : Qabs (v - hf) <= hh) by (apply Hv; reflexivity).
        assert (Ha : Qabs (field_width - v - hf) <= hh) by Lqa.lra.
        apply Hm in Ha. discriminate.
      * assert (Ha : Qabs (field_width - v - hf) <= hh)
          by (apply Hm; reflexivity).
        assert (Hb : Qabs (v - hf) <= hh) by Lqa.lra.
        apply Hv in Hb. discriminate.
  - intros Hw [Hh Hs].
    destruct y as [v|]; [|discriminate Hh].
    cbn [sub_cell abs_cell option_map] in Hh.
    apply Hside in Hs. apply Hhash in Hh. Lqa.lra.
  - intros ->. repeat split.
  - intros d.
    destruct x as [vx|], absolute_yardline_number as [vl|];
      try discriminate.
    cbn [sub_cell abs_cell option_map]. intros H.
    assert (Hd : d = Qabs (vx - vl)) by congruence.
    rewrite Hd. apply Qabs_nonneg.
Qed.

End FeatureExtras.

(** ** The play-level aggregation, further *)

Module AggregationExtras.
Import Features FeaturesSpec FeaturesTheory AggregationTheory FeaturesMore.
Local Open Scope Q_scope.
Local Open Scope string_scope.

Lemma ascending_lookup_ext (l : list (Key * list entry)) :
  forall l',
    ascending_keys l -> ascending_keys l' ->
    (forall k, lookup k l = lookup k l') -> l = l'.
Proof.
  induction l as [|[k0 v0] r IH]; intros [|[k0' v0'] r'] Hs Hs' Hl.
  - reflexivity.
  - specialize (Hl k0'). rewrite lookup_cons, key_eqb_refl in Hl.
    discriminate.
  - specialize (Hl k0). rewrite lookup_cons, key_eqb_refl in Hl.
    discriminate.
  - assert (Hk : k0 = k0').
    { destruct (key_eqb k0 k0') eqn:E; [now apply key_eqb_eq|]. exfalso.
      pose proof (Hl k0) as H1. pose proof (Hl k0') as H2.
      rewrite !lookup_cons, key_eqb_refl in H1, H2.
      rewrite key_eqb_sym, E in H1. rewrite E in H2.
      assert (Hin' : In k0 (map fst r')).
      { destruct (in_dec Key_eq_dec k0 (map fst r')) as [H|H]; [exact H|].
        rewrite (lookup_absent _ _ H) in H1. discriminate. }
      assert (Hin : In k0' (map fst r)).
      { destruct (in_dec Key_eq_dec k0' (map fst r)) as [H|H]; [exact H|].
        rewrite (lookup_absent _ _ H) in H2. discriminate. }
      apply StronglySorted_inv in Hs, Hs'.
      destruct Hs as [_ Ha], Hs' as [_ Ha'].
      rewrite Forall_forall in Ha, Ha'.
      apply in_map_iff in Hin, Hin'.
      destruct Hin as (z & Hz & Hzin), Hin' as (z' & Hz' & Hzin').
      specialize (Ha z Hzin). specialize (Ha' z' Hzin').
      cbn [fst] in Ha, Ha'. rewrite Hz in Ha. rewrite Hz' in Ha'.
      apply (key_lt_irrefl k0). now apply key_lt_trans with k0'. }
    subst k0'.
    assert (Hv : v0 = v0').
    { specialize (Hl k0). rewrite !lookup_cons, key_eqb_refl in Hl.
      now injection Hl. }
    subst v0'. f_equal. apply IH.
    + now apply StronglySorted_inv in Hs.
    + now apply StronglySorted_inv in Hs'.
    + intros k. specialize (Hl k). rewrite !lookup_cons in Hl.
      destruct (key_eqb k0 k) eqn:E; [|exact Hl].
      apply key_eqb_eq in E. subst k.
      rewrite !lookup_absent; [reflexivity | |].
      * apply (ascending_head_absent k0 v0 r' k0 Hs'). now right.
      * apply (ascending_head_absent k0 v0 r k0 Hs). now right.
Qed.

(** X17.  The play-level table depends on the frame-level table only
    through its columns and through the rows of each (game_id, play_id,
    nfl_id) group in their order: two tables with the same columns and the
    same rows in every group give the same play-level table, however their
    groups are interleaved. *)
Theorem X17_play_level_rows_ignore_interleaving (df df' : FrameTable) :
  columns df = columns df' ->
  (forall k, frame_rows_of k (rows df) = frame_rows_of k (rows df')) ->
  create_play_level_dataset df = create_play_level_dataset df'.
Proof.
  intros Hc Hg. unfold create_play_level_dataset. rewrite <- Hc. f_equal.
  set (cols := agg_columns (columns df)).
  destruct (group_first_spec cols (rows df)) as [Hs Hl].
  destruct (group_first_spec cols (rows df')) as [Hs' Hl'].
  apply ascending_lookup_ext; try assumption.
  intros k. rewrite Hl, Hl'. unfold summary. now rewrite Hg.
Qed.

Lemma X17_witness :
  create_play_level_dataset by_player_table
  = create_play_level_dataset by_frame_table /\
  rows by_player_table <> rows by_frame_table.
Proof.
  split.
  - apply X17_play_level_rows_ignore_interleaving; [reflexivity|].
    intros [[g p] n]. cbn [rows by_player_table by_frame_table].
    unfold frame_rows_of. cbn [filter row_key].
    destruct (key_eqb (1, 1, 8)%Z (g, p, n)) eqn:E8,
             (key_eqb (1, 1, 7)%Z (g, p, n)) eqn:E7; try reflexivity.
    apply key_eqb_eq in E8, E7. congruence.
  - intros H. apply (f_equal (map row_key)) in H. discriminate H.
Defined.

(** *** X18: order, key columns and constant columns of the result *)

Lemma first_valid_constant (e : entry) (l : list entry) :
  l <> [] -> (forall x, In x l -> x = e) -> first_valid l = e.
Proof.
  induction l as [|x t IH]; intros Hne Hall; [congruence|].
  pose proof (Hall x (or_introl eq_refl)) as Hx. subst x.
  destruct e as [v|]; [reflexivity|]. cbn [first_valid].
  destruct t as [|y t']; [reflexivity|].
  apply IH; [discriminate|]. intros x Hx. apply Hall. now right.
Qed.

Lemma is_in_In (cols : list string) (c : string) :
  is_in cols c = true <-> In c cols.
Proof.
  unfold is_in. rewrite existsb_exists. split.
  - intros (x & Hx & E). apply String.eqb_eq in E. now subst.
  - intros H. exists c. split; [exact H | apply String.eqb_refl].
Qed.

Lemma agg_columns_In (df_columns : list string) (c : string) :
  In c (agg_columns df_columns) <->
  In c df_columns /\ In c (id_cols ++ context_cols ++ feature_cols)%list.
Proof.
  unfold agg_columns. rewrite filter_In, is_in_In, !in_app_iff, !filter_In,
    !is_in_In. tauto.
Qed.

Lemma ascending_keys_sorted (groups : list (Key * list entry)) :
  ascending_keys groups -> StronglySorted key_lt (map fst groups).
Proof.
  induction 1 as [|x l Hs IH Hall]; simpl; constructor; [exact IH|].
  rewrite Forall_forall in *. intros k Hk. apply in_map_iff in Hk.
  destruct Hk as (y & <- & Hy). now apply Hall.
Qed.

(** X18.  Whatever the order of the frame-level table, the groups of the
    play-level table come in strictly ascending (game_id, play_id, nfl_id)
    order.  A column is retained exactly when the frame-level table has it
    and it is one of the identifier, context or feature columns.  In the
    row of a group, a retained column that holds the same entry on every
    row of the group holds that entry, missing or not; in particular the
    columns game_id, play_id and nfl_id hold the key of the group. *)
Theorem X18_play_level_rows_are_ordered_and_keep_constants (df : FrameTable) :
  let cols := agg_columns (columns df) in
  let groups := group_first cols (rows df) in
  StronglySorted key_lt (map fst groups) /\
  (forall c, In c cols <->
             In c (columns df) /\
             In c (id_cols ++ context_cols ++ feature_cols)%list) /\
  (forall k vals,
      In (k, vals) groups ->
      List.length vals = List.length cols /\
      forall j c,
        nth_error cols j = Some c ->
        (forall e,
            (forall r, In r (frame_rows_of k (rows df)) -> column c r = e) ->
            nth_error vals j = Some e) /\
        (c = "game_id" ->
         nth_error vals j = Some (Some (Num (inject_Z (fst (fst k)))))) /\
        (c = "play_id" ->
         nth_error vals j = Some (Some (Num (inject_Z (snd (fst k)))))) /\
        (c = "nfl_id" ->
         nth_error vals j = Some (Some (Num (inject_Z (snd k)))))).
Proof.
  intros cols groups.
  split; [apply ascending_keys_sorted, group_first_spec|].
  split; [intros c; apply agg_columns_In|].
  intros k vals Hin.
  assert (Hne : frame_rows_of k (rows df) <> []).
  { rewrite frame_rows_of_nil_iff. intros Hno. apply Hno.
    apply (group_first_keys cols). apply in_map_iff.
    now exists (k, vals). }
  pose proof (group_first_entries cols (rows df) k vals Hin) as Hv.
  split; [rewrite Hv; apply length_map|].
  intros j c Hj.
  assert (Hconst : forall e,
             (forall r, In r (frame_rows_of k (rows df)) -> column c r = e) ->
             nth_error vals j = Some e).
  { intros e He. rewrite Hv, nth_error_map, Hj. cbn [option_map]. f_equal.
    apply first_valid_constant.
    - destruct (frame_rows_of k (rows df)); [congruence | discriminate].
    - intros x Hx. apply in_map_iff in Hx. destruct Hx as (r & <- & Hr).
      now apply He. }
  assert (Hkey : forall r, In r (frame_rows_of k (rows df)) -> row_key r = k).
  { intros r Hr. apply filter_In in Hr. now apply key_eqb_eq. }
  split; [exact Hconst|].
  split; [|split]; intros ->; apply Hconst; intros r Hr;
    unfold column; rewrite (Hkey r Hr); destruct k as [[g p] n]; reflexivity.
Qed.

End AggregationExtras.

(** ** The post-throw features *)

Module PostThrowExtras.
Import PostThrow.
Local Open Scope R_scope.
Local Open Scope string_scope.

Lemma euclid_dist (x1 y1 x2 y2 : R) :
  sqrt ((x2 - x1) ^ 2 + (y2 - y1) ^ 2) = dist_euc x1 y1 x2 y2.
Proof. unfold dist_euc, Rsqr. f_equal. ring. Qed.

Lemma euclid_sym (x1 y1 x2 y2 : R) :
  dist_euc x1 y1 x2 y2 = dist_euc x2 y2 x1 y1.
Proof. unfold dist_euc, Rsqr. f_equal. ring. Qed.

Lemma euclid_nonneg (x1 y1 x2 y2 : R) : 0 <= dist_euc x1 y1 x2 y2.
Proof. unfold dist_euc. apply sqrt_pos. Qed.

Lemma has_column_In (df_columns : list string) (c : string) :
  has_column df_columns c = true <-> In c df_columns.
Proof.
  unfold has_column. rewrite existsb_exists. split.
  - intros (x & Hx & E). apply String.eqb_eq in E. now subst.
  - intros H. exists c. split; [exact H | apply String.eqb_refl].
Qed.

Lemma post_features_bounds (r : PostRow) (moved final initial : R) :
  let f := post_features_of_row r in
  post_throw_distance f = Some moved ->
  final_proximity_to_ball f = Some final ->
  initial_post_proximity_to_ball f = Some initial ->
  convergence_distance f = Some (initial - final) /\
  0 <= moved /\ 0 <= final /\ 0 <= initial /\
  initial - final <= moved /\ - moved <= initial - final.
Proof.
  unfold post_features_of_row. cbn [post_throw_distance
    final_proximity_to_ball initial_post_proximity_to_ball
    convergence_distance].
  unfold calculate_distance.
  destruct (r "x_post_first") as [x1|], (r "y_post_first") as [y1|],
    (r "x_post_last") as [x2|], (r "y_post_last") as [y2|],
    (r "ball_land_x") as [bx|], (r "ball_land_y") as [b_y|];
    try discriminate.
  rewrite !euclid_dist. intros [= <-] [= <-] [= <-].
  split; [reflexivity|].
  pose proof (euclid_nonneg x1 y1 x2 y2).
  pose proof (euclid_nonneg x2 y2 bx b_y).
  pose proof (euclid_nonneg x1 y1 bx b_y).
  pose proof (triangle x1 y1 bx b_y x2 y2) as T1.
  pose proof (triangle x2 y2 bx b_y x1 y1) as T2.
  rewrite (euclid_sym x2 y2 x1 y1) in T2.
  repeat split; lra.
Qed.

(** X19.  When the table lacks [x_post_first] or [x_post_last] the step
    returns it unchanged, whatever else it holds.  When it has the six
    columns it reads, the step adds the four columns on every row, and on a
    row where the three distances are present: each is non-negative,
    [convergence_distance] is the initial proximity minus the final one, and
    its absolute value never exceeds [post_throw_distance], the
    straight-line distance moved.  When it has the two columns above but
    lacks another one it reads, it raises that column's KeyError. *)
Theorem X19_convergence_is_bounded_by_the_distance_moved
    (df_columns : list string) (df : list PostRow) :
  (~ In "x_post_first" df_columns \/ ~ In "x_post_last" df_columns ->
   engineer_post_throw_features df_columns df = Unchanged) /\
  ((forall c, In c columns_read -> In c df_columns) ->
   exists features,
     engineer_post_throw_features df_columns df = Added features /\
     List.length features = List.length df /\
     forall i f moved final initial,
       nth_error features i = Some f ->
       post_throw_distance f = Some moved ->
       final_proximity_to_ball f = Some final ->
       initial_post_proximity_to_ball f = Some initial ->
       convergence_distance f = Some (initial - final) /\
       0 <= moved /\ 0 <= final /\ 0 <= initial /\
       Rabs (initial - final) <= moved) /\
  (In "x_post_first" df_columns -> In "x_post_last" df_columns ->
   forall c,
     In c columns_read -> ~ In c df_columns ->
     exists c', engineer_post_throw_features df_columns df = KeyError c' /\
                In c' columns_read /\ ~ In c' df_columns).
Proof.
  unfold engineer_post_throw_features. split; [|split].
  - intros [H|H]; rewrite <- has_column_In in H;
      apply not_true_is_false in H; rewrite H;
      [reflexivity | now rewrite andb_false_r].
  - intros Hall.
    assert (H1 : has_column df_columns "x_post_first" = true)
      by (apply has_column_In, Hall; simpl; tauto).
    assert (H2 : has_column df_columns "x_post_last" = true)
      by (apply has_column_In, Hall; simpl; tauto).
    rewrite H1, H2. cbn [andb].
    destruct (find _ columns_read) as [c|] eqn:Ef.
    + apply find_some in Ef. destruct Ef as [Hin Hc].
      apply Hall, has_column_In in Hin. rewrite Hin in Hc. discriminate.
    + eexists. split; [reflexivity|]. split; [apply length_map|].
      intros i f moved final initial Hf Hm Hfi Hi.
      rewrite nth_error_map in Hf.
      destruct (nth_error df i) as [r|]; [|discriminate].
      injection Hf as <-.
      destruct (post_features_bounds r moved final initial Hm Hfi Hi)
        as (Hc & Hm0 & Hf0 & Hi0 & Hle & Hge).
      repeat (split; [assumption|]).
      apply Rabs_le. split; assumption.
  - intros H1 H2 c Hc Hno. apply has_column_In in H1, H2.
    rewrite H1, H2. cbn [andb].
    destruct (find _ columns_read) as [c'|] eqn:Ef.
    + apply find_some in Ef. destruct Ef as [Hin Hc'].
      exists c'. split; [reflexivity|]. split; [exact Hin|].
      rewrite <- has_column_In. intros E. rewrite E in Hc'. discriminate.
    + exfalso. apply (find_none _ _ Ef) in Hc.
      apply negb_false_iff, has_column_In in Hc. contradiction.
Qed.

Lemma X19_witness :
  exists features,
    engineer_post_throw_features columns_read [post_row] = Added features /\
    List.length features = 1%nat /\
    forall i f moved final initial,
      nth_error features i = Some f ->
      post_throw_distance f = Some moved ->
      final_proximity_to_ball f = Some final ->
      initial_post_proximity_to_ball f = Some initial ->
      convergence_distance f = Some (initial - final) /\
      0 <= moved /\ 0 <= final /\ 0 <= initial /\
      Rabs (initial - final) <= moved.
Proof.
  destruct (X19_convergence_is_bounded_by_the_distance_moved
              columns_read [post_row]) as (_ & H & _).
  apply H. intros c Hc. exact Hc.
Defined.

End PostThrowExtras.
